(** * Quantum key distribution simulator (QKD-EN.py): model and properties

    The Python program is embedded shallowly:
    - a Python [str] is a list of Unicode code points, [bytes] a list of
      byte values, a Python [int] an integer of [Z];
    - the two float constants the code returns ([1.0], [0.5]) and the
      quotient [errors / total_matched] are exact rationals of [Q];
    - the process-wide random generator, the clock, the console and the
      file system are one explicit state record threaded through every
      method, together with [self.key_pool];
    - [try]/[except] is an exception result inside that state monad;
    - the functions of [hashlib], [random] and the Unicode database are
      the fields of the class [Platform]. *)

From Stdlib Require Import String Ascii ZArith List Bool QArith Lia.
Import ListNotations.
Local Open Scope Z_scope.

(** ** Python strings and bytes *)

Abbreviation codepoint := Z (only parsing).
Definition str := list Z.
Definition bytes := list Z.

(** An ASCII literal of the source as a [str]. *)
Definition lit (s : string) : str :=
  map (fun a => Z.of_N (N_of_ascii a)) (list_ascii_of_string s).

Definition str_eqb (a b : str) : bool :=
  if list_eq_dec Z.eq_dec a b then true else false.

(** ** The platform the program runs on *)

Class Platform := {
  (** state of the [random] module's generator *)
  RandomState : Type;
  (** [random.getrandbits(k)] *)
  getrandbits : nat -> RandomState -> Z * RandomState;
  (** the index [random.choice] draws for a sequence of [n] elements *)
  randbelow : nat -> RandomState -> nat * RandomState;
  (** [hashlib.sha256(m).digest()] *)
  sha256 : bytes -> bytes;
  (** [hashlib.pbkdf2_hmac('sha256', password, salt, iterations)] *)
  pbkdf2_hmac_sha256 : bytes -> bytes -> Z -> bytes;
  (** the decimal value the Unicode database gives a code point above ASCII *)
  unicode_decimal : codepoint -> option Z
}.

(** Wall-clock reading of [datetime.now()]. *)
Record datetime := {
  year : nat; month : nat; day : nat;
  hour : nat; minute : nat; second : nat
}.

(** The lines of the console output that the properties below refer to.
    The rest of the output (banners, previews, prompts, the progress bar)
    is not recorded. *)
Inductive event :=
| PrintSifting                          (* "\nSifting quantum key..." *)
| PrintRetry (retry_count max_retries : nat)
                                        (* "\nRetry {}/{} - Error rate too high" *)
| PrintGeneratingKeys (current needed : nat)
| PrintMessageEmpty                     (* "\nMessage cannot be empty!" *)
| PrintFailedQuantumKey                 (* "\nFailed to generate quantum key" *)
| PrintInvalidFormat                    (* "\nInvalid file format" *)
| PrintFileModified                     (* "\nWarning: File has been modified!" *)
| PrintRecoveryInvalid                  (* "\nRecovery code is invalid!" *)
| PrintChunksInvalid                    (* "\nData chunks are invalid" *)
| PrintProcessingChunks (n : Z)         (* "\nProcessing {} chunks..." *)
| PrintDecrypted (text : str)           (* the "=== Decrypted Message ===" preview *)
| PrintComplete (text : str)            (* option 1, the complete message *)
| PrintSaved (name : str)               (* "\nMessage successfully saved to: {}" *)
| PrintSaveFailed
| PrintInvalidChoice                    (* "\nInvalid choice!" *)
| PrintFileNotFound (name : str)
| LogError (where_ : string).           (* logging.error(...) *)

Inductive exn :=
| ValueError | TypeError | IndexError | ZeroDivisionError
| UnicodeEncodeError | UnicodeDecodeError
| EOFError | FileNotFoundError
| Exception_ (msg : string)
| OutOfFuel.          (* a loop of the model ran past its bound; no handler
                         catches it *)

Inductive res (A : Type) :=
| Ret (a : A)
| Raise (e : exn).
Arguments Ret {A} a.
Arguments Raise {A} e.

(** The BB84 attributes set by [SecureBB84.__init__]; [bases] is the fixed
    two-element list. *)
Record SecureBB84 := {
  error_threshold : Q;
  num_qubits : nat;
  min_key_length : nat;
  verification_bits : nat;
  noise_threshold : Q;
  chunk_size : nat
}.

Definition bases : list str := [lit "rectilinear"; lit "diagonal"].

Definition SecureBB84_init : SecureBB84 := {|
  error_threshold := 15 # 100;
  num_qubits := 1000 * 1000;
  min_key_length := 500;
  verification_bits := 40;
  noise_threshold := 95 # 100;
  chunk_size := 1000
|}.

Section Model.
Context {P : Platform}.

(** Everything a method can read or change. *)
Record State := {
  rng : RandomState;
  key_pool : list (list Z);             (* self.key_pool *)
  files : str -> option str;            (* the file system, by file name *)
  stdin : list str;                     (* lines still to be typed *)
  stdout : list event;                  (* recorded lines, oldest first *)
  now : datetime                        (* datetime.now() *)
}.

Definition M (A : Type) := State -> res A * State.

Definition ret {A} (a : A) : M A := fun s => (Ret a, s).
Definition raise {A} (e : exn) : M A := fun s => (Raise e, s).
Definition bind {A B} (m : M A) (k : A -> M B) : M B :=
  fun s => match m s with
           | (Ret a, s') => k a s'
           | (Raise e, s') => (Raise e, s')
           end.
(** [try: m  except Exception as e: handler e]. *)
Definition try_except {A} (m : M A) (handler : exn -> M A) : M A :=
  fun s => match m s with
           | (Ret a, s') => (Ret a, s')
           | (Raise OutOfFuel, s') => (Raise OutOfFuel, s')
           | (Raise e, s') => handler e s'
           end.

Notation "x <- m ;; k" := (bind m (fun x => k))
  (at level 61, m at next level, right associativity).
Notation "m ;;; k" := (bind m (fun _ => k))
  (at level 61, right associativity).

Definition set_rng (g : RandomState) (s : State) : State :=
  {| rng := g; key_pool := key_pool s; files := files s; stdin := stdin s;
     stdout := stdout s; now := now s |}.
Definition set_key_pool (p : list (list Z)) (s : State) : State :=
  {| rng := rng s; key_pool := p; files := files s; stdin := stdin s;
     stdout := stdout s; now := now s |}.
Definition set_files (f : str -> option str) (s : State) : State :=
  {| rng := rng s; key_pool := key_pool s; files := f; stdin := stdin s;
     stdout := stdout s; now := now s |}.
Definition set_stdin (l : list str) (s : State) : State :=
  {| rng := rng s; key_pool := key_pool s; files := files s; stdin := l;
     stdout := stdout s; now := now s |}.
Definition set_stdout (o : list event) (s : State) : State :=
  {| rng := rng s; key_pool := key_pool s; files := files s; stdin := stdin s;
     stdout := o; now := now s |}.

Definition print (e : event) : M unit :=
  fun s => (Ret tt, set_stdout (stdout s ++ [e]) s).

(** [input()]: the next typed line, [EOFError] when there is none. *)
Definition input : M str :=
  fun s => match stdin s with
           | [] => (Raise EOFError, s)
           | l :: rest => (Ret l, set_stdin rest s)
           end.

(** [show_progress(current, total, ...)]: the bar it draws is not recorded;
    its division by [float(total)] raises when [total] is zero. *)
Definition show_progress (current total : nat) : M unit :=
  match total with
  | O => raise ZeroDivisionError
  | S _ => ret tt
  end.

(** ** SecureBB84 *)

(** [secure_random]: [random.getrandbits(1)]. *)
Definition secure_random : M Z :=
  fun s => let (b, g) := getrandbits 1 (rng s) in (Ret b, set_rng g s).

(** [random.choice(self.bases)]. *)
Definition choice_basis : M str :=
  fun s => let (i, g) := randbelow (length bases) (rng s) in
           (Ret (nth i bases []), set_rng g s).

(** [simulate_transmission(bit, send_basis, receive_basis)]. *)
Definition simulate_transmission (bit : Z) (send_basis receive_basis : str)
  : M (Z * Q) :=
  if str_eqb send_basis receive_basis then ret (bit, 1%Q)
  else (b <- secure_random ;; ret (b, (1 # 2)%Q)).

(** [[m for _ in range(n)]]. *)
Fixpoint draw {A} (n : nat) (m : M A) : M (list A) :=
  match n with
  | O => ret []
  | S n' => x <- m ;; xs <- draw n' m ;; ret (x :: xs)
  end.

(** The transmission loop: index [i] of the three lists of [num_qubits]
    elements, in order; returns [received_bits] and [received_confidence]. *)
Fixpoint transmit (alice_bits : list Z) (alice_bases bob_bases : list str)
  : M (list Z * list Q) :=
  match alice_bits, alice_bases, bob_bases with
  | a :: bits, sb :: sbs, rb :: rbs =>
      r <- simulate_transmission a sb rb ;;
      rest <- transmit bits sbs rbs ;;
      ret (fst r :: fst rest, snd r :: snd rest)
  | _, _, _ => ret ([], [])
  end.

(** The four accumulators of the sifting loop. *)
Record sifting := {
  sifted_key : list Z;
  verification : list Z;
  errors : Z;
  total_matched : Z
}.

Definition sift_init : sifting :=
  {| sifted_key := []; verification := []; errors := 0; total_matched := 0 |}.

(** One iteration of the sifting loop, at an index holding sender bit [a],
    bases [sb] and [rb], and received bit [r]. *)
Definition sift_step (self : SecureBB84) (st : sifting)
  (a : Z) (sb rb : str) (r : Z) : sifting :=
  if str_eqb sb rb then
    let total := total_matched st + 1 in
    let errs := if negb (a =? r) then errors st + 1 else errors st in
    if (length (verification st) <? verification_bits self)%nat then
      {| sifted_key := sifted_key st; verification := verification st ++ [a];
         errors := errs; total_matched := total |}
    else
      {| sifted_key := sifted_key st ++ [a]; verification := verification st;
         errors := errs; total_matched := total |}
  else st.

Fixpoint sift (self : SecureBB84) (st : sifting)
  (alice_bits : list Z) (alice_bases bob_bases : list str)
  (received_bits : list Z) : sifting :=
  match alice_bits, alice_bases, bob_bases, received_bits with
  | a :: bits, sb :: sbs, rb :: rbs, r :: rs =>
      sift self (sift_step self st a sb rb r) bits sbs rbs rs
  | _, _, _, _ => st
  end.

(** Lines 70-114: one pass of the [while] body up to the end of sifting.
    Inside the two loops [show_progress] runs with a total that is not
    zero; after them (lines 91 and 114) the total can be zero. *)
Definition attempt (self : SecureBB84) : M sifting :=
  alice_bits <- draw (num_qubits self) secure_random ;;
  alice_bases <- draw (num_qubits self) choice_basis ;;
  bob_bases <- draw (num_qubits self) choice_basis ;;
  received <- transmit alice_bits alice_bases bob_bases ;;
  show_progress (num_qubits self) (num_qubits self) ;;;
  print PrintSifting ;;;
  let st := sift self sift_init alice_bits alice_bases bob_bases
              (fst received) in
  show_progress (num_qubits self) (num_qubits self) ;;;
  ret st.

(** [errors / total_matched]. *)
Definition error_rate (st : sifting) : Q :=
  (inject_Z (errors st) / inject_Z (total_matched st))%Q.

(** The acceptance test of line 122. *)
Definition accepted (self : SecureBB84) (st : sifting) : bool :=
  (min_key_length self <=? length (sifted_key st))%nat
  && Qle_bool (error_rate st) (error_threshold self).

Definition max_retries : nat := 3.

(** The [while retry_count < max_retries] loop, with [remaining] standing
    for [max_retries - retry_count]. *)
Fixpoint generate_key_loop (self : SecureBB84) (remaining retry_count : nat)
  : M (option (list Z) * Q) :=
  match remaining with
  | O => ret (None, 1%Q)
  | S remaining' =>
      st <- attempt self ;;
      if total_matched st =? 0 then
        generate_key_loop self remaining' (S retry_count)
      else if accepted self st then
        ret (Some (sifted_key st), error_rate st)
      else
        print (PrintRetry (S retry_count) max_retries) ;;;
        generate_key_loop self remaining' (S retry_count)
  end.

(** [generate_key]. *)
Definition generate_key (self : SecureBB84) : M (option (list Z) * Q) :=
  try_except (generate_key_loop self max_retries 0)
    (fun _ => print (LogError "Key generation error") ;;; ret (None, 1%Q)).

(** An attempt that does not return: no matched basis, or line 122 false. *)
Definition validation_fails (self : SecureBB84) (st : sifting) : bool :=
  (total_matched st =? 0) || negb (accepted self st).

(** The state in which the next pass starts after the failed attempt that
    made [retry_count] what it is: line 126 printed, unless line 118 ran. *)
Definition after_failed_attempt (retry_count : nat) (st : sifting)
  (s : State) : State :=
  if total_matched st =? 0 then s
  else set_stdout (stdout s ++ [PrintRetry retry_count max_retries]) s.

(** Number of attempts a log shows: one sifting banner each. *)
Definition attempts_started (out : list event) : nat :=
  length (filter (fun e => match e with PrintSifting => true | _ => false end)
            out).

(** ** The key pool *)

(** The [while current_length < needed_length] loop of [generate_key_pool].
    Every pass that continues adds a non-empty key, so
    [needed_length - current_length] passes are enough. *)
Fixpoint generate_key_pool_loop (self : SecureBB84) (fuel : nat)
  (needed_length current_length : nat) : M bool :=
  if (current_length <? needed_length)%nat then
    match fuel with
    | O => raise OutOfFuel
    | S fuel' =>
        print (PrintGeneratingKeys current_length needed_length) ;;;
        r <- generate_key self ;;
        match fst r with
        | None | Some [] => ret false             (* if not key *)
        | Some key =>
            (fun s => (Ret tt, set_key_pool (key_pool s ++ [key]) s)) ;;;
            generate_key_pool_loop self fuel' needed_length
              (current_length + length key)
        end
    end
  else ret true.

(** [generate_key_pool(needed_length)]. *)
Definition generate_key_pool (self : SecureBB84) (needed_length : nat)
  : M bool :=
  try_except
    (fun s =>
       let current_length := length (concat (key_pool s)) in
       generate_key_pool_loop self needed_length needed_length
         current_length s)
    (fun _ => print (LogError "Key pool generation error") ;;; ret false).

(** The [while len(result) < length] loop of [get_key_from_pool]. *)
Fixpoint get_key_loop (self : SecureBB84) (fuel : nat) (length_ : nat)
  (result : list Z) : M (list Z) :=
  if (length result <? length_)%nat then
    match fuel with
    | O => raise OutOfFuel
    | S fuel' =>
        (fun s =>
           match key_pool s with
           | [] =>
               (ok <- generate_key_pool self (length_ - length result) ;;
                if ok then ret tt
                else raise (Exception_ "Failed to generate enough keys")) s
           | _ => (Ret tt, s)
           end) ;;;
        (fun s =>
           match key_pool s with
           | [] => (Raise IndexError, s)
           | current_key :: rest =>
               let needed := (length_ - length result)%nat in
               if (length current_key <=? needed)%nat then
                 get_key_loop self fuel' length_ (result ++ current_key)
                   (set_key_pool rest s)
               else
                 get_key_loop self fuel' length_
                   (result ++ firstn needed current_key)
                   (set_key_pool (skipn needed current_key :: rest) s)
           end)
    end
  else ret result.

(** [get_key_from_pool(length)].  A pass pops a segment or is the last one;
    a refill appends at most [length] segments. *)
Definition get_key_from_pool (self : SecureBB84) (length_ : nat)
  : M (list Z) :=
  fun s => get_key_loop self (length (key_pool s) + length_ + 1) length_ [] s.

(** A sequence of draws, one after the other. *)
Fixpoint draws (self : SecureBB84) (sizes : list nat) : M (list (list Z)) :=
  match sizes with
  | [] => ret []
  | n :: rest =>
      k <- get_key_from_pool self n ;;
      ks <- draws self rest ;;
      ret (k :: ks)
  end.

(** ** Text helpers of the Python runtime *)

(** [str.isspace] of one code point; also what [str.split()] and
    [str.strip()] treat as white space. *)
Definition isspace (c : codepoint) : bool :=
  ((9 <=? c) && (c <=? 13)) || ((28 <=? c) && (c <=? 32))
  || (c =? 133) || (c =? 160) || (c =? 5760)
  || ((8192 <=? c) && (c <=? 8202))
  || (c =? 8232) || (c =? 8233) || (c =? 8239) || (c =? 8287)
  || (c =? 12288).

Definition LF : str := [10].
Definition SPACE : str := [32].

(** [sep.join(parts)]. *)
Fixpoint join (sep : str) (parts : list str) : str :=
  match parts with
  | [] => []
  | [x] => x
  | x :: rest => x ++ sep ++ join sep rest
  end.

Fixpoint starts_with (prefix s : str) : bool :=
  match prefix, s with
  | [], _ => true
  | p :: prefix', c :: s' => (p =? c) && starts_with prefix' s'
  | _ :: _, [] => false
  end.

(** [s.split(sep)] for a non-empty [sep]: [cur] is the piece being read,
    [skip] the number of code points of a separator still to pass. *)
Fixpoint split_from (sep : str) (skip : nat) (cur : str) (s : str)
  : list str :=
  match s with
  | [] => [cur]
  | c :: rest =>
      match skip with
      | S k => split_from sep k cur rest
      | O =>
          if starts_with sep s
          then cur :: split_from sep (length sep - 1) [] rest
          else split_from sep 0 (cur ++ [c]) rest
      end
  end.

Definition split (sep : str) (s : str) : list str := split_from sep 0 [] s.

(** [s.split()]: the maximal runs of code points that are not white space. *)
Fixpoint split_ws_from (cur : str) (s : str) : list str :=
  match s with
  | [] => match cur with [] => [] | _ => [cur] end
  | c :: rest =>
      if isspace c
      then match cur with
           | [] => split_ws_from [] rest
           | _ => cur :: split_ws_from [] rest
           end
      else split_ws_from (cur ++ [c]) rest
  end.

Definition split_ws (s : str) : list str := split_ws_from [] s.

Fixpoint lstrip (s : str) : str :=
  match s with
  | c :: rest => if isspace c then lstrip rest else s
  | [] => []
  end.

(** [s.strip()]. *)
Definition strip (s : str) : str := rev (lstrip (rev (lstrip s))).

(** [s[start:stop]] with Python's treatment of negative and large bounds. *)
Definition slice_bound (len i : Z) : Z :=
  if i <? 0 then Z.max 0 (i + len) else Z.min i len.

Definition slice {A} (s : list A) (start stop : Z) : list A :=
  let len := Z.of_nat (length s) in
  let lo := slice_bound len start in
  let hi := slice_bound len stop in
  firstn (Z.to_nat (hi - lo)) (skipn (Z.to_nat lo) s).

(** [[s[i:i+n] for i in range(0, len(s), n)]] for [n > 0]; [fuel] bounds
    the number of pieces by [len(s)]. *)
Fixpoint chunks_of {A} (fuel : nat) (n : nat) (s : list A) : list (list A) :=
  match fuel, s with
  | _, [] => []
  | O, _ => []
  | S fuel', _ => firstn n s :: chunks_of fuel' n (skipn n s)
  end.

(** Binary digits of a positive number, most significant first. *)
Fixpoint pos_bin (p : positive) : str :=
  match p with
  | xH => [49]
  | xO p' => pos_bin p' ++ [48]
  | xI p' => pos_bin p' ++ [49]
  end.

(** [format(n, '0{width}b')]. *)
Definition format_b (width : nat) (n : Z) : str :=
  match n with
  | Z0 => repeat 48 (width - 1) ++ [48]
  | Zpos p => repeat 48 (width - length (pos_bin p)) ++ pos_bin p
  | Zneg p => 45 :: repeat 48 (width - 1 - length (pos_bin p)) ++ pos_bin p
  end.

Definition hex_digit (d : Z) : codepoint :=
  if d <? 10 then 48 + d else 87 + d.

(** [format(b, '02x')] of a byte. *)
Definition format_02x (b : Z) : str := [hex_digit (b / 16); hex_digit (b mod 16)].

(** [bytes.hex()]. *)
Definition hex (b : bytes) : str := flat_map format_02x b.

(** Decimal digits of a positive number. *)
Fixpoint dec_digits (fuel : nat) (n : Z) : str :=
  match fuel with
  | O => []
  | S fuel' =>
      if n <? 10 then [48 + n]
      else dec_digits fuel' (n / 10) ++ [48 + n mod 10]
  end.

(** [str(n)] of an [int]. *)
Definition py_str (n : Z) : str :=
  match n with
  | Z0 => [48]
  | Zpos p => dec_digits (Pos.to_nat (Pos.size p)) n
  | Zneg p => 45 :: dec_digits (Pos.to_nat (Pos.size p)) (Zpos p)
  end.

(** Value of an ASCII letter or digit as a digit of [int]. *)
Definition digit_value (c : codepoint) : option Z :=
  if (48 <=? c) && (c <=? 57) then Some (c - 48)
  else if (97 <=? c) && (c <=? 122) then Some (c - 87)
  else if (65 <=? c) && (c <=? 90) then Some (c - 55)
  else None.

(** White space of the C locale, as [int] skips it around a literal. *)
Definition is_c_space (c : codepoint) : bool :=
  (c =? 32) || ((9 <=? c) && (c <=? 13)).

(** What [int] first does to a [str]: Unicode white space becomes a space
    and Unicode decimal digits become ASCII digits; any other code point
    above ASCII makes the literal invalid. *)
Fixpoint to_ascii_literal (s : str) : option str :=
  match s with
  | [] => Some []
  | c :: rest =>
      let c' := if c <? 128 then Some c
                else if isspace c then Some 32
                else match unicode_decimal c with
                     | Some d => Some (48 + d)
                     | None => None
                     end in
      match c', to_ascii_literal rest with
      | Some a, Some rest' => Some (a :: rest')
      | _, _ => None
      end
  end.

Fixpoint skip_c_space (s : str) : str :=
  match s with
  | c :: rest => if is_c_space c then skip_c_space rest else s
  | [] => []
  end.

(** The digits of a literal, single underscores allowed between them:
    the value read, the number of digits, and what follows them. *)
Fixpoint scan_digits (base : Z) (acc : Z) (digits : nat) (prev_us : bool)
  (s : str) : option (Z * nat * str) :=
  let stop := if prev_us then None else Some (acc, digits, s) in
  match s with
  | [] => stop
  | c :: rest =>
      if c =? 95 then
        if prev_us then None else scan_digits base acc digits true rest
      else
        match digit_value c with
        | Some d =>
            if d <? base
            then scan_digits base (acc * base + d) (S digits) false rest
            else stop
        | None => stop
        end
  end.

(** An optional sign in front of a literal. *)
Definition split_sign (a : str) : Z * str :=
  match a with
  | c :: r => if c =? 43 then (1, r) else if c =? 45 then (-1, r) else (1, a)
  | [] => (1, a)
  end.

(** The prefix [0b] or [0x] a literal of that base may carry, with one
    underscore after it. *)
Definition skip_prefix (base : Z) (a : str) : str :=
  match a with
  | z :: x :: r =>
      if (z =? 48)
         && (((base =? 2) && ((x =? 98) || (x =? 66)))
             || ((base =? 16) && ((x =? 120) || (x =? 88))))
      then match r with
           | u :: r' => if u =? 95 then r' else r
           | [] => r
           end
      else a
  | _ => a
  end.

(** The digits and what may follow them: at least one digit, no underscore
    in front, nothing but white space behind. *)
Definition parse_digits (base : Z) (a : str) : option Z :=
  match a with
  | [] => None
  | c :: _ =>
      if c =? 95 then None
      else match scan_digits base 0 0 false a with
           | Some (v, S _, rest) =>
               match skip_c_space rest with
               | [] => Some v
               | _ => None
               end
           | _ => None
           end
  end.

(** [int(s, base)] for base 2, 10 or 16; [None] is [ValueError].  The
    bound an interpreter may set on the number of decimal digits
    ([sys.int_max_str_digits]) is left out. *)
Definition py_int (base : Z) (s : str) : option Z :=
  match to_ascii_literal s with
  | None => None
  | Some a =>
      let signed := split_sign (skip_c_space a) in
      match parse_digits base (skip_prefix base (snd signed)) with
      | Some v => Some (fst signed * v)
      | None => None
      end
  end.

(** ** UTF-8 *)

(** [chr(c).encode('utf-8')]; [None] is [UnicodeEncodeError], raised for
    the surrogates (and for what is no code point at all). *)
Definition utf8_encode_char (c : codepoint) : option bytes :=
  if c <? 0 then None
  else if c <? 128 then Some [c]
  else if c <? 2048 then Some [192 + c / 64; 128 + c mod 64]
  else if c <? 65536 then
    if (55296 <=? c) && (c <=? 57343) then None
    else Some [224 + c / 4096; 128 + (c / 64) mod 64; 128 + c mod 64]
  else if c <? 1114112 then
    Some [240 + c / 262144; 128 + (c / 4096) mod 64;
          128 + (c / 64) mod 64; 128 + c mod 64]
  else None.

(** [s.encode('utf-8')]. *)
Fixpoint utf8_encode (s : str) : option bytes :=
  match s with
  | [] => Some []
  | c :: rest =>
      match utf8_encode_char c, utf8_encode rest with
      | Some b, Some bs => Some (b ++ bs)
      | _, _ => None
      end
  end.

Inductive error_policy := Strict | Ignore.

Definition is_cont (b : Z) : bool := (128 <=? b) && (b <=? 191).

Definition emit (c : codepoint) (rest : option str) : option str :=
  match rest with
  | Some r => Some (c :: r)
  | None => None
  end.

(** An undecodable range of bytes: [UnicodeDecodeError] when strict,
    dropped when ignored, decoding going on with [rest]. *)
Definition undecodable (errors : error_policy) (rest : option str)
  : option str :=
  match errors with
  | Strict => None
  | Ignore => rest
  end.

(** [b.decode('utf-8', errors)]; [None] is [UnicodeDecodeError].  An
    invalid start byte is an error of one byte, an invalid continuation an
    error up to that byte, a sequence cut by the end an error to the end. *)
Fixpoint utf8_decode (errors : error_policy) (b : bytes) : option str :=
  match b with
  | [] => Some []
  | b1 :: r1 =>
      if b1 <? 128 then emit b1 (utf8_decode errors r1)
      else if b1 <? 194 then undecodable errors (utf8_decode errors r1)
      else if b1 <? 224 then
        match r1 with
        | [] => undecodable errors (Some [])
        | b2 :: r2 =>
            if is_cont b2
            then emit ((b1 - 192) * 64 + (b2 - 128)) (utf8_decode errors r2)
            else undecodable errors (utf8_decode errors r1)
        end
      else if b1 <? 240 then
        match r1 with
        | [] => undecodable errors (Some [])
        | b2 :: r2 =>
            if is_cont b2
               && (if b1 =? 224 then 160 <=? b2 else true)
               && (if b1 =? 237 then b2 <? 160 else true)
            then
              match r2 with
              | [] => undecodable errors (Some [])
              | b3 :: r3 =>
                  if is_cont b3
                  then emit ((b1 - 224) * 4096 + (b2 - 128) * 64 + (b3 - 128))
                         (utf8_decode errors r3)
                  else undecodable errors (utf8_decode errors r2)
              end
            else undecodable errors (utf8_decode errors r1)
        end
      else if b1 <? 245 then
        match r1 with
        | [] => undecodable errors (Some [])
        | b2 :: r2 =>
            if is_cont b2
               && (if b1 =? 240 then 144 <=? b2 else true)
               && (if b1 =? 244 then b2 <? 144 else true)
            then
              match r2 with
              | [] => undecodable errors (Some [])
              | b3 :: r3 =>
                  if is_cont b3 then
                    match r3 with
                    | [] => undecodable errors (Some [])
                    | b4 :: r4 =>
                        if is_cont b4
                        then emit ((b1 - 240) * 262144 + (b2 - 128) * 4096
                                   + (b3 - 128) * 64 + (b4 - 128))
                               (utf8_decode errors r4)
                        else undecodable errors (utf8_decode errors r3)
                    end
                  else undecodable errors (utf8_decode errors r2)
              end
            else undecodable errors (utf8_decode errors r1)
        end
      else undecodable errors (utf8_decode errors r1)
  end.

(** [b.decode('latin-1', errors='ignore')]. *)
Definition latin1_decode (b : bytes) : str := b.

(** ** The frame codec of EnhancedQKDSimulator *)

(** [' '.join(line.split())]. *)
Definition normalize_line (line : str) : str := join SPACE (split_ws line).

(** The three lines both [text_to_binary] and [binary_to_text] apply:
    split on line feeds, collapse the white space of each line, rejoin. *)
Definition normalize (text : str) : str :=
  join LF (map normalize_line (split LF text)).

(** [text_to_binary(text)]; [None] is the [None] of the handler. *)
Definition text_to_binary (text : str) : option str :=
  let normalized_text := normalize text in
  match utf8_encode normalized_text with
  | None => None
  | Some text_bytes =>
      let message_bits := flat_map (format_b 8) text_bytes in
      let length_bits := format_b 32 (Z.of_nat (length message_bits)) in
      Some (length_bits ++ message_bits)
  end.

(** Lines 176-183: the bytes kept out of the 8-character groups. *)
Fixpoint bytes_of_chunks (byte_chunks : list str) : bytes :=
  match byte_chunks with
  | [] => []
  | chunk :: rest =>
      if (length chunk =? 8)%nat then
        match py_int 2 chunk with
        | Some byte_val =>
            if byte_val <? 256 then
              if 0 <=? byte_val then byte_val :: bytes_of_chunks rest
              else bytes_of_chunks rest   (* append raises ValueError *)
            else bytes_of_chunks rest
        | None => bytes_of_chunks rest
        end
      else bytes_of_chunks rest
  end.

(** Lines 166-174 and 176-183: from the input to [bytes_data]; [None] when
    the length prefix does not parse. *)
Definition frame_bytes (binary : str) : option bytes :=
  match py_int 2 (slice binary 0 32) with
  | None => None
  | Some message_length =>
      let message_bits := slice binary 32 (32 + message_length) in
      let message_bits :=
        if (length message_bits mod 8 =? 0)%nat then message_bits
        else message_bits
             ++ repeat 48 (8 - length message_bits mod 8) in
      Some (bytes_of_chunks
              (chunks_of (length message_bits) 8 message_bits))
  end.

(** Which decoder produced the text. *)
Inductive decoder := Utf8Path | Latin1Path.

(** Lines 185-192 with the branch taken. *)
Definition decode_bytes (bytes_data : bytes) : decoder * str :=
  match utf8_decode Ignore bytes_data with
  | Some decoded => (Utf8Path, normalize decoded)
  | None => (Latin1Path, latin1_decode bytes_data)
  end.

(** [binary_to_text(binary)]; [None] is the [None] of the outer handler. *)
Definition binary_to_text (binary : str) : option str :=
  match frame_bytes binary with
  | None => None
  | Some bytes_data => Some (snd (decode_bytes bytes_data))
  end.

(** [binary_to_text] applied to what [text_to_binary] returned: slicing
    [None] raises [TypeError], which the handler turns into [None]. *)
Definition binary_to_text_of (binary : option str) : option str :=
  match binary with
  | None => None
  | Some b => binary_to_text b
  end.

(** ** Masking and the container *)

(** [[str(int(a) ^ b) for a, b in zip(text, key)]]; [None] is the
    [ValueError] of [int(a)]. *)
Fixpoint mask (text : str) (key : list Z) : option (list str) :=
  match text, key with
  | a :: text', b :: key' =>
      match py_int 10 [a], mask text' key' with
      | Some v, Some rest => Some (py_str (Z.lxor v b) :: rest)
      | _, _ => None
      end
  | _, _ => Some []
  end.

(** [int(transport_key[i % len(transport_key)], 16)]; [None] is
    [ZeroDivisionError] or [ValueError]. *)
Definition transport_digit (transport_key : str) (i : nat) : option Z :=
  match transport_key with
  | [] => None
  | _ => py_int 16 [nth (i mod length transport_key) transport_key 0]
  end.

(** [[b ^ int(transport_key[i % len(transport_key)], 16)
      for i, b in enumerate(data)]], from index [i] on. *)
Fixpoint xor_transport (transport_key : str) (i : nat) (data : bytes)
  : option bytes :=
  match data with
  | [] => Some []
  | b :: rest =>
      match transport_digit transport_key i,
            xor_transport transport_key (S i) rest with
      | Some d, Some r => Some (Z.lxor b d :: r)
      | _, _ => None
      end
  end.

Definition COMMA : str := lit ",".
Definition HASHES : str := lit "###".
Definition ATS : str := lit "@@@".

(** Lines 337-343: one key of [keys_used] as it is stored. *)
Definition encrypt_key (transport_key : str) (key : list Z) : option str :=
  match utf8_encode (join COMMA (map py_str key)) with
  | None => None
  | Some key_bytes =>
      match xor_transport transport_key 0 key_bytes with
      | None => None
      | Some encrypted_key => Some (flat_map format_02x encrypted_key)
      end
  end.

Fixpoint encrypt_keys (transport_key : str) (keys_used : list (list Z))
  : option (list str) :=
  match keys_used with
  | [] => Some []
  | key :: rest =>
      match encrypt_key transport_key key,
            encrypt_keys transport_key rest with
      | Some k, Some r => Some (k :: r)
      | _, _ => None
      end
  end.

Definition pad_left (width : nat) (s : str) : str :=
  repeat 48 (width - length s) ++ s.

(** [strftime('%Y%m%d%H%M%S')]. *)
Definition strftime (t : datetime) : str :=
  pad_left 4 (py_str (Z.of_nat (year t)))
  ++ pad_left 2 (py_str (Z.of_nat (month t)))
  ++ pad_left 2 (py_str (Z.of_nat (day t)))
  ++ pad_left 2 (py_str (Z.of_nat (hour t)))
  ++ pad_left 2 (py_str (Z.of_nat (minute t)))
  ++ pad_left 2 (py_str (Z.of_nat (second t))).

(** [answer.lower() == 'y']. *)
Definition lower_is_y (answer : str) : bool :=
  str_eqb answer (lit "y") || str_eqb answer (lit "Y").

Definition lift {A} (o : option A) (e : exn) : M A :=
  match o with
  | Some a => ret a
  | None => raise e
  end.

Definition write_file (name content : str) : M unit :=
  fun s => (Ret tt,
            set_files (fun n => if str_eqb n name then Some content
                                else files s n) s).

Definition read_file (name : str) : M str :=
  fun s => match files s name with
           | Some content => (Ret content, s)
           | None => (Raise FileNotFoundError, s)
           end.

(** [hashlib.sha256(s.encode()).hexdigest()]; [None] is the exception of
    [encode]. *)
Definition sha256_hex (s : str) : option str :=
  match utf8_encode s with
  | Some b => Some (hex (sha256 b))
  | None => None
  end.

(** Lines 327-332 and 402-407. *)
Definition derive_transport_key (salt timestamp : str) : option str :=
  match utf8_encode salt, utf8_encode timestamp with
  | Some salt_bytes, Some timestamp_bytes =>
      Some (firstn 32
              (hex (pbkdf2_hmac_sha256 salt_bytes timestamp_bytes 100000)))
  | _, _ => None
  end.

(** Lines 368 and 410. *)
Definition recovery_code_of (transport_key : str) : option str :=
  match sha256_hex transport_key with
  | Some h => Some (firstn 12 h)
  | None => None
  end.

(** Lines 326-362, from the time stamp, the 256 random bits and the result
    of the chunk loop to the file name, the text written to the file and
    the transport key; [None] is an exception. *)
Definition seal (timestamp : str) (seed : Z) (encrypted_chunks : list str)
  (keys_used : list (list Z)) (total_chunks : nat)
  : option (str * str * str) :=
  match sha256_hex (py_str seed) with
  | None => None
  | Some seed_hash =>
      let salt := firstn 16 seed_hash in
      match derive_transport_key salt timestamp with
      | None => None
      | Some transport_key =>
          match encrypt_keys transport_key keys_used with
          | None => None
          | Some all_keys =>
              let encrypted_str := join HASHES all_keys in
              let encrypted_message := join HASHES encrypted_chunks in
              match sha256_hex (timestamp ++ salt ++ encrypted_str
                                ++ encrypted_message) with
              | None => None
              | Some ver_hash =>
                  let filename :=
                    lit "qkd_message_" ++ timestamp ++ lit ".qk" in
                  let export_str :=
                    join ATS [timestamp; salt; encrypted_str;
                              encrypted_message; ver_hash;
                              py_str (Z.of_nat total_chunks)] in
                  Some (filename, export_str, transport_key)
              end
          end
      end
  end.

(** The loop of lines 301-322 over the chunks still to encrypt; [None]
    is an early [return None, None]. *)
Fixpoint encrypt_chunks (self : SecureBB84) (message_chunks : list str)
  : M (option (list str * list (list Z))) :=
  match message_chunks with
  | [] => ret (Some ([], []))
  | chunk :: rest =>
      match text_to_binary chunk with
      | None | Some [] => ret None
      | Some binary_chunk =>
          k <- try_except
                 (k <- get_key_from_pool self (length binary_chunk) ;;
                  ret (Some k))
                 (fun _ => print PrintFailedQuantumKey ;;; ret None) ;;
          match k with
          | None => ret None
          | Some chunk_key =>
              encrypted_bits <- lift (mask binary_chunk chunk_key) ValueError ;;
              r <- encrypt_chunks self rest ;;
              match r with
              | None => ret None
              | Some (encrypted_chunks, keys_used) =>
                  ret (Some (concat encrypted_bits :: encrypted_chunks,
                             chunk_key :: keys_used))
              end
          end
      end
  end.

(** [line.upper() == 'CANCEL'].  No code point above ASCII has an upper
    case written with the letters of that word, so only the ASCII letters
    are raised. *)
Definition upper_ascii (c : codepoint) : codepoint :=
  if (97 <=? c) && (c <=? 122) then c - 32 else c.

Definition upper_is_CANCEL (line : str) : bool :=
  str_eqb (map upper_ascii line) (lit "CANCEL").

(** The [while enter_count < 4] loop of [get_multiline_input]; every pass
    reads a line.  Nobody interrupts from the keyboard. *)
Fixpoint get_multiline_input_loop (fuel enter_count : nat)
  (message_lines : list str) : M (option str) :=
  if (enter_count <? 4)%nat then
    match fuel with
    | O => raise OutOfFuel
    | S fuel' =>
        line <- input ;;
        if upper_is_CANCEL line then ret None
        else
          match strip line with
          | [] => get_multiline_input_loop fuel' (S enter_count)
                    (message_lines ++ [line])
          | _ => get_multiline_input_loop fuel' 0 (message_lines ++ [line])
          end
    end
  else ret (Some (join LF message_lines)).

(** [get_multiline_input()]. *)
Definition get_multiline_input : M (option str) :=
  fun s => get_multiline_input_loop (S (length (stdin s))) 0 [] s.

(** [encrypt_and_share(message)]: the file name and the recovery code. *)
Definition encrypt_and_share (self : SecureBB84) (message : str)
  : M (option str * option str) :=
  try_except
    (message <- match message with
                | [] => get_multiline_input
                | _ => ret (Some message)
                end ;;
     match message with
     | None | Some [] => print PrintMessageEmpty ;;; ret (None, None)
     | Some message =>
         if forallb isspace message
         then print PrintMessageEmpty ;;; ret (None, None)
         else
           answer <- input ;;
           if negb (lower_is_y answer) then ret (None, None)
           else
             match chunk_size self with
             | O => raise ValueError        (* range() with step 0 *)
             | _ =>
                 let message_chunks :=
                   chunks_of (length message) (chunk_size self) message in
                 let total_chunks := length message_chunks in
                 r <- encrypt_chunks self message_chunks ;;
                 match r with
                 | None => ret (None, None)
                 | Some (encrypted_chunks, keys_used) =>
                     timestamp <- (fun s => (Ret (strftime (now s)), s)) ;;
                     seed <- (fun s => let (v, g) := getrandbits 256 (rng s) in
                                       (Ret v, set_rng g s)) ;;
                     sealed <- lift (seal timestamp seed encrypted_chunks
                                       keys_used total_chunks) ValueError ;;
                     let '(filename, export_str, transport_key) := sealed in
                     write_file filename export_str ;;;
                     recovery_code <- lift (recovery_code_of transport_key)
                                        UnicodeEncodeError ;;
                     ret (Some filename, Some recovery_code)
                 end
             end
     end)
    (fun _ => print (LogError "Encryption error") ;;; ret (None, None)).

(** [bytes.fromhex(s)]; [None] is [ValueError]. *)
Fixpoint fromhex_from (high : option Z) (s : str) : option bytes :=
  match s with
  | [] => match high with None => Some [] | Some _ => None end
  | c :: rest =>
      match high with
      | None =>
          if is_c_space c then fromhex_from None rest
          else match digit_value c with
               | Some d => if d <? 16 then fromhex_from (Some d) rest else None
               | None => None
               end
      | Some h =>
          match digit_value c with
          | Some d =>
              if d <? 16
              then match fromhex_from None rest with
                   | Some r => Some (h * 16 + d :: r)
                   | None => None
                   end
              else None
          | None => None
          end
      end
  end.

Definition fromhex (s : str) : option bytes := fromhex_from None s.

(** [[int(k) for k in parts if k.strip()]]. *)
Fixpoint parse_key (parts : list str) : option (list Z) :=
  match parts with
  | [] => Some []
  | k :: rest =>
      match strip k with
      | [] => parse_key rest
      | _ => match py_int 10 k, parse_key rest with
             | Some v, Some r => Some (v :: r)
             | _, _ => None
             end
      end
  end.

(** Lines 428-434: the key of one chunk as recovered from the container. *)
Definition recover_chunk_key (transport_key encrypted_key : str)
  : option (list Z) :=
  match fromhex encrypted_key with
  | None => None
  | Some encrypted_key_bytes =>
      match xor_transport transport_key 0 encrypted_key_bytes with
      | None => None
      | Some decrypted_key =>
          match utf8_decode Ignore decrypted_key with
          | None => None
          | Some key_str => parse_key (split COMMA key_str)
          end
      end
  end.

(** Lines 437-447: unmasking and decoding one chunk with its key; [None]
    is an exception, the one of line 447 included. *)
Definition unmask_chunk (encrypted_chunk : str) (chunk_key : list Z)
  : option str :=
  match mask encrypted_chunk chunk_key with
  | None => None
  | Some decrypted_bits =>
      match binary_to_text (concat decrypted_bits) with
      | Some (c :: t) => Some (c :: t)
      | _ => None                        (* if decrypted_chunk: ... else raise *)
      end
  end.

(** The body of the loop of lines 425-453 for one index. *)
Definition decrypt_chunk (transport_key encrypted_key encrypted_chunk : str)
  : option str :=
  match recover_chunk_key transport_key encrypted_key with
  | None => None
  | Some chunk_key => unmask_chunk encrypted_chunk chunk_key
  end.

(** The loop itself, over the two lists of [chunk_count] elements; [None]
    when a chunk failed. *)
Fixpoint decrypt_chunks (transport_key : str)
  (encrypted_keys encrypted_chunks : list str) : option (list str) :=
  match encrypted_keys, encrypted_chunks with
  | k :: ks, c :: cs =>
      match decrypt_chunk transport_key k c with
      | None => None
      | Some text =>
          match decrypt_chunks transport_key ks cs with
          | None => None
          | Some rest => Some (text :: rest)
          end
      end
  | _, _ => Some []
  end.

Definition ends_with (suffix s : str) : bool :=
  starts_with (rev suffix) (rev s).

(** The menu of lines 476-514; a pass reads at least one line. *)
Fixpoint options_loop (fuel : nat) (timestamp : str)
  (decrypted_text : str) : M unit :=
  match fuel with
  | O => raise OutOfFuel
  | S fuel' =>
      choice <- input ;;
      let choice := strip choice in
      if str_eqb choice (lit "1") then
        print (PrintComplete decrypted_text) ;;;
        options_loop fuel' timestamp decrypted_text
      else if str_eqb choice (lit "2") then
        try_except
          (let default_filename :=
             lit "decrypted_" ++ timestamp ++ lit ".txt" in
           name <- input ;;
           let save_filename :=
             match strip name with
             | [] => default_filename
             | n => if ends_with (lit ".txt") n then n else n ++ lit ".txt"
             end in
           write_file save_filename
             (flat_map (fun line => line ++ LF) (split LF decrypted_text)) ;;;
           print (PrintSaved save_filename))
          (fun _ => print PrintSaveFailed) ;;;
        options_loop fuel' timestamp decrypted_text
      else if str_eqb choice (lit "3") then ret tt
      else
        print PrintInvalidChoice ;;;
        options_loop fuel' timestamp decrypted_text
  end.

(** Lines 381-388: the six fields of the text read from the file. *)
Definition parse_container (content : str)
  : option (str * str * str * str * str * str) :=
  match split ATS (strip content) with
  | [timestamp; salt; encrypted_keys_str; encrypted_message; ver_hash;
     chunk_count] =>
      Some (timestamp, salt, encrypted_keys_str, encrypted_message, ver_hash,
            chunk_count)
  | _ => None
  end.

(** [decrypt_shared_message(filename, recovery_code)]. *)
Definition decrypt_shared_message (filename recovery_code : str)
  : M (option str) :=
  try_except
    (content <- read_file filename ;;
     match parse_container content with
     | None => print PrintInvalidFormat ;;; ret None
     | Some (timestamp, salt, encrypted_keys_str, encrypted_message, ver_hash,
             chunk_count) =>
         chunk_count <- lift (py_int 10 chunk_count) ValueError ;;
         check_hash <- lift (sha256_hex (timestamp ++ salt
                                         ++ encrypted_keys_str
                                         ++ encrypted_message))
                         UnicodeEncodeError ;;
         proceed <- (if str_eqb check_hash ver_hash then ret true
                     else print PrintFileModified ;;;
                          answer <- input ;; ret (lower_is_y answer)) ;;
         if negb proceed then ret None
         else
           transport_key <- lift (derive_transport_key salt timestamp)
                              UnicodeEncodeError ;;
           check_code <- lift (recovery_code_of transport_key)
                           UnicodeEncodeError ;;
           if negb (str_eqb check_code recovery_code)
           then print PrintRecoveryInvalid ;;; ret None
           else
             let encrypted_keys := split HASHES encrypted_keys_str in
             let encrypted_chunks := split HASHES encrypted_message in
             if negb (Z.of_nat (length encrypted_keys) =? chunk_count)
                || negb (Z.of_nat (length encrypted_chunks) =? chunk_count)
             then print PrintChunksInvalid ;;; ret None
             else
               print (PrintProcessingChunks chunk_count) ;;;
               match decrypt_chunks transport_key encrypted_keys
                       encrypted_chunks with
               | None =>
                   print (LogError "Chunk decryption error") ;;; ret None
               | Some decrypted_chunks =>
                   let decrypted_text := concat decrypted_chunks in
                   print (PrintDecrypted decrypted_text) ;;;
                   (fun s => options_loop (S (length (stdin s))) timestamp
                               decrypted_text s) ;;;
                   ret (Some decrypted_text)
               end
     end)
    (fun e =>
       match e with
       | FileNotFoundError => print (PrintFileNotFound filename) ;;; ret None
       | _ => print (LogError "Decryption error") ;;; ret None
       end).

(** ** Vocabulary of the properties *)

(** [s'] differs from [s] in the random generator at most. *)
Definition same_world (s s' : State) : Prop :=
  key_pool s' = key_pool s /\ files s' = files s /\ stdin s' = stdin s
  /\ stdout s' = stdout s /\ now s' = now s.

(** [s'] differs from [s] in the key pool at most. *)
Definition same_but_pool (s s' : State) : Prop :=
  rng s' = rng s /\ files s' = files s /\ stdin s' = stdin s
  /\ stdout s' = stdout s /\ now s' = now s.

Definition byte (b : Z) : Prop := 0 <= b < 256.

Definition bit (b : Z) : Prop := b = 0 \/ b = 1.

(** Every segment of the pool is made of bits. *)
Definition pool_of_bits (s : State) : Prop := Forall (Forall bit) (key_pool s).

(** The message [encrypt_and_share] works on: its argument, or what
    [get_multiline_input] returns when the argument is empty. *)
Definition message_read (message : str) (s : State) : option str :=
  match message with
  | [] => match fst (get_multiline_input s) with
          | Ret m => m
          | Raise _ => None
          end
  | _ => Some message
  end.

(** The state in which it then asks whether to go on. *)
Definition state_read (message : str) (s : State) : State :=
  match message with
  | [] => snd (get_multiline_input s)
  | _ => s
  end.

(** A non-empty run of code points none of which is white space. *)
Definition word (w : str) : Prop :=
  w <> [] /\ forallb (fun c => negb (isspace c)) w = true.

(** An ASCII digit of a base up to ten, and the value of a string of them
    read after [acc]. *)
Definition digit_below (base : Z) (c : Z) : Prop := 48 <= c < 48 + base.

Definition digits_value (base : Z) (s : str) (acc : Z) : Z :=
  fold_left (fun a c => a * base + (c - 48)) s acc.

(** What the loop of lines 301-322 leaves for chunks it encrypted with keys
    of bits: each chunk with its masked bit string and the key drawn. *)
Inductive sealed_chunks : list str -> list str -> list (list Z) -> Prop :=
| sealed_nil : sealed_chunks [] [] []
| sealed_cons chunk chunks encrypted encrypted_chunks key keys binary bits :
    text_to_binary chunk = Some binary ->
    binary <> [] ->
    (length binary <= length key)%nat ->
    Forall bit key ->
    mask binary key = Some bits ->
    encrypted = concat bits ->
    sealed_chunks chunks encrypted_chunks keys ->
    sealed_chunks (chunk :: chunks) (encrypted :: encrypted_chunks)
      (key :: keys).

(** A digit of [bytes.hex()]. *)
Definition hex_char (c : Z) : Prop := 48 <= c <= 57 \/ 97 <= c <= 102.

(** A character of [str(n)]: a digit or the minus sign. *)
Definition numeral_char (c : Z) : Prop := digit_below 10 c \/ c = 45.

(** The ASCII code points a base-2 literal of [int] can hold: the two
    digits, the underscore, a sign, the [b] of the prefix and white space. *)
Definition base2_literal_char (c : Z) : bool :=
  (c =? 48) || (c =? 49) || (c =? 95) || (c =? 43) || (c =? 45)
  || (c =? 98) || (c =? 66) || is_c_space c.

End Model.

(** ** The rest of the program: the key check and the menu *)

Section Simulator.
Context {P : Platform}.

Notation "x <- m ;; k" := (bind m (fun x => k))
  (at level 61, m at next level, right associativity).
Notation "m ;;; k" := (bind m (fun _ => k))
  (at level 61, right associativity).

(** [verify_key_security(key)]; the quotient [sum(key) / len(key)] and the
    two bounds are exact rationals, as for the error rate. *)
Definition verify_key_security (self : SecureBB84) (key : list Z) : M bool :=
  if (length key <? min_key_length self)%nat then ret false
  else
    match key with
    | [] => raise ZeroDivisionError
    | _ =>
        let ones := (inject_Z (fold_left Z.add key 0%Z)
                     / inject_Z (Z.of_nat (length key)))%Q in
        ret (Qle_bool (3 # 10) ones && Qle_bool ones (7 # 10))
    end.

(** The attributes of [EnhancedQKDSimulator] that [run] sets; the key pool
    is part of the state, and [chunk_size] is the one of [bb84]. *)
Record EnhancedQKDSimulator := {
  bb84 : SecureBB84;
  current_key : option (list Z);
  key_hash : option str;
  use_count : Z
}.

Definition EnhancedQKDSimulator_init : EnhancedQKDSimulator :=
  {| bb84 := SecureBB84_init; current_key := None; key_hash := None;
     use_count := 0 |}.

(** How a pass of the menu ends: [break], or the next pass. *)
Inductive control := Break | Continue.

(** Lines 540-551: menu entry 1. *)
Definition menu_generate (self : EnhancedQKDSimulator)
  : M (control * EnhancedQKDSimulator) :=
  r <- generate_key (bb84 self) ;;
  match fst r with
  | None | Some [] => ret (Continue, self)
  | Some key =>
      let self1 := {| bb84 := bb84 self; current_key := Some key;
                      key_hash := key_hash self;
                      use_count := use_count self |} in
      match sha256_hex (concat (map py_str key)) with
      | None =>
          (* the exception of line 545 finds [current_key] already set *)
          print (LogError "Runtime error") ;;; ret (Continue, self1)
      | Some h =>
          ret (Continue,
               {| bb84 := bb84 self; current_key := Some key;
                  key_hash := Some h; use_count := 0 |})
      end
  end.

(** Lines 553-584: menu entry 2. *)
Definition menu_encrypt (self : EnhancedQKDSimulator)
  : M (control * EnhancedQKDSimulator) :=
  input_mode <- input ;;
  let input_mode := strip input_mode in
  if str_eqb input_mode (lit "1") then
    encrypt_and_share (bb84 self) [] ;;; ret (Continue, self)
  else if str_eqb input_mode (lit "2") then
    file_path <- input ;;
    try_except
      (message <- read_file (strip file_path) ;;
       encrypt_and_share (bb84 self) message ;;; ret tt)
      (fun _ => ret tt) ;;;                       (* Failed to read file *)
    ret (Continue, self)
  else ret (Continue, self).

(** Lines 586-602: menu entry 3. *)
Definition menu_decrypt (self : EnhancedQKDSimulator)
  : M (control * EnhancedQKDSimulator) :=
  filename <- input ;;
  let filename := strip filename in
  let filename := if ends_with (lit ".qk") filename then filename
                  else filename ++ lit ".qk" in
  recovery_code <- input ;;
  let recovery_code := strip recovery_code in
  match filename, recovery_code with
  | [], _ | _, [] => ret (Continue, self)
  | _, _ =>
      decrypt_shared_message filename recovery_code ;;; ret (Continue, self)
  end.

(** One pass of the [while True] of [run], with its handler. *)
Definition menu_pass (self : EnhancedQKDSimulator)
  : M (control * EnhancedQKDSimulator) :=
  try_except
    (choice <- input ;;
     let choice := strip choice in
     if str_eqb choice (lit "1") then menu_generate self
     else if str_eqb choice (lit "2") then menu_encrypt self
     else if str_eqb choice (lit "3") then menu_decrypt self
     else if str_eqb choice (lit "4") then ret (Break, self)
     else ret (Continue, self))
    (fun _ => print (LogError "Runtime error") ;;; ret (Continue, self)).

(** [run()], for a given number of passes at most: the loop has no bound
    of its own. *)
Fixpoint run (passes : nat) (self : EnhancedQKDSimulator)
  : M EnhancedQKDSimulator :=
  match passes with
  | O => raise OutOfFuel
  | S passes' =>
      r <- menu_pass self ;;
      match fst r with
      | Break => ret (snd r)
      | Continue => run passes' (snd r)
      end
  end.

(** What lines 383-410 compute from the text of a container alone: the
    code that [decrypt_shared_message] compares with the one supplied. *)
Definition check_code_of_container (content : str) : option str :=
  match parse_container content with
  | None => None
  | Some (timestamp, salt, _, _, _, _) =>
      match derive_transport_key salt timestamp with
      | None => None
      | Some transport_key => recovery_code_of transport_key
      end
  end.

(** The accounts of the sifting loop: every matched index went to the
    verification bits, as long as they were not complete, or to the key. *)
Definition sifting_accounts (self : SecureBB84) (st : sifting) : Prop :=
  total_matched st
  = Z.of_nat (length (verification st) + length (sifted_key st))
  /\ (length (verification st) <= verification_bits self)%nat
  /\ (sifted_key st <> [] ->
      length (verification st) = verification_bits self).

(** The sender's bits at the indices where the two bases agree, in order:
    what lines 99-109 append, to one list or the other. *)
Fixpoint matched_bits (alice_bits : list Z) (alice_bases bob_bases : list str)
  : list Z :=
  match alice_bits, alice_bases, bob_bases with
  | a :: bits, sb :: sbs, rb :: rbs =>
      if str_eqb sb rb then a :: matched_bits bits sbs rbs
      else matched_bits bits sbs rbs
  | _, _, _ => []
  end.

(** What the loop of lines 301-322 returns for the chunks it went through:
    each chunk with the key drawn for it, as long as the chunk's frame, and
    the frame masked with that key. *)
Inductive masked_chunks : list str -> list str -> list (list Z) -> Prop :=
| masked_nil : masked_chunks [] [] []
| masked_cons chunk chunks encrypted encrypted_chunks key keys binary bits :
    text_to_binary chunk = Some binary ->
    length key = length binary ->
    mask binary key = Some bits ->
    encrypted = concat bits ->
    masked_chunks chunks encrypted_chunks keys ->
    masked_chunks (chunk :: chunks) (encrypted :: encrypted_chunks)
      (key :: keys).

(** [hashlib.pbkdf2_hmac] returns bytes. *)
Definition pbkdf2_gives_bytes : Prop :=
  forall password salt iterations,
    Forall byte (pbkdf2_hmac_sha256 password salt iterations).

(** A typed line that is neither blank nor the word that cancels. *)
Definition ordinary (line : str) : Prop :=
  upper_is_CANCEL line = false /\ strip line <> [].

(** Number of runtime errors a log shows. *)
Definition runtime_errors (out : list event) : nat :=
  length (filter (fun e => match e with
                           | LogError where_ =>
                               String.eqb where_ "Runtime error"
                           | _ => false
                           end) out).

End Simulator.

(** ** A sample platform

    A small deterministic platform, and a few states, on which the model
    can be run. *)

Module Sample.

Definition sample_getrandbits (k : nat) (g : nat) : Z * nat :=
  (Z.of_nat (Nat.b2n (Nat.odd g)), S g).

Definition sample_randbelow (n : nat) (g : nat) : nat * nat :=
  (Nat.b2n (Nat.odd (Nat.div2 g)), S g).

Definition sample_digest (tweak : Z) (m : bytes) : bytes :=
  map (fun i => (Z.of_nat i * 37 + tweak + fold_right Z.add 0 m) mod 256)
    (seq 0 32).

Definition sample_platform : Platform := {|
  RandomState := nat;
  getrandbits := sample_getrandbits;
  randbelow := sample_randbelow;
  sha256 := sample_digest 0;
  pbkdf2_hmac_sha256 :=
    fun password salt iterations =>
      sample_digest (iterations + 3 * fold_right Z.add 0 salt) password;
  unicode_decimal :=
    fun c => if (1632 <=? c) && (c <=? 1641) then Some (c - 1632) else None
|}.

Definition sample_clock : datetime :=
  {| year := 2024; month := 3; day := 9; hour := 14; minute := 5;
     second := 59 |}.

(** A pool of two segments, 96 and 120 bits. *)
Definition sample_pool : list (list Z) :=
  [concat (repeat [1; 0; 1; 1; 0; 0; 1; 0] 12);
   concat (repeat [0; 1; 1; 0; 1] 24)].

(** The sender's side: the pool is filled and the user is about to confirm
    the encryption. *)
Definition sample_state : @State sample_platform :=
  {| rng := (0%nat : @RandomState sample_platform); key_pool := sample_pool; files := fun _ => None;
     stdin := [lit "y"]; stdout := []; now := sample_clock |}.

(** The sender types the message instead: two lines, the four empty lines
    that end it, and the confirmation. *)
Definition typing_state : @State sample_platform :=
  {| rng := (0%nat : @RandomState sample_platform); key_pool := sample_pool;
     files := fun _ => None;
     stdin := [lit "hi"; lit "there"; []; []; []; []; lit "y"];
     stdout := []; now := sample_clock |}.

Definition typed_message : str :=
  lit "hi" ++ LF ++ lit "there" ++ LF ++ LF ++ LF ++ LF.

(** The simulator with chunks of five characters. *)
Definition small_chunks : SecureBB84 :=
  {| error_threshold := 15 # 100; num_qubits := 16; min_key_length := 2;
     verification_bits := 1; noise_threshold := 95 # 100; chunk_size := 5 |}.

(** A simulator that can never collect 500 sifted bits. *)
Definition too_few_qubits : SecureBB84 :=
  {| error_threshold := 15 # 100; num_qubits := 4; min_key_length := 500;
     verification_bits := 40; noise_threshold := 95 # 100;
     chunk_size := 1000 |}.

Definition hello_world : str := lit "hello" ++ LF ++ lit "world".

Definition hello_file : str := lit "qkd_message_20240309140559.qk".
Definition hello_code : str := lit "c2e70c31567b".

(** What an attempt returned, the initial accumulators if it raised. *)
Definition sifting_of (r : res sifting * @State sample_platform) : sifting :=
  match fst r with
  | Ret st => st
  | Raise _ => sift_init
  end.

(** A container whose stored key was cut to 40 entries while its chunk
    has the 48 characters of ["ab"]: the text of the file, and the
    recovery code that goes with it. *)
Definition cut_timestamp : str := lit "20240309140559".
Definition cut_salt : str := lit "0123456789abcdef".
Definition cut_key : list Z := firstn 40 (concat sample_pool).
Definition cut_transport_key : str :=
  match @derive_transport_key sample_platform cut_salt cut_timestamp with
  | Some k => k
  | None => []
  end.
Definition cut_encrypted_key : str :=
  match @encrypt_key sample_platform cut_transport_key cut_key with
  | Some k => k
  | None => []
  end.
Definition cut_chunk : str :=
  match text_to_binary (lit "ab") with
  | Some binary =>
      match @mask sample_platform binary (firstn 48 (concat sample_pool)) with
      | Some bits => concat bits
      | None => []
      end
  | None => []
  end.
Definition cut_container : str :=
  join ATS
    [cut_timestamp; cut_salt; cut_encrypted_key; cut_chunk;
     match @sha256_hex sample_platform
             (cut_timestamp ++ cut_salt ++ cut_encrypted_key ++ cut_chunk)
     with Some h => h | None => [] end;
     lit "1"].
Definition cut_recovery_code : str :=
  match @recovery_code_of sample_platform cut_transport_key with
  | Some c => c
  | None => []
  end.

(** The receiver's side: the file is there and the user will pick 3. *)
Definition receiver_state : @State sample_platform :=
  {| rng := (0%nat : @RandomState sample_platform); key_pool := [];
     files := fun n => if str_eqb n (lit "cut.qk") then Some cut_container
                       else None;
     stdin := [lit "3"]; stdout := []; now := sample_clock |}.

(** A simulator without qubits. *)
Definition no_qubits : SecureBB84 :=
  {| error_threshold := 15 # 100; num_qubits := 0; min_key_length := 0;
     verification_bits := 0; noise_threshold := 95 # 100;
     chunk_size := 1000 |}.

(** The sender's side with other lines typed: a refusal, a message given
    up, nothing at all, and the choices of the menu after opening. *)
Definition typing (lines : list str) : @State sample_platform :=
  {| rng := (0%nat : @RandomState sample_platform); key_pool := sample_pool;
     files := fun _ => None; stdin := lines; stdout := [];
     now := sample_clock |}.

Definition declining_state : @State sample_platform := typing [lit "n"].
Definition cancelling_state : @State sample_platform :=
  typing [lit "hi"; lit "Cancel"; lit "y"].
Definition end_of_input : @State sample_platform := typing [].



(** A message whose second chunk of five characters is white space. *)
Definition spaced_message : str := lit "hello     world".

End Sample.

(** * Properties *)

Ltac divmod := Z.div_mod_to_equations; lia.

(** ** The BB84 run, the pool, and the text helpers *)

Section Basics.
Context {P : Platform}.

Lemma some_inj {A} (x y : A) : Some x = Some y -> x = y.
Proof. congruence. Qed.




Lemma str_eqb_eq (a b : str) : str_eqb a b = true <-> a = b.
Proof. unfold str_eqb. destruct (list_eq_dec Z.eq_dec a b); split; congruence. Qed.

Lemma str_eqb_refl (a : str) : str_eqb a a = true.
Proof. now apply str_eqb_eq. Qed.

Lemma str_eqb_neq (a b : str) : str_eqb a b = false <-> a <> b.
Proof. unfold str_eqb. destruct (list_eq_dec Z.eq_dec a b); split; congruence. Qed.

(** *** The random draws leave everything but the generator alone *)

Lemma same_world_refl s : same_world s s.
Proof. repeat split. Qed.

Lemma same_world_trans s1 s2 s3 :
  same_world s1 s2 -> same_world s2 s3 -> same_world s1 s3.
Proof. unfold same_world. intuition congruence. Qed.

Lemma secure_random_run s :
  exists b g, secure_random s = (Ret b, set_rng g s)
              /\ (b, g) = getrandbits 1 (rng s).
Proof.
  unfold secure_random. destruct (getrandbits 1 (rng s)) as [b g]. eauto.
Qed.

Lemma secure_random_world s : 
  exists b s', secure_random s = (Ret b, s') /\ same_world s s'.
Proof.
  destruct (secure_random_run s) as (b & g & E & _). exists b, (set_rng g s).
  split; [exact E | repeat split].
Qed.

Lemma choice_basis_world s :
  exists b s', choice_basis s = (Ret b, s') /\ same_world s s'.
Proof.
  unfold choice_basis. destruct (randbelow _ _) as [i g].
  eexists _, _. split; [reflexivity | repeat split].
Qed.

Lemma draw_world {A} (m : M A) :
  (forall s, exists a s', m s = (Ret a, s') /\ same_world s s') ->
  forall n s, exists l s', draw n m s = (Ret l, s') /\ same_world s s'
                           /\ length l = n.
Proof.
  intros Hm. induction n as [|n IH]; intros s; simpl.
  - exists [], s. repeat split.
  - unfold bind. destruct (Hm s) as (a & s1 & E1 & W1). rewrite E1.
    destruct (IH s1) as (l & s2 & E2 & W2 & L). rewrite E2.
    exists (a :: l), s2. simpl. split; [reflexivity|].
    split; [eapply same_world_trans; eauto | congruence].
Qed.

Lemma simulate_transmission_world bit sb rb s :
  exists r s', simulate_transmission bit sb rb s = (Ret r, s')
               /\ same_world s s'
               /\ (sb = rb -> fst r = bit).
Proof.
  unfold simulate_transmission. destruct (str_eqb sb rb) eqn:E.
  - exists (bit, 1%Q), s. repeat split.
  - unfold bind. destruct (secure_random_world s) as (b & s' & E1 & W).
    rewrite E1. exists (b, (1 # 2)%Q), s'. repeat split; try apply W.
    intros ->. rewrite str_eqb_refl in E. discriminate.
Qed.

(** Sifting what [transmit] received never counts an error. *)
Lemma transmit_sift self alice_bits : forall alice_bases bob_bases s st,
  exists received s',
    transmit alice_bits alice_bases bob_bases s = (Ret received, s')
    /\ same_world s s'
    /\ errors (sift self st alice_bits alice_bases bob_bases (fst received))
       = errors st.
Proof.
  induction alice_bits as [|a bits IH]; intros sbs rbs s st.
  - exists ([], []), s. simpl. repeat split.
  - destruct sbs as [|sb sbs]; [exists ([], []), s; simpl; repeat split|].
    destruct rbs as [|rb rbs]; [exists ([], []), s; simpl; repeat split|].
    simpl. unfold bind.
    destruct (simulate_transmission_world a sb rb s) as (r & s1 & E1 & W1 & Hr).
    rewrite E1.
    destruct (IH sbs rbs s1 (sift_step self st a sb rb (fst r)))
      as (rest & s2 & E2 & W2 & He).
    rewrite E2. exists (fst r :: fst rest, snd r :: snd rest), s2.
    split; [reflexivity|]. split; [eapply same_world_trans; eauto|].
    simpl. rewrite He. unfold sift_step.
    destruct (str_eqb sb rb) eqn:Eb; [|reflexivity].
    apply str_eqb_eq in Eb. rewrite (Hr Eb), Z.eqb_refl. simpl.
    destruct (_ <? _)%nat; reflexivity.
Qed.

(** An attempt draws, transmits and sifts, and returns; unless there is no
    qubit at all, when the progress bar of line 91 divides by zero. *)
Lemma attempt_run self s :
  exists st s1,
    same_world s s1
    /\ errors st = 0
    /\ attempt self s
       = match num_qubits self with
         | O => (Raise ZeroDivisionError, s1)
         | S _ => (Ret st, set_stdout (stdout s1 ++ [PrintSifting]) s1)
         end.
Proof.
  unfold attempt, bind.
  destruct (draw_world secure_random secure_random_world (num_qubits self) s)
    as (ab & s1 & E1 & W1 & _). rewrite E1.
  destruct (draw_world choice_basis choice_basis_world (num_qubits self) s1)
    as (sb & s2 & E2 & W2 & _). rewrite E2.
  destruct (draw_world choice_basis choice_basis_world (num_qubits self) s2)
    as (rb & s3 & E3 & W3 & _). rewrite E3.
  destruct (transmit_sift self ab sb rb s3 sift_init)
    as (rc & s4 & E4 & W4 & He). rewrite E4.
  pose proof (same_world_trans _ _ _ (same_world_trans _ _ _
               (same_world_trans _ _ _ W1 W2) W3) W4) as W.
  eexists _, s4. split; [exact W|]. split; [exact He|].
  destruct (num_qubits self); reflexivity.
Qed.

Lemma attempt_ret self s st s' :
  attempt self s = (Ret st, s') ->
  errors st = 0
  /\ stdout s' = stdout s ++ [PrintSifting]
  /\ key_pool s' = key_pool s /\ files s' = files s /\ stdin s' = stdin s
  /\ now s' = now s /\ num_qubits self <> 0%nat.
Proof.
  destruct (attempt_run self s) as (st0 & s1 & W & He & E). rewrite E.
  destruct W as (W1 & W2 & W3 & W4 & W5).
  destruct (num_qubits self); intros H; [discriminate H|].
  apply pair_equal_spec in H as [H <-]. injection H as <-.
  cbn [stdout key_pool files stdin now set_stdout]. rewrite W4.
  repeat split; try assumption. discriminate.
Qed.

Lemma error_rate_zero st : errors st = 0 -> (error_rate st == 0)%Q.
Proof.
  intros E. unfold error_rate. rewrite E.
  unfold Qdiv. unfold Qeq. simpl. reflexivity.
Qed.

(** C8.  With equal bases the bit comes back with confidence 1.0 and the
    generator untouched; with different bases the result is the next bit of
    the random generator, with confidence 0.5. *)
Theorem simulate_transmission_cases (bit : Z) (send_basis receive_basis : str)
  (s : State) :
  (send_basis = receive_basis ->
   simulate_transmission bit send_basis receive_basis s = (Ret (bit, 1%Q), s))
  /\ (send_basis <> receive_basis ->
      simulate_transmission bit send_basis receive_basis s
      = (Ret (fst (getrandbits 1 (rng s)), (1 # 2)%Q),
         set_rng (snd (getrandbits 1 (rng s))) s)).
Proof.
  unfold simulate_transmission. split.
  - intros ->. now rewrite str_eqb_refl.
  - intros N. apply str_eqb_neq in N. rewrite N.
    unfold bind, secure_random. now destruct (getrandbits 1 (rng s)).
Qed.

Lemma generate_key_loop_rate self remaining : forall retry_count s key rate s',
  generate_key_loop self remaining retry_count s = (Ret (Some key, rate), s') ->
  (rate == 0)%Q.
Proof.
  induction remaining as [|rem IH]; intros rc s key rate s'; simpl.
  - unfold ret. intros H; inversion H.
  - unfold bind at 1.
    destruct (attempt self s) as [[st|e] s1] eqn:E;
      [|intros H; discriminate H].
    apply attempt_ret in E as (He & _).
    destruct (total_matched st =? 0); [apply IH|].
    destruct (accepted self st).
    + unfold ret. intros H; inversion H; subst. now apply error_rate_zero.
    + unfold bind, print. apply IH.
Qed.

(** C2.  In a run of the sifting loop with at least one matched basis the
    error count is 0, so the error rate is 0 and the comparison with a
    non-negative threshold holds: an attempt on a matched sample fails
    validation only for a sifted key that is too short, and a key that
    [generate_key] returns comes with the rate 0. *)
Theorem matched_sample_has_no_errors (self : SecureBB84) (s s' : State)
  (st : sifting) :
  attempt self s = (Ret st, s') ->
  0 < total_matched st ->
  (0 <= error_threshold self)%Q ->
  errors st = 0
  /\ (error_rate st == 0)%Q
  /\ Qle_bool (error_rate st) (error_threshold self) = true
  /\ (validation_fails self st = true ->
      (length (sifted_key st) < min_key_length self)%nat)
  /\ (forall key rate s2,
        generate_key self s = (Ret (Some key, rate), s2) -> (rate == 0)%Q).
Proof.
  intros E Hm Ht.
  pose proof (attempt_ret _ _ _ _ E) as (He & _).
  assert (Hr : (error_rate st == 0)%Q) by now apply error_rate_zero.
  assert (Hle : Qle_bool (error_rate st) (error_threshold self) = true).
  { apply Qle_bool_iff. now rewrite Hr. }
  split; [exact He|]. split; [exact Hr|]. split; [exact Hle|]. split.
  - unfold validation_fails, accepted. rewrite Hle, andb_true_r.
    destruct (Z.eqb_spec (total_matched st) 0); [lia|]. simpl.
    intros H. apply negb_true_iff, Nat.leb_gt in H. exact H.
  - intros key rate s2. unfold generate_key, try_except.
    destruct (generate_key_loop self max_retries 0 s) as [[r|e] s1] eqn:El.
    + intros H. injection H as -> _.
      eapply generate_key_loop_rate; eauto.
    + destruct e; unfold bind, print, ret; intros H; discriminate.
Qed.

(** Without qubits the first attempt stops at line 91 and the handler of
    [generate_key] answers, no sifting having started. *)
Lemma generate_key_without_qubits self s :
  num_qubits self = 0%nat ->
  exists s',
    generate_key self s = (Ret (None, 1%Q), s')
    /\ stdout s' = stdout s ++ [LogError "Key generation error"].
Proof.
  intros H0. unfold generate_key, try_except, max_retries.
  cbn [generate_key_loop]. unfold bind at 1.
  destruct (attempt_run self s) as (st & s1 & W & _ & E).
  rewrite E, H0. unfold bind, print, ret.
  eexists. split; [reflexivity|]. cbn [stdout set_stdout].
  destruct W as (_ & _ & _ & W & _). now rewrite W.
Qed.

Lemma attempts_started_app o1 o2 :
  attempts_started (o1 ++ o2) = (attempts_started o1 + attempts_started o2)%nat.
Proof. unfold attempts_started. now rewrite filter_app, length_app. Qed.

Lemma after_failed_attempt_started k st s :
  attempts_started (stdout (after_failed_attempt k st s))
  = attempts_started (stdout s).
Proof.
  unfold after_failed_attempt. destruct (total_matched st =? 0); [reflexivity|].
  unfold set_stdout; cbn [stdout]. rewrite attempts_started_app.
  unfold attempts_started at 2. simpl. lia.
Qed.

Lemma generate_key_loop_step self remaining retry_count s st s1 :
  attempt self s = (Ret st, s1) -> validation_fails self st = true ->
  generate_key_loop self (S remaining) retry_count s
  = generate_key_loop self remaining (S retry_count)
      (after_failed_attempt (S retry_count) st s1).
Proof.
  intros E F. simpl. unfold bind at 1. rewrite E.
  unfold validation_fails in F. unfold after_failed_attempt.
  destruct (total_matched st =? 0); [reflexivity|].
  simpl in F. apply negb_true_iff in F. rewrite F. reflexivity.
Qed.

(** C5.  If the three attempts, each started in the state the previous one
    left, all fail validation, [generate_key] returns [(None, 1.0)] after
    exactly three attempts: the log shows three more sifting banners. *)
Theorem three_failed_attempts_exhaust (self : SecureBB84)
  (s0 s1 s2 s3 : State) (st1 st2 st3 : sifting) :
  attempt self s0 = (Ret st1, s1) -> validation_fails self st1 = true ->
  attempt self (after_failed_attempt 1 st1 s1) = (Ret st2, s2) ->
  validation_fails self st2 = true ->
  attempt self (after_failed_attempt 2 st2 s2) = (Ret st3, s3) ->
  validation_fails self st3 = true ->
  generate_key self s0
  = (Ret (None, 1%Q), after_failed_attempt 3 st3 s3)
  /\ attempts_started (stdout (after_failed_attempt 3 st3 s3))
     = (attempts_started (stdout s0) + 3)%nat.
Proof.
  intros E1 F1 E2 F2 E3 F3. split.
  - unfold generate_key, try_except, max_retries.
    rewrite (generate_key_loop_step _ _ _ _ _ _ E1 F1).
    rewrite (generate_key_loop_step _ _ _ _ _ _ E2 F2).
    rewrite (generate_key_loop_step _ _ _ _ _ _ E3 F3).
    reflexivity.
  - rewrite after_failed_attempt_started.
    apply attempt_ret in E1 as (_ & O1 & _).
    apply attempt_ret in E2 as (_ & O2 & _).
    apply attempt_ret in E3 as (_ & O3 & _).
    rewrite O3, attempts_started_app, after_failed_attempt_started.
    rewrite O2, attempts_started_app, after_failed_attempt_started.
    rewrite O1, attempts_started_app.
    change (attempts_started [PrintSifting]) with 1%nat. lia.
Qed.



(** *** Drawing from a pool that holds enough *)

Lemma get_key_loop_done self fuel length_ result s :
  (length_ <= length result)%nat ->
  get_key_loop self fuel length_ result s = (Ret result, s).
Proof.
  intros H. apply Nat.ltb_ge in H. destruct fuel; simpl; now rewrite H.
Qed.

Lemma get_key_loop_take self pool : forall fuel length_ result s,
  key_pool s = pool ->
  (length pool < fuel)%nat ->
  (length_ - length result <= length (concat pool))%nat ->
  exists s',
    get_key_loop self fuel length_ result s
    = (Ret (result ++ firstn (length_ - length result) (concat pool)), s')
    /\ concat (key_pool s') = skipn (length_ - length result) (concat pool)
    /\ same_but_pool s s'.
Proof.
  induction pool as [|k rest IH]; intros fuel len result s Hp Hf Hn.
  - simpl in Hn. rewrite get_key_loop_done by lia.
    exists s. replace (len - length result)%nat with 0%nat by lia.
    simpl. rewrite app_nil_r, Hp. repeat split.
  - destruct (Nat.ltb_spec (length result) len) as [Hlt|Hge].
    2:{ rewrite get_key_loop_done by lia.
        exists s. replace (len - length result)%nat with 0%nat by lia.
        simpl. rewrite app_nil_r, Hp. repeat split. }
    destruct fuel as [|fuel]; [simpl in Hf; lia|].
    simpl get_key_loop. apply Nat.ltb_lt in Hlt. rewrite Hlt.
    apply Nat.ltb_lt in Hlt.
    unfold bind at 1. rewrite Hp. cbv beta iota. rewrite Hp.
    simpl concat in *. rewrite length_app in Hn.
    destruct (Nat.leb_spec (length k) (len - length result)) as [Hk|Hk].
    + destruct (IH fuel len (result ++ k) (set_key_pool rest s))
        as (s' & E & Hc & Hs).
      * reflexivity.
      * simpl in Hf. lia.
      * rewrite length_app. lia.
      * exists s'. rewrite E. split; [|split].
        -- rewrite length_app, <- app_assoc. do 2 f_equal.
           rewrite firstn_app. rewrite (firstn_all2 k) by lia.
           now replace (len - (length result + length k))%nat
             with (len - length result - length k)%nat by lia.
        -- rewrite Hc, length_app, skipn_app. rewrite (skipn_all2 k) by lia.
           now replace (len - (length result + length k))%nat
             with (len - length result - length k)%nat by lia.
        -- exact Hs.
    + rewrite get_key_loop_done.
      2:{ rewrite length_app, length_firstn. lia. }
      eexists. split; [|split].
      * rewrite firstn_app.
        replace (len - length result - length k)%nat with 0%nat by lia.
        simpl. now rewrite app_nil_r.
      * simpl. rewrite skipn_app.
        replace (len - length result - length k)%nat with 0%nat by lia.
        reflexivity.
      * repeat split.
Qed.

Lemma get_key_from_pool_take self n s :
  (n <= length (concat (key_pool s)))%nat ->
  exists s',
    get_key_from_pool self n s = (Ret (firstn n (concat (key_pool s))), s')
    /\ concat (key_pool s') = skipn n (concat (key_pool s))
    /\ same_but_pool s s'.
Proof.
  intros H. unfold get_key_from_pool.
  destruct (get_key_loop_take self (key_pool s)
              (length (key_pool s) + n + 1) n [] s) as (s' & E & Hc & Hs).
  - reflexivity.
  - lia.
  - simpl. lia.
  - exists s'. simpl in E, Hc. rewrite Nat.sub_0_r in E, Hc. auto.
Qed.

Lemma same_but_pool_trans s1 s2 s3 :
  same_but_pool s1 s2 -> same_but_pool s2 s3 -> same_but_pool s1 s3.
Proof. unfold same_but_pool. intuition congruence. Qed.

(** C3.  For draw sizes that add up to the number of bits in the pool, the
    draws all return, their concatenation is the concatenation of the
    segments in their order, each has the size asked for, the pool ends
    empty, and no key was generated on the way: the generator and the
    output are untouched. *)
Theorem draws_return_the_pool_in_order (self : SecureBB84)
  (sizes : list nat) (s : State) :
  fold_right Nat.add 0%nat sizes = length (concat (key_pool s)) ->
  exists outs s',
    draws self sizes s = (Ret outs, s')
    /\ concat outs = concat (key_pool s)
    /\ map (@length Z) outs = sizes
    /\ concat (key_pool s') = []
    /\ rng s' = rng s /\ stdout s' = stdout s.
Proof.
  revert s. induction sizes as [|n rest IH]; intros s Hsum; simpl in Hsum.
  - exists [], s. simpl. unfold ret.
    destruct (concat (key_pool s)); [repeat split | discriminate].
  - destruct (get_key_from_pool_take self n s) as (s1 & E1 & C1 & W1);
      [lia|].
    destruct (IH s1) as (outs & s2 & E2 & C2 & L2 & C3 & R2 & O2).
    { rewrite C1, length_skipn. lia. }
    exists (firstn n (concat (key_pool s)) :: outs), s2.
    simpl. unfold bind. rewrite E1, E2. split; [reflexivity|].
    split; [|split; [|split; [exact C3|]]].
    + rewrite C2, C1. apply firstn_skipn.
    + simpl. rewrite L2, length_firstn. f_equal. lia.
    + destruct W1 as (W1 & _ & _ & W2 & _). split; congruence.
Qed.



(** *** [split] undoes [join] *)

Lemma starts_with_app sep s : starts_with sep (sep ++ s) = true.
Proof. induction sep; simpl; [reflexivity|]. now rewrite Z.eqb_refl. Qed.

Lemma split_from_skip sep l : forall cur s,
  split_from sep (length l) cur (l ++ s) = split_from sep 0 cur s.
Proof.
  induction l as [|x l IH]; intros cur s; [reflexivity|]. simpl. apply IH.
Qed.

Lemma split_from_sep c sep' cur s :
  split_from (c :: sep') 0 cur ((c :: sep') ++ s)
  = cur :: split_from (c :: sep') 0 [] s.
Proof.
  change ((c :: sep') ++ s) with (c :: (sep' ++ s)).
  cbn [split_from]. change (c :: sep' ++ s) with ((c :: sep') ++ s).
  rewrite starts_with_app. f_equal.
  replace (length (c :: sep') - 1)%nat with (length sep') by (simpl; lia).
  apply split_from_skip.
Qed.

Lemma split_from_part c sep' p : forall cur tail,
  ~ In c p ->
  split_from (c :: sep') 0 cur (p ++ tail)
  = split_from (c :: sep') 0 (cur ++ p) tail.
Proof.
  induction p as [|x p IH]; intros cur tail Hn.
  - now rewrite app_nil_r.
  - simpl app. cbn [split_from starts_with].
    destruct (Z.eqb_spec c x) as [->|_]; [exfalso; apply Hn; now left|].
    simpl andb. cbv iota. rewrite IH by (intros H; apply Hn; now right).
    now rewrite <- app_assoc.
Qed.

Lemma split_from_nil sep cur : split_from sep 0 cur [] = [cur].
Proof. reflexivity. Qed.

Lemma split_from_join c sep' rest : forall p cur,
  Forall (fun q => ~ In c q) (p :: rest) ->
  split_from (c :: sep') 0 cur (join (c :: sep') (p :: rest))
  = (cur ++ p) :: rest.
Proof.
  induction rest as [|q rest IH]; intros p cur H.
  - simpl. rewrite <- (app_nil_r p) at 1.
    rewrite split_from_part by (now inversion H). reflexivity.
  - change (join (c :: sep') (p :: q :: rest))
      with (p ++ (c :: sep') ++ join (c :: sep') (q :: rest)).
    inversion H as [|? ? Hp Hr]; subst.
    rewrite split_from_part by assumption.
    rewrite split_from_sep. f_equal. now rewrite IH.
Qed.

Lemma split_join c sep' parts :
  parts <> [] -> Forall (fun q => ~ In c q) parts ->
  split (c :: sep') (join (c :: sep') parts) = parts.
Proof.
  destruct parts as [|p rest]; [congruence|]. intros _ H.
  unfold split. now rewrite split_from_join.
Qed.

Lemma split_from_not_nil sep s : forall skip cur,
  split_from sep skip cur s <> [].
Proof.
  induction s as [|x s IH]; intros skip cur; simpl; [discriminate|].
  destruct skip; [|apply IH].
  destruct (starts_with sep (x :: s)); [discriminate | apply IH].
Qed.

(** *** White-space normalisation *)

Lemma forallb_snoc {A} (f : A -> bool) l x :
  forallb f (l ++ [x]) = forallb f l && f x.
Proof. rewrite forallb_app. simpl. now rewrite andb_true_r. Qed.

Lemma split_ws_from_words s : forall cur,
  forallb (fun c => negb (isspace c)) cur = true ->
  Forall word (split_ws_from cur s).
Proof.
  induction s as [|x s IH]; intros cur Hc; simpl.
  - destruct cur; constructor; [split; [discriminate | exact Hc] | constructor].
  - destruct (isspace x) eqn:E.
    + destruct cur; [now apply IH|].
      constructor; [split; [discriminate | exact Hc] | now apply IH].
    + apply IH. rewrite forallb_snoc, Hc, E. reflexivity.
Qed.

Lemma split_ws_from_word w : forall cur tail,
  forallb (fun c => negb (isspace c)) w = true ->
  split_ws_from cur (w ++ tail) = split_ws_from (cur ++ w) tail.
Proof.
  induction w as [|x w IH]; intros cur tail H.
  - now rewrite app_nil_r.
  - simpl in H. apply andb_true_iff in H as [Hx Hw].
    apply negb_true_iff in Hx. simpl. rewrite Hx, IH by assumption.
    now rewrite <- app_assoc.
Qed.

Lemma split_ws_join words : forall cur,
  Forall word words ->
  (cur = [] \/ words <> []) ->
  split_ws_from cur (join SPACE words)
  = match words with
    | [] => []
    | w :: rest => (cur ++ w) :: rest
    end.
Proof.
  induction words as [|w rest IH]; intros cur H Hc.
  - destruct Hc as [->|N]; [reflexivity | congruence].
  - inversion H as [|? ? [Hne Hw] Hr]; subst.
    destruct rest as [|v rest].
    + simpl. rewrite <- (app_nil_r w) at 1.
      rewrite split_ws_from_word by assumption. simpl.
      destruct (cur ++ w) eqn:E; [|reflexivity].
      apply app_eq_nil in E as [_ ->]. congruence.
    + change (join SPACE (w :: v :: rest))
        with (w ++ SPACE ++ join SPACE (v :: rest)).
      rewrite split_ws_from_word by assumption.
      change (SPACE ++ join SPACE (v :: rest))
        with (32 :: join SPACE (v :: rest)).
      cbn [split_ws_from]. change (isspace 32) with true. cbv iota.
      destruct (cur ++ w) eqn:E.
      { apply app_eq_nil in E as [_ ->]. congruence. }
      rewrite IH by (auto; right; discriminate). reflexivity.
Qed.

Lemma normalize_line_idempotent line :
  normalize_line (normalize_line line) = normalize_line line.
Proof.
  unfold normalize_line at 1 3. unfold split_ws at 1.
  unfold normalize_line. 
  pose proof (split_ws_from_words line [] eq_refl) as H.
  fold (split_ws line) in H.
  rewrite split_ws_join by (auto).
  now destruct (split_ws line).
Qed.

Lemma join_words_no_LF words :
  Forall word words -> ~ In 10 (join SPACE words).
Proof.
  induction words as [|w rest IH]; intros H; [intros []|].
  inversion H as [|? ? [_ Hw] Hr]; subst.
  assert (Hn : ~ In 10 w).
  { intros Hin. rewrite forallb_forall in Hw. now apply Hw in Hin. }
  destruct rest as [|v rest]; [exact Hn|].
  change (join SPACE (w :: v :: rest))
    with (w ++ 32 :: join SPACE (v :: rest)).
  intros Hin. apply in_app_or in Hin as [Hin|[Hin|Hin]];
    [now apply Hn | discriminate | now apply IH].
Qed.

Lemma normalize_line_no_LF line : ~ In 10 (normalize_line line).
Proof.
  apply join_words_no_LF. apply (split_ws_from_words line [] eq_refl).
Qed.

Lemma normalize_idempotent text : normalize (normalize text) = normalize text.
Proof.
  unfold normalize at 1 3. unfold normalize. unfold LF.
  rewrite split_join.
  - rewrite map_map. f_equal. apply map_ext. intros l.
    apply normalize_line_idempotent.
  - intros E. apply map_eq_nil in E. now apply split_from_not_nil in E.
  - apply Forall_forall. intros q Hq. apply in_map_iff in Hq as (l & <- & _).
    apply normalize_line_no_LF.
Qed.





Lemma utf8_encode_char_bytes c b :
  utf8_encode_char c = Some b -> Forall byte b.
Proof.
  unfold utf8_encode_char, byte.
  destruct (Z.ltb_spec c 0); [discriminate|].
  destruct (Z.ltb_spec c 128).
  { intros H'%some_inj; subst b.
    repeat (apply Forall_cons; [cbv beta; divmod|]); apply Forall_nil. }
  destruct (Z.ltb_spec c 2048).
  { intros H'%some_inj; subst b.
    repeat (apply Forall_cons; [cbv beta; divmod|]); apply Forall_nil. }
  destruct (Z.ltb_spec c 65536).
  { destruct ((55296 <=? c) && (c <=? 57343)); [discriminate|].
    intros H'%some_inj; subst b.
    repeat (apply Forall_cons; [cbv beta; divmod|]); apply Forall_nil. }
  destruct (Z.ltb_spec c 1114112); [|discriminate].
  intros H'%some_inj; subst b.
  repeat (apply Forall_cons; [cbv beta; divmod|]); apply Forall_nil.
Qed.

Lemma utf8_decode_1 errors b1 rest :
  (b1 <? 128) = true ->
  utf8_decode errors (b1 :: rest) = emit b1 (utf8_decode errors rest).
Proof. intros H. cbn [utf8_decode]. now rewrite H. Qed.

Lemma utf8_decode_2 errors b1 b2 rest :
  (b1 <? 128) = false -> (b1 <? 194) = false -> (b1 <? 224) = true ->
  is_cont b2 = true ->
  utf8_decode errors (b1 :: b2 :: rest)
  = emit ((b1 - 192) * 64 + (b2 - 128)) (utf8_decode errors rest).
Proof.
  intros H1 H2 H3 H4. cbn [utf8_decode]. now rewrite H1, H2, H3, H4.
Qed.

Lemma utf8_decode_3 errors b1 b2 b3 rest :
  (b1 <? 128) = false -> (b1 <? 194) = false -> (b1 <? 224) = false ->
  (b1 <? 240) = true ->
  is_cont b2 && (if b1 =? 224 then 160 <=? b2 else true)
  && (if b1 =? 237 then b2 <? 160 else true) = true ->
  is_cont b3 = true ->
  utf8_decode errors (b1 :: b2 :: b3 :: rest)
  = emit ((b1 - 224) * 4096 + (b2 - 128) * 64 + (b3 - 128))
      (utf8_decode errors rest).
Proof.
  intros H1 H2 H3 H4 H5 H6. cbn [utf8_decode].
  now rewrite H1, H2, H3, H4, H5, H6.
Qed.

Lemma utf8_decode_4 errors b1 b2 b3 b4 rest :
  (b1 <? 128) = false -> (b1 <? 194) = false -> (b1 <? 224) = false ->
  (b1 <? 240) = false -> (b1 <? 245) = true ->
  is_cont b2 && (if b1 =? 240 then 144 <=? b2 else true)
  && (if b1 =? 244 then b2 <? 144 else true) = true ->
  is_cont b3 = true -> is_cont b4 = true ->
  utf8_decode errors (b1 :: b2 :: b3 :: b4 :: rest)
  = emit ((b1 - 240) * 262144 + (b2 - 128) * 4096 + (b3 - 128) * 64
          + (b4 - 128))
      (utf8_decode errors rest).
Proof.
  intros H1 H2 H3 H4 H5 H6 H7 H8. cbn [utf8_decode].
  now rewrite H1, H2, H3, H4, H5, H6, H7, H8.
Qed.

Lemma is_cont_low x : 0 <= x < 64 -> is_cont (128 + x) = true.
Proof.
  intros H. unfold is_cont. apply andb_true_iff.
  split; apply Z.leb_le; lia.
Qed.

Lemma utf8_decode_encode_char errors c b rest :
  utf8_encode_char c = Some b ->
  utf8_decode errors (b ++ rest) = emit c (utf8_decode errors rest).
Proof.
  unfold utf8_encode_char.
  destruct (Z.ltb_spec c 0); [discriminate|].
  destruct (Z.ltb_spec c 128) as [L1|L1].
  { intros H'%some_inj; subst b. apply utf8_decode_1. now apply Z.ltb_lt. }
  destruct (Z.ltb_spec c 2048) as [L2|L2].
  { intros H'%some_inj; subst b. cbn [app].
    rewrite utf8_decode_2.
    - f_equal. divmod.
    - apply Z.ltb_ge. divmod.
    - apply Z.ltb_ge. divmod.
    - apply Z.ltb_lt. divmod.
    - apply is_cont_low. divmod. }
  destruct (Z.ltb_spec c 65536) as [L3|L3].
  { destruct (Z.leb_spec 55296 c) as [S1|S1];
      [destruct (Z.leb_spec c 57343) as [S2|S2]; [discriminate|]|];
      cbn [andb]; intros H'%some_inj; subst b; cbn [app];
      (rewrite utf8_decode_3;
       [ f_equal; divmod
       | apply Z.ltb_ge; divmod | apply Z.ltb_ge; divmod
       | apply Z.ltb_ge; divmod | apply Z.ltb_lt; divmod
       | rewrite is_cont_low by divmod; cbn [andb];
         apply andb_true_iff; split;
         match goal with
         | |- (if ?a =? ?k then _ else _) = true =>
             destruct (Z.eqb_spec a k); [|reflexivity]
         end; [apply Z.leb_le | apply Z.ltb_lt]; divmod
       | apply is_cont_low; divmod ]). }
  destruct (Z.ltb_spec c 1114112) as [L4|L4]; [|discriminate].
  intros H'%some_inj; subst b; cbn [app].
  rewrite utf8_decode_4;
    [ f_equal; divmod
    | apply Z.ltb_ge; divmod | apply Z.ltb_ge; divmod
    | apply Z.ltb_ge; divmod | apply Z.ltb_ge; divmod
    | apply Z.ltb_lt; divmod
    | rewrite is_cont_low by divmod; cbn [andb];
      apply andb_true_iff; split;
      match goal with
      | |- (if ?a =? ?k then _ else _) = true =>
          destruct (Z.eqb_spec a k); [|reflexivity]
      end; [apply Z.leb_le | apply Z.ltb_lt]; divmod
    | apply is_cont_low; divmod
    | apply is_cont_low; divmod ].
Qed.

Lemma utf8_decode_encode errors s : forall b,
  utf8_encode s = Some b -> utf8_decode errors b = Some s.
Proof.
  induction s as [|c s IH]; intros b; simpl.
  - now intros H%some_inj; subst.
  - destruct (utf8_encode_char c) as [bc|] eqn:Ec; [|discriminate].
    destruct (utf8_encode s) as [bs|]; [|discriminate].
    intros H%some_inj; subst b.
    rewrite (utf8_decode_encode_char _ _ _ _ Ec), (IH bs eq_refl).
    reflexivity.
Qed.

Lemma utf8_encode_bytes s : forall b,
  utf8_encode s = Some b -> Forall byte b.
Proof.
  induction s as [|c s IH]; intros b; simpl.
  - intros H%some_inj; subst. constructor.
  - destruct (utf8_encode_char c) as [bc|] eqn:Ec; [|discriminate].
    destruct (utf8_encode s) as [bs|]; [|discriminate].
    intros H%some_inj; subst b. apply Forall_app. split.
    + eapply utf8_encode_char_bytes; eauto.
    + now apply IH.
Qed.

(** The decoder that ignores errors always returns. *)
Lemma utf8_decode_ignore_bounded n : forall b,
  (length b <= n)%nat -> utf8_decode Ignore b <> None.
Proof.
  induction n as [|n IH]; intros b Hb.
  - destruct b; [discriminate | simpl in Hb; lia].
  - destruct b as [|b1 r1]; [discriminate|].
    cbn [utf8_decode]. simpl in Hb.
    repeat match goal with
           | |- context [if ?t then _ else _] => destruct t
           | |- context [match ?r with [] => _ | _ :: _ => _ end] =>
               is_var r; destruct r; simpl in Hb
           end;
      unfold emit, undecodable; try discriminate;
      try match goal with
          | |- context [utf8_decode Ignore ?r] =>
              let E := fresh in
              destruct (utf8_decode Ignore r) eqn:E;
              [discriminate | exfalso; revert E; apply IH; simpl; lia]
          end.
Qed.

Lemma utf8_decode_ignore_total b : utf8_decode Ignore b <> None.
Proof. now apply (utf8_decode_ignore_bounded (length b)). Qed.




(** *** Reading numerals *)

Lemma to_ascii_literal_ascii s :
  Forall (fun c => c < 128) s -> to_ascii_literal s = Some s.
Proof.
  induction 1 as [|c s Hc _ IH]; [reflexivity|].
  simpl. apply Z.ltb_lt in Hc. now rewrite Hc, IH.
Qed.

Lemma digit_value_digit c : 48 <= c < 58 -> digit_value c = Some (c - 48).
Proof.
  intros H. unfold digit_value.
  destruct (Z.leb_spec 48 c); [|lia]. destruct (Z.leb_spec c 57); [|lia].
  reflexivity.
Qed.

Lemma scan_digits_all base s : forall acc n,
  base <= 10 -> Forall (digit_below base) s ->
  scan_digits base acc n false s
  = Some (digits_value base s acc, (n + length s)%nat, []).
Proof.
  induction s as [|c s IH]; intros acc n Hb H.
  - simpl. now rewrite Nat.add_0_r.
  - inversion H as [|? ? Hc Hs]; subst. unfold digit_below in Hc.
    cbn [scan_digits]. destruct (Z.eqb_spec c 95); [lia|].
    rewrite digit_value_digit by lia.
    destruct (Z.ltb_spec (c - 48) base); [|lia].
    rewrite IH by assumption. simpl. do 3 f_equal. lia.
Qed.

Lemma digit_not_c_space c : 48 <= c -> is_c_space c = false.
Proof.
  intros H. unfold is_c_space. destruct (Z.eqb_spec c 32); [lia|].
  destruct (Z.leb_spec 9 c), (Z.leb_spec c 13); try reflexivity; lia.
Qed.

Lemma py_int_digits base s :
  2 <= base <= 10 -> s <> [] -> Forall (digit_below base) s ->
  py_int base s = Some (digits_value base s 0).
Proof.
  intros Hb Hne H. unfold py_int.
  rewrite to_ascii_literal_ascii.
  2:{ eapply Forall_impl; [|exact H]. unfold digit_below. intros; lia. }
  destruct s as [|c s]; [congruence|].
  inversion H as [|? ? Hc Hs]; subst. unfold digit_below in Hc.
  cbn [skip_c_space]. rewrite digit_not_c_space by lia.
  unfold split_sign.
  destruct (Z.eqb_spec c 43); [lia|]. destruct (Z.eqb_spec c 45); [lia|].
  cbn [fst snd].
  assert (Hpre : skip_prefix base (c :: s) = c :: s).
  { unfold skip_prefix. destruct s as [|x r]; [reflexivity|].
    inversion Hs as [|? ? Hx _]; subst. unfold digit_below in Hx.
    destruct (Z.eqb_spec base 16); [lia|].
    destruct (Z.eqb_spec x 98); [lia|]. destruct (Z.eqb_spec x 66); [lia|].
    now rewrite !andb_false_r. }
  rewrite Hpre. unfold parse_digits.
  destruct (Z.eqb_spec c 95); [lia|].
  rewrite scan_digits_all by (auto; lia).
  cbn [length Nat.add skip_c_space]. f_equal.
  now destruct (digits_value base (c :: s) 0).
Qed.

(** *** Writing numerals *)

Lemma digits_value_app base a b acc :
  digits_value base (a ++ b) acc = digits_value base b (digits_value base a acc).
Proof. apply fold_left_app. Qed.

Lemma pos_bin_digits p : Forall (digit_below 2) (pos_bin p).
Proof.
  induction p; simpl; try (apply Forall_app; split; [assumption|]);
    (apply Forall_cons; [unfold digit_below; lia | apply Forall_nil]).
Qed.

Lemma pos_bin_value p : digits_value 2 (pos_bin p) 0 = Z.pos p.
Proof.
  induction p; simpl; try rewrite digits_value_app, IHp; simpl; lia.
Qed.

Lemma pos_bin_length p : length (pos_bin p) = Pos.size_nat p.
Proof.
  induction p; simpl; try rewrite length_app, IHp; simpl; lia.
Qed.

Lemma size_nat_bound p w :
  Z.pos p < 2 ^ Z.of_nat w -> (Pos.size_nat p <= w)%nat.
Proof.
  revert p. induction w as [|w IH]; intros p H.
  - simpl in H. lia.
  - rewrite Nat2Z.inj_succ, Z.pow_succ_r in H by lia.
    destruct p; simpl; try (apply le_n_S, IH); lia.
Qed.

Lemma zeros_value base k s :
  digits_value base (repeat 48 k ++ s) 0 = digits_value base s 0.
Proof.
  rewrite digits_value_app. f_equal.
  induction k; simpl; [reflexivity|]. exact IHk.
Qed.

Lemma format_b_value w n : 0 <= n -> digits_value 2 (format_b w n) 0 = n.
Proof.
  intros H. destruct n as [|p|p]; [| |lia]; unfold format_b.
  - now rewrite zeros_value.
  - now rewrite zeros_value, pos_bin_value.
Qed.

Lemma repeat_Forall {A} (Q : A -> Prop) x k : Q x -> Forall Q (repeat x k).
Proof. intros H. induction k; simpl; constructor; auto. Qed.

Lemma format_b_digits w n : 0 <= n -> Forall (digit_below 2) (format_b w n).
Proof.
  intros H. destruct n as [|p|p]; [| |lia]; unfold format_b;
    apply Forall_app; split;
    try (apply repeat_Forall; unfold digit_below; lia).
  - apply Forall_cons; [unfold digit_below; lia | apply Forall_nil].
  - apply pos_bin_digits.
Qed.

Lemma format_b_length w n :
  (0 < w)%nat -> 0 <= n < 2 ^ Z.of_nat w -> length (format_b w n) = w.
Proof.
  intros Hw H. destruct n as [|p|p]; [| |lia]; unfold format_b;
    rewrite length_app, repeat_length.
  - simpl. lia.
  - rewrite pos_bin_length. pose proof (size_nat_bound p w). lia.
Qed.

Lemma py_int_format_b w n :
  (0 < w)%nat -> 0 <= n < 2 ^ Z.of_nat w -> py_int 2 (format_b w n) = Some n.
Proof.
  intros Hw H. rewrite py_int_digits.
  - now rewrite format_b_value.
  - lia.
  - intros E. apply (f_equal (@length Z)) in E.
    rewrite format_b_length in E by assumption. simpl in E. lia.
  - now apply format_b_digits.
Qed.

Lemma dec_digits_spec fuel : forall n,
  0 < n < 2 ^ Z.of_nat fuel ->
  Forall (digit_below 10) (dec_digits fuel n)
  /\ dec_digits fuel n <> []
  /\ digits_value 10 (dec_digits fuel n) 0 = n.
Proof.
  induction fuel as [|fuel IH]; intros n H.
  - simpl in H. lia.
  - rewrite Nat2Z.inj_succ, Z.pow_succ_r in H by lia. cbn [dec_digits].
    destruct (Z.ltb_spec n 10).
    + split; [|split];
        [apply Forall_cons; [unfold digit_below; lia | apply Forall_nil]
        | discriminate | unfold digits_value; cbn [fold_left]; lia].
    + destruct (IH (n / 10)) as (D & N & V); [divmod|].
      split; [|split].
      * apply Forall_app. split; [exact D|].
        apply Forall_cons; [unfold digit_below; divmod | apply Forall_nil].
      * intros E. now apply app_eq_nil in E as [E _].
      * rewrite digits_value_app, V. unfold digits_value; cbn [fold_left].
        divmod.
Qed.

Lemma pos_lt_pow_size p : Z.pos p < 2 ^ Z.of_nat (Pos.to_nat (Pos.size p)).
Proof.
  rewrite positive_nat_Z.
  pose proof (Pos.size_gt p) as H.
  apply Pos2Z.pos_lt_pos in H. now rewrite Pos2Z.inj_pow in H.
Qed.

Lemma py_str_nonneg n :
  0 <= n ->
  Forall (digit_below 10) (py_str n) /\ py_str n <> []
  /\ digits_value 10 (py_str n) 0 = n.
Proof.
  intros H. destruct n as [|p|p]; [| |lia].
  - split; [|split];
      [apply Forall_cons; [unfold digit_below; lia | apply Forall_nil]
      | discriminate | reflexivity].
  - apply dec_digits_spec. split; [lia | apply pos_lt_pow_size].
Qed.

Lemma py_int_py_str n : 0 <= n -> py_int 10 (py_str n) = Some n.
Proof.
  intros H. destruct (py_str_nonneg n H) as (D & N & V).
  rewrite py_int_digits by (auto; lia). now rewrite V.
Qed.

End Basics.

(** ** The frame codec *)

Section Frames.
Context {P : Platform}.

(** *** Frames *)

Lemma slice_prefix {A} (a b : list A) :
  length a = 32%nat -> slice (a ++ b) 0 32 = a.
Proof.
  intros H. unfold slice, slice_bound. rewrite length_app, H. cbn [Z.ltb Z.compare].
  rewrite Z.min_l, Z.min_l by lia. simpl skipn.
  change (Z.to_nat (32 - 0)) with 32%nat. rewrite <- H.
  rewrite firstn_app, firstn_all, Nat.sub_diag. simpl. apply app_nil_r.
Qed.

Lemma slice_suffix {A} (a b : list A) :
  length a = 32%nat ->
  slice (a ++ b) 32 (32 + Z.of_nat (length b)) = b.
Proof.
  intros H. unfold slice, slice_bound. rewrite length_app, H.
  destruct (Z.ltb_spec 32 0); [lia|].
  destruct (Z.ltb_spec (32 + Z.of_nat (length b)) 0); [lia|].
  rewrite Z.min_l, Z.min_l by lia.
  replace (Z.to_nat (32 + Z.of_nat (length b) - 32)) with (length b) by lia.
  change (Z.to_nat 32) with 32%nat. rewrite <- H.
  rewrite skipn_app, skipn_all, Nat.sub_diag. simpl. apply firstn_all.
Qed.

Lemma chunks_of_app {A} fuel n (x rest : list A) :
  length x = n -> x <> [] ->
  chunks_of (S fuel) n (x ++ rest) = x :: chunks_of fuel n rest.
Proof.
  intros H Hne. destruct x as [|c x]; [congruence|].
  change ((c :: x) ++ rest) with (c :: (x ++ rest)). cbn [chunks_of].
  change (c :: (x ++ rest)) with ((c :: x) ++ rest).
  rewrite <- H, firstn_app, firstn_all, Nat.sub_diag.
  rewrite skipn_app, skipn_all, Nat.sub_diag. simpl. now rewrite app_nil_r.
Qed.

Lemma byte_bits_length bs :
  Forall byte bs -> length (flat_map (format_b 8) bs) = (8 * length bs)%nat.
Proof.
  induction 1 as [|b bs Hb _ IH]; [reflexivity|].
  simpl flat_map. rewrite length_app, IH, format_b_length.
  - simpl. lia.
  - lia.
  - unfold byte in Hb. simpl. lia.
Qed.

Lemma bytes_of_chunks_bits bs :
  Forall byte bs -> forall fuel,
  (length (flat_map (format_b 8) bs) <= fuel)%nat ->
  bytes_of_chunks (chunks_of fuel 8 (flat_map (format_b 8) bs)) = bs.
Proof.
  induction 1 as [|b bs Hb Hbs IH]; intros fuel Hf.
  - destruct fuel; reflexivity.
  - simpl flat_map in *. unfold byte in Hb.
    assert (L : length (format_b 8 b) = 8%nat)
      by (apply format_b_length; simpl; lia).
    rewrite length_app, L in Hf.
    destruct fuel as [|fuel]; [lia|].
    rewrite chunks_of_app.
    2: exact L.
    2:{ intros E. rewrite E in L. discriminate. }
    cbn [bytes_of_chunks]. rewrite L. cbn [Nat.eqb].
    rewrite py_int_format_b by (simpl; lia).
    destruct (Z.ltb_spec b 256); [|lia]. destruct (Z.leb_spec 0 b); [|lia].
    f_equal. apply IH. lia.
Qed.

Lemma frame_bytes_of_text_to_binary text bs :
  utf8_encode (normalize text) = Some bs ->
  8 * Z.of_nat (length bs) < 2 ^ 32 ->
  exists binary, text_to_binary text = Some binary
                 /\ frame_bytes binary = Some bs
                 /\ length binary = (32 + 8 * length bs)%nat
                 /\ Forall (digit_below 2) binary.
Proof.
  intros E Hlen. unfold text_to_binary. rewrite E.
  pose proof (utf8_encode_bytes _ _ E) as Hb.
  pose proof (byte_bits_length bs Hb) as Lb.
  set (bits := flat_map (format_b 8) bs) in *.
  assert (L32 : length (format_b 32 (Z.of_nat (length bits))) = 32%nat).
  { apply format_b_length; [lia|]. rewrite Lb.
    change (Z.of_nat 32) with 32. lia. }
  eexists. split; [reflexivity|]. split; [|split].
  - unfold frame_bytes. rewrite slice_prefix by exact L32.
    rewrite py_int_format_b.
    2: lia.
    2:{ rewrite Lb. change (Z.of_nat 32) with 32. lia. }
    rewrite slice_suffix by exact L32.
    replace (length bits mod 8)%nat with 0%nat.
    2:{ rewrite Lb, Nat.mul_comm. symmetry. apply Nat.Div0.mod_mul. }
    cbn [Nat.eqb]. f_equal. now apply bytes_of_chunks_bits.
  - rewrite length_app, L32, Lb. reflexivity.
  - apply Forall_app. split; [apply format_b_digits; lia|].
    subst bits. clear -Hb. induction Hb as [|b bs Hb _ IH]; [constructor|].
    simpl. apply Forall_app. split; [|exact IH].
    apply format_b_digits. unfold byte in Hb. lia.
Qed.

Lemma decode_bytes_utf8 bytes_data :
  exists decoded, utf8_decode Ignore bytes_data = Some decoded
                  /\ decode_bytes bytes_data = (Utf8Path, normalize decoded).
Proof.
  unfold decode_bytes.
  destruct (utf8_decode Ignore bytes_data) as [d|] eqn:E.
  - now exists d.
  - now apply utf8_decode_ignore_total in E.
Qed.

Lemma binary_to_text_text_to_binary text bs :
  utf8_encode (normalize text) = Some bs ->
  8 * Z.of_nat (length bs) < 2 ^ 32 ->
  binary_to_text_of (text_to_binary text) = Some (normalize text).
Proof.
  intros E Hlen.
  destruct (frame_bytes_of_text_to_binary text bs E Hlen)
    as (binary & Eb & Ef & _).
  rewrite Eb. unfold binary_to_text_of, binary_to_text. rewrite Ef.
  unfold decode_bytes. rewrite (utf8_decode_encode Ignore _ _ E).
  simpl. now rewrite normalize_idempotent.
Qed.

(** C4, as the code has it.  When the normalised text has a UTF-8 encoding
    (it holds no surrogate) of fewer than 2^32 bits, [binary_to_text] of
    [text_to_binary] is the normalised text; normalisation is idempotent
    for every text; and for a text that has no encoding, [text_to_binary]
    returns [None] and so does [binary_to_text]. *)
Theorem decode_of_encode_is_normalize (text : str) :
  (forall text_bytes : bytes,
     utf8_encode (normalize text) = Some text_bytes ->
     8 * Z.of_nat (length text_bytes) < 2 ^ 32 ->
     binary_to_text_of (text_to_binary text) = Some (normalize text))
  /\ normalize (normalize text) = normalize text
  /\ (utf8_encode (normalize text) = None ->
      text_to_binary text = None
      /\ binary_to_text_of (text_to_binary text) = None).
Proof.
  split; [|split].
  - intros text_bytes E Hlen. eapply binary_to_text_text_to_binary; eauto.
  - apply normalize_idempotent.
  - intros E. unfold text_to_binary. cbv zeta. rewrite E. now split.
Qed.

(** C10.  Once the length prefix is read, decoding the bytes as UTF-8 with
    errors ignored returns, the branch taken is the UTF-8 one, and the text
    returned is the normalised UTF-8 decoding, never the Latin-1 one. *)
Theorem latin1_fallback_unreachable (binary : str) (bytes_data : bytes) :
  frame_bytes binary = Some bytes_data ->
  exists decoded,
    utf8_decode Ignore bytes_data = Some decoded
    /\ decode_bytes bytes_data = (Utf8Path, normalize decoded)
    /\ binary_to_text binary = Some (normalize decoded).
Proof.
  intros E. destruct (decode_bytes_utf8 bytes_data) as (d & Ed & Eb).
  exists d. split; [exact Ed|]. split; [exact Eb|].
  unfold binary_to_text. now rewrite E, Eb.
Qed.

End Frames.

(** ** The length prefix *)

Section LengthPrefix.
Context {P : Platform}.

(** *** What the length prefix rejects *)

Lemma to_ascii_literal_keeps s : forall a c,
  to_ascii_literal s = Some a -> In c s -> c < 128 -> In c a.
Proof.
  induction s as [|x s IH]; intros a c E Hin Hc; [destruct Hin|].
  simpl in E.
  destruct (to_ascii_literal s) as [r|].
  2:{ now destruct (if x <? 128 then _ else _). }
  destruct Hin as [->|Hin].
  - apply Z.ltb_lt in Hc. rewrite Hc in E. apply some_inj in E. subst a.
    now left.
  - destruct (if x <? 128 then _ else _); [|discriminate].
    apply some_inj in E. subst a. right. now apply IH.
Qed.

Lemma skip_c_space_keeps a c :
  In c a -> is_c_space c = false -> In c (skip_c_space a).
Proof.
  induction a as [|x a IH]; intros Hin Hc; [destruct Hin|]. simpl.
  destruct (is_c_space x) eqn:E; [|exact Hin].
  destruct Hin as [->|Hin]; [congruence | now apply IH].
Qed.

Lemma split_sign_keeps a c :
  In c a -> c <> 43 -> c <> 45 -> In c (snd (split_sign a)).
Proof.
  intros Hin H1 H2. unfold split_sign. destruct a as [|x a]; [exact Hin|].
  destruct (Z.eqb_spec x 43) as [->|_];
    [destruct Hin; [congruence | assumption]|].
  destruct (Z.eqb_spec x 45) as [->|_];
    [destruct Hin; [congruence | assumption]|].
  exact Hin.
Qed.

Lemma skip_prefix_keeps a c :
  In c a -> c <> 48 -> c <> 98 -> c <> 66 -> c <> 95 ->
  In c (skip_prefix 2 a).
Proof.
  intros Hin H1 H2 H3 H4. unfold skip_prefix.
  destruct a as [|z [|x r]]; try exact Hin.
  destruct (Z.eqb_spec z 48) as [->|_]; [|exact Hin].
  cbn [andb Z.eqb orb].
  destruct (Z.eqb_spec x 98) as [->|_].
  - cbn [orb]. destruct Hin as [|[|Hin]]; try congruence.
    destruct r as [|u r]; [exact Hin|].
    destruct (Z.eqb_spec u 95) as [->|_]; [|exact Hin].
    destruct Hin; [congruence | assumption].
  - destruct (Z.eqb_spec x 66) as [->|_]; [|exact Hin].
    cbn [orb]. destruct Hin as [|[|Hin]]; try congruence.
    destruct r as [|u r]; [exact Hin|].
    destruct (Z.eqb_spec u 95) as [->|_]; [|exact Hin].
    destruct Hin; [congruence | assumption].
Qed.

Lemma digit_value_range c d :
  digit_value c = Some d ->
  (48 <= c <= 57 /\ d = c - 48) \/ (97 <= c <= 122 /\ d = c - 87)
  \/ (65 <= c <= 90 /\ d = c - 55).
Proof.
  unfold digit_value.
  destruct ((48 <=? c) && (c <=? 57)) eqn:E1.
  { intros H%some_inj. apply andb_true_iff in E1 as [A B].
    apply Z.leb_le in A, B. lia. }
  destruct ((97 <=? c) && (c <=? 122)) eqn:E2.
  { intros H%some_inj. apply andb_true_iff in E2 as [A B].
    apply Z.leb_le in A, B. lia. }
  destruct ((65 <=? c) && (c <=? 90)) eqn:E3; [|discriminate].
  intros H%some_inj. apply andb_true_iff in E3 as [A B].
  apply Z.leb_le in A, B. lia.
Qed.

Lemma digit_value_below_2 c d :
  digit_value c = Some d -> d < 2 -> c = 48 \/ c = 49.
Proof. intros H%digit_value_range Hd. lia. Qed.

Lemma scan_digits_keeps a c : forall acc n prev v m rest,
  scan_digits 2 acc n prev a = Some (v, m, rest) ->
  In c a -> c <> 48 -> c <> 49 -> c <> 95 -> In c rest.
Proof.
  induction a as [|x a IH]; intros acc n prev v m rest E Hin H1 H2 H3;
    [destruct Hin|].
  cbn [scan_digits] in E.
  destruct (Z.eqb_spec x 95) as [->|Hx].
  - destruct prev; [discriminate|].
    destruct Hin as [|Hin]; [congruence|]. eapply IH; eauto.
  - destruct (digit_value x) as [d|] eqn:Ed.
    + destruct (Z.ltb_spec d 2) as [Hd|Hd].
      * destruct (digit_value_below_2 x d Ed Hd) as [->| ->];
          (destruct Hin as [|Hin]; [congruence|]; eapply IH; eauto).
      * destruct prev; [discriminate|]. apply some_inj in E.
        now inversion E; subst.
    + destruct prev; [discriminate|]. apply some_inj in E.
      now inversion E; subst.
Qed.

Lemma skip_c_space_nil_inv a c :
  skip_c_space a = [] -> In c a -> is_c_space c = true.
Proof.
  intros E Hin. destruct (is_c_space c) eqn:Ec; [reflexivity|].
  pose proof (skip_c_space_keeps a c Hin Ec) as H. rewrite E in H.
  destruct H.
Qed.

Lemma py_int_2_rejects s c :
  In c s -> c < 128 -> base2_literal_char c = false -> py_int 2 s = None.
Proof.
  intros Hin Hc Hb. unfold base2_literal_char in Hb.
  repeat (apply orb_false_iff in Hb as [Hb ?]).
  repeat match goal with
         | H : (_ =? _) = false |- _ => apply Z.eqb_neq in H
         end.
  unfold py_int. destruct (to_ascii_literal s) as [a|] eqn:Ea; [|reflexivity].
  pose proof (to_ascii_literal_keeps _ _ _ Ea Hin Hc) as K1.
  apply skip_c_space_keeps in K1; [|assumption].
  apply split_sign_keeps in K1; [|assumption..].
  apply skip_prefix_keeps in K1; [|assumption..].
  cbv zeta. set (a' := skip_prefix 2 _) in *.
  unfold parse_digits. destruct a' as [|x a''] eqn:Ea'; [reflexivity|].
  destruct (x =? 95); [reflexivity|].
  destruct (scan_digits 2 0 0 false (x :: a'')) as [[[v m] rest]|] eqn:Es;
    [|reflexivity].
  destruct m; [reflexivity|].
  destruct (skip_c_space rest) eqn:Er; [|reflexivity].
  pose proof (scan_digits_keeps _ c _ _ _ _ _ _ Es K1) as K2.
  apply (skip_c_space_nil_inv _ _ Er) in K2; congruence.
Qed.

Lemma binary_to_text_none_iff binary :
  binary_to_text binary = None <-> py_int 2 (slice binary 0 32) = None.
Proof.
  unfold binary_to_text, frame_bytes.
  destruct (py_int 2 (slice binary 0 32)); split; congruence.
Qed.

Lemma slice_head {A} (s : list A) :
  slice s 0 32 = firstn 32 s.
Proof.
  unfold slice, slice_bound.
  change (0 <? 0) with false. change (32 <? 0) with false. cbv iota.
  rewrite (Z.min_l 0) by lia. change (Z.to_nat 0) with 0%nat.
  cbn [skipn]. rewrite Z.sub_0_r.
  destruct (Z.min_spec 32 (Z.of_nat (length s))) as [[H ->]|[H ->]].
  - reflexivity.
  - rewrite Nat2Z.id, firstn_all. symmetry. apply firstn_all2. lia.
Qed.

Lemma slice_beyond {A} (s : list A) stop :
  (length s <= 32)%nat -> slice s 32 stop = [].
Proof.
  intros H. unfold slice. set (hi := slice_bound _ stop).
  replace (slice_bound (Z.of_nat (length s)) 32) with (Z.of_nat (length s)).
  - rewrite Nat2Z.id, skipn_all. apply firstn_nil.
  - unfold slice_bound. change (32 <? 0) with false. cbv iota. lia.
Qed.

Lemma short_binary_decodes_to_empty binary :
  binary <> [] -> (length binary <= 32)%nat ->
  Forall (digit_below 2) binary -> binary_to_text binary = Some [].
Proof.
  intros Hne Hlen Hd. unfold binary_to_text, frame_bytes.
  rewrite slice_head, firstn_all2 by lia.
  rewrite py_int_digits by (auto; lia).
  rewrite slice_beyond by exact Hlen. reflexivity.
Qed.

(** C9, as the code has it.  [binary_to_text] returns [None] exactly when
    [int(binary[:32], 2)] raises: on the empty string, and whenever the
    first 32 characters hold an ASCII character that a base-2 literal
    cannot hold.  A non-empty input of binary digits is never rejected, and
    one shorter than 32 characters decodes to the empty text. *)
Theorem binary_to_text_fails_on_the_length_prefix_only :
  (forall binary : str,
     binary_to_text binary = None <-> py_int 2 (slice binary 0 32) = None)
  /\ binary_to_text [] = None
  /\ (forall (binary : str) (c : Z),
        In c (slice binary 0 32) -> c < 128 ->
        base2_literal_char c = false -> binary_to_text binary = None)
  /\ (forall binary : str,
        binary <> [] -> Forall (digit_below 2) (slice binary 0 32) ->
        binary_to_text binary <> None)
  /\ (forall binary : str,
        binary <> [] -> (length binary < 32)%nat ->
        Forall (digit_below 2) binary -> binary_to_text binary = Some []).
Proof.
  split; [exact binary_to_text_none_iff|].
  split; [reflexivity|]. split; [|split].
  - intros binary c Hin Hc Hb. apply binary_to_text_none_iff.
    eapply py_int_2_rejects; eauto.
  - intros binary Hne Hd. rewrite binary_to_text_none_iff.
    rewrite py_int_digits; [discriminate | lia | | exact Hd].
    rewrite slice_head. destruct binary; [congruence | discriminate].
  - intros binary Hne Hlen Hd. apply short_binary_decodes_to_empty; auto; lia.
Qed.

End LengthPrefix.

(** ** Keys are made of bits *)

Section KeysOfBits.
Context {P : Platform}.

(** *** Reading a run of the monad backwards *)

Lemma bind_ret_inv {A B} (m : M A) (k : A -> M B) s b s' :
  bind m k s = (Ret b, s') ->
  exists a s1, m s = (Ret a, s1) /\ k a s1 = (Ret b, s').
Proof.
  unfold bind. destruct (m s) as [[a|e] s1]; [eauto | discriminate].
Qed.

Lemma try_except_ret_inv {A} (m : M A) h s b s' :
  try_except m h s = (Ret b, s') ->
  m s = (Ret b, s')
  \/ exists e s1, m s = (Raise e, s1) /\ h e s1 = (Ret b, s').
Proof.
  unfold try_except. destruct (m s) as [[a|e] s1]; [now left|].
  destruct e; try discriminate; right; eauto.
Qed.

(** *** Every key is made of bits *)

Hypothesis getrandbits_1_bit : forall g, bit (fst (getrandbits 1 g)).


Lemma secure_random_bit s b s' :
  secure_random s = (Ret b, s') -> bit b /\ key_pool s' = key_pool s.
Proof.
  unfold secure_random. pose proof (getrandbits_1_bit (rng s)) as H.
  destruct (getrandbits 1 (rng s)) as [x g]. intros [= <- <-]. now split.
Qed.

Lemma draw_secure_random_bits n : forall s l s',
  draw n secure_random s = (Ret l, s') ->
  Forall bit l /\ key_pool s' = key_pool s.
Proof.
  induction n as [|n IH]; intros s l s'; simpl.
  - intros [= <- <-]. split; [constructor | reflexivity].
  - intros H. apply bind_ret_inv in H as (b & s1 & E1 & H).
    apply bind_ret_inv in H as (l' & s2 & E2 & H).
    injection H as <- <-.
    apply secure_random_bit in E1 as [Hb K1]. apply IH in E2 as [Hl K2].
    split; [now constructor | congruence].
Qed.

Lemma sift_bits self alice_bits : forall st alice_bases bob_bases received,
  Forall bit alice_bits -> Forall bit (sifted_key st) ->
  Forall bit (sifted_key (sift self st alice_bits alice_bases bob_bases
                            received)).
Proof.
  induction alice_bits as [|a bits IH]; intros st sbs rbs rc Ha Hs;
    [exact Hs|].
  destruct sbs as [|sb sbs]; [exact Hs|]. destruct rbs as [|rb rbs]; [exact Hs|].
  destruct rc as [|r rc]; [exact Hs|]. inversion Ha; subst.
  simpl. apply IH; [assumption|]. unfold sift_step.
  destruct (str_eqb sb rb); [|exact Hs].
  destruct (_ <? _)%nat; simpl; [exact Hs|].
  apply Forall_app. split; [exact Hs | now constructor].
Qed.

Lemma attempt_bits self s st s' :
  attempt self s = (Ret st, s') ->
  Forall bit (sifted_key st) /\ key_pool s' = key_pool s.
Proof.
  intros H. split; [|now apply attempt_ret in H]. revert H.
  unfold attempt. intros H.
  apply bind_ret_inv in H as (ab & s1 & E1 & H).
  apply bind_ret_inv in H as (sb & s2 & E2 & H).
  apply bind_ret_inv in H as (rb & s3 & E3 & H).
  apply bind_ret_inv in H as (rc & s4 & E4 & H).
  apply bind_ret_inv in H as (u1 & s5 & _ & H).
  apply bind_ret_inv in H as (u2 & s6 & _ & H).
  apply bind_ret_inv in H as (u3 & s7 & _ & H).
  injection H as <- _.
  apply draw_secure_random_bits in E1 as [Hb K1].
  apply sift_bits; [assumption | constructor].
Qed.

Lemma generate_key_loop_bits self remaining : forall retry_count s r s',
  generate_key_loop self remaining retry_count s = (Ret r, s') ->
  key_pool s' = key_pool s
  /\ match fst r with Some key => Forall bit key | None => True end.
Proof.
  induction remaining as [|rem IH]; intros rc s r s'; simpl.
  - intros [= <- <-]. now split.
  - intros H. apply bind_ret_inv in H as (st & s1 & E1 & H).
    apply attempt_bits in E1 as [Hb K1].
    destruct (total_matched st =? 0).
    { apply IH in H as [K2 Hr]. split; [congruence | exact Hr]. }
    destruct (accepted self st).
    { injection H as <- <-. now split. }
    apply bind_ret_inv in H as (u & s2 & E2 & H).
    unfold print in E2. injection E2 as _ <-.
    apply IH in H as [K2 Hr]. split; [simpl in K2; congruence | exact Hr].
Qed.

(** The retry loop returns, or stops at the division by zero of an attempt
    without qubits, the pool untouched. *)
Lemma generate_key_loop_returns self remaining : forall retry_count s,
  exists r s',
    generate_key_loop self remaining retry_count s = (r, s')
    /\ key_pool s' = key_pool s
    /\ (r = Raise ZeroDivisionError \/ exists v, r = Ret v).
Proof.
  induction remaining as [|rem IH]; intros rc s; simpl.
  - unfold ret. eexists _, _. split; [reflexivity|]. split; eauto.
  - unfold bind at 1.
    destruct (attempt_run self s) as (st & s1 & W & _ & E). rewrite E.
    destruct W as (K & _).
    destruct (num_qubits self).
    { eexists _, _. split; [reflexivity|]. split; [exact K | now left]. }
    destruct (total_matched st =? 0).
    { destruct (IH (S rc) (set_stdout (stdout s1 ++ [PrintSifting]) s1))
        as (r & s' & El & Kl & Hl).
      exists r, s'. split; [exact El|]. split; [|exact Hl].
      rewrite Kl. exact K. }
    destruct (accepted self st).
    { unfold ret. eexists _, _. split; [reflexivity|]. split; [exact K|eauto]. }
    unfold bind, print.
    match goal with
    | |- context [generate_key_loop self rem (S rc) ?x] =>
        destruct (IH (S rc) x) as (r & s' & El & Kl & Hl)
    end.
    exists r, s'. split; [exact El|]. split; [|exact Hl].
    rewrite Kl. exact K.
Qed.

Lemma generate_key_bits self s r s' :
  generate_key self s = (Ret r, s') ->
  key_pool s' = key_pool s
  /\ match fst r with Some key => Forall bit key | None => True end.
Proof.
  unfold generate_key. intros H.
  apply try_except_ret_inv in H as [H|(e & s1 & E & H)].
  - eapply generate_key_loop_bits; eauto.
  - destruct (generate_key_loop_returns self max_retries 0 s)
      as (x & sx & Ex & K & _).
    rewrite E in Ex. apply pair_equal_spec in Ex as [_ <-].
    unfold bind, print, ret in H. apply pair_equal_spec in H as [H <-].
    injection H as <-. split; [exact K | exact I].
Qed.

Lemma generate_key_returns self s :
  exists r s', generate_key self s = (Ret r, s').
Proof.
  unfold generate_key, try_except.
  destruct (generate_key_loop_returns self max_retries 0 s)
    as (x & sx & Ex & _ & [->|[v ->]]); rewrite Ex.
  - unfold bind, print, ret. eauto.
  - eauto.
Qed.

Lemma generate_key_pool_loop_bits self fuel : forall needed current s r s',
  pool_of_bits s ->
  generate_key_pool_loop self fuel needed current s = (r, s') ->
  pool_of_bits s'.
Proof.
  induction fuel as [|fuel IH]; intros needed current s r s' Hp; simpl.
  - destruct (current <? needed)%nat; intros [= <- <-]; exact Hp.
  - destruct (current <? needed)%nat; [|intros [= <- <-]; exact Hp].
    unfold bind at 1. unfold print at 1. unfold bind at 1.
    destruct (generate_key_returns self
                (set_stdout (stdout s ++ [PrintGeneratingKeys current needed])
                   s)) as (x & s1 & E).
    rewrite E. apply generate_key_bits in E as [K Hx].
    assert (Hp1 : pool_of_bits s1)
      by (unfold pool_of_bits in *; rewrite K; exact Hp).
    destruct (fst x) as [[|b key]|]; try (intros [= <- <-]; exact Hp1).
    unfold bind at 1. apply IH. unfold pool_of_bits. simpl.
    apply Forall_app. split; [exact Hp1 | now constructor].
Qed.

Lemma generate_key_pool_bits self needed s r s' :
  pool_of_bits s -> generate_key_pool self needed s = (r, s') ->
  pool_of_bits s'.
Proof.
  intros Hp. unfold generate_key_pool, try_except.
  destruct (generate_key_pool_loop self needed needed
              (length (concat (key_pool s))) s) as [[x|e] s1] eqn:E.
  - intros [= <- <-]. eapply generate_key_pool_loop_bits; eauto.
  - apply generate_key_pool_loop_bits in E; [|exact Hp].
    destruct e; unfold bind, print, ret; intros [= <- <-]; exact E.
Qed.

Lemma get_key_loop_bits self fuel : forall length_ result s k s',
  pool_of_bits s -> Forall bit result ->
  get_key_loop self fuel length_ result s = (Ret k, s') ->
  pool_of_bits s' /\ Forall bit k /\ (length_ <= length k)%nat.
Proof.
  induction fuel as [|fuel IH]; intros len result s k s' Hp Hr; simpl.
  - destruct (Nat.ltb_spec (length result) len) as [Hlt|Hge]; [discriminate|].
    intros [= <- <-]. auto.
  - destruct (Nat.ltb_spec (length result) len) as [Hlt|Hge].
    2:{ intros [= <- <-]. auto. }
    intros H. apply bind_ret_inv in H as (u & s1 & E1 & H).
    assert (Hp1 : pool_of_bits s1).
    { destruct (key_pool s) eqn:Ek.
      - apply bind_ret_inv in E1 as (ok & s2 & E2 & E1).
        apply generate_key_pool_bits in E2; [|exact Hp].
        destruct ok; [|discriminate]. injection E1 as _ <-. exact E2.
      - injection E1 as _ <-. exact Hp. }
    destruct (key_pool s1) as [|current_key rest] eqn:Ek; [discriminate|].
    unfold pool_of_bits in Hp1. rewrite Ek in Hp1.
    inversion Hp1 as [|? ? Hc Hrest]; subst.
    destruct (_ <=? _)%nat.
    + apply IH in H; auto. apply Forall_app. now split.
    + apply IH in H; auto.
      * unfold pool_of_bits. simpl. constructor; [|exact Hrest].
        rewrite <- (firstn_skipn (len - length result) current_key) in Hc.
        now apply Forall_app in Hc.
      * apply Forall_app. split; [exact Hr|].
        rewrite <- (firstn_skipn (len - length result) current_key) in Hc.
        now apply Forall_app in Hc.
Qed.

Lemma get_key_from_pool_bits self n s k s' :
  pool_of_bits s -> get_key_from_pool self n s = (Ret k, s') ->
  pool_of_bits s' /\ Forall bit k /\ (n <= length k)%nat.
Proof.
  intros Hp H. eapply get_key_loop_bits; eauto.
Qed.

(** *** The bounds given to the loops are never reached *)

Lemma generate_key_returns_pool self s :
  exists r s', generate_key self s = (Ret r, s') /\ key_pool s' = key_pool s.
Proof.
  unfold generate_key, try_except.
  destruct (generate_key_loop_returns self max_retries 0 s)
    as (x & sx & Ex & K & [->|[v ->]]); rewrite Ex.
  - unfold bind, print, ret. eexists _, _. split; [reflexivity | exact K].
  - eauto.
Qed.

(** A refill returns, having appended at most as many segments as bits
    were missing, none of them empty in effect: when it answers [True] the
    pool holds what was asked. *)
Lemma generate_key_pool_loop_fuel self fuel : forall needed current s,
  (needed - current <= fuel)%nat ->
  exists ok s' added,
    generate_key_pool_loop self fuel needed current s = (Ret ok, s')
    /\ key_pool s' = key_pool s ++ added
    /\ (length added <= needed - current)%nat
    /\ (ok = true -> (needed <= current + length (concat added))%nat).
Proof.
  induction fuel as [|fuel IH]; intros needed current s Hf.
  - simpl. destruct (Nat.ltb_spec current needed) as [Hlt|Hge]; [lia|].
    exists true, s, []. rewrite app_nil_r. simpl. repeat split; lia.
  - simpl. destruct (Nat.ltb_spec current needed) as [Hlt|Hge].
    2:{ exists true, s, []. rewrite app_nil_r. simpl. repeat split; lia. }
    unfold bind at 1. unfold print at 1. unfold bind at 1.
    destruct (generate_key_returns_pool self
                (set_stdout (stdout s ++ [PrintGeneratingKeys current needed])
                   s)) as (x & s1 & E & K).
    rewrite E. cbn [key_pool set_stdout] in K.
    destruct (fst x) as [[|b key]|].
    + exists false, s1, []. rewrite app_nil_r. unfold ret.
      split; [reflexivity|]. split; [exact K|].
      split; [simpl; lia | intros H; discriminate H].
    + unfold bind at 1.
      destruct (IH needed (current + length (b :: key))%nat
                  (set_key_pool (key_pool s1 ++ [b :: key]) s1))
        as (ok & s' & added & El & Kl & La & Ha); [simpl; lia|].
      exists ok, s', ((b :: key) :: added). split; [exact El|].
      split; [|split].
      * rewrite Kl. cbn [key_pool set_key_pool].
        rewrite K, <- app_assoc. reflexivity.
      * simpl in La |- *. lia.
      * intros Hok. specialize (Ha Hok). cbn [concat].
        rewrite length_app. lia.
    + exists false, s1, []. rewrite app_nil_r. unfold ret.
      split; [reflexivity|]. split; [exact K|].
      split; [simpl; lia | intros H; discriminate H].
Qed.

Lemma generate_key_pool_fuel self needed s :
  exists ok s' added,
    generate_key_pool self needed s = (Ret ok, s')
    /\ key_pool s' = key_pool s ++ added
    /\ (length added <= needed - length (concat (key_pool s)))%nat
    /\ (ok = true ->
        (needed <= length (concat (key_pool s)) + length (concat added))%nat).
Proof.
  unfold generate_key_pool, try_except.
  destruct (generate_key_pool_loop_fuel self needed needed
              (length (concat (key_pool s))) s)
    as (ok & s' & added & E & H); [lia|].
  rewrite E. eauto.
Qed.

(** The passes of [get_key_from_pool]: each one pops a segment or is the
    last, and a refill brings no more segments than bits are missing. *)
Lemma get_key_loop_fuel self fuel : forall length_ result s,
  (length (key_pool s)
   + (length_ - length result - length (concat (key_pool s))) < fuel)%nat ->
  exists r s',
    get_key_loop self fuel length_ result s = (r, s')
    /\ r <> Raise OutOfFuel.
Proof.
  induction fuel as [|fuel IH]; intros len result s Hf; [lia|].
  assert (Hpass : forall s1 k rest,
             key_pool s1 = k :: rest ->
             (length result < len)%nat ->
             (length (k :: rest)
              + (len - length result - length (concat (k :: rest)))
              < S fuel)%nat ->
             exists r s',
               (if (length k <=? len - length result)%nat
                then get_key_loop self fuel len (result ++ k)
                       (set_key_pool rest s1)
                else get_key_loop self fuel len
                       (result ++ firstn (len - length result) k)
                       (set_key_pool (skipn (len - length result) k :: rest)
                          s1)) = (r, s')
               /\ r <> Raise OutOfFuel).
  { intros s1 k rest Ek Hlt Hm. cbn [length concat] in Hm.
    rewrite length_app in Hm.
    destruct (Nat.leb_spec (length k) (len - length result)) as [Hk|Hk].
    - apply IH. cbn [key_pool set_key_pool]. rewrite length_app. lia.
    - rewrite get_key_loop_done.
      + eexists _, _. split; [reflexivity | discriminate].
      + rewrite length_app, length_firstn. lia. }
  simpl get_key_loop.
  destruct (Nat.ltb_spec (length result) len) as [Hlt|Hge].
  2:{ eexists _, _. split; [reflexivity | discriminate]. }
  unfold bind at 1.
  destruct (key_pool s) as [|k rest] eqn:Ek.
  - unfold bind at 1.
    destruct (generate_key_pool_fuel self (len - length result) s)
      as (ok & s1 & added & E & K & La & Ha).
    rewrite E. rewrite Ek in K, La, Ha. simpl in K, La, Ha.
    destruct ok.
    + unfold ret at 1. specialize (Ha eq_refl).
      destruct added as [|k rest]; [simpl in Ha; lia|].
      rewrite K. apply (Hpass s1 k rest K Hlt).
      cbn [length concat] in Hf, La, Ha |- *. rewrite length_app in *. lia.
    + unfold raise. eexists _, _. split; [reflexivity | discriminate].
  - rewrite Ek. apply (Hpass s k rest Ek Hlt). exact Hf.
Qed.

(** [get_key_from_pool] returns or raises an exception of the program. *)
Lemma get_key_from_pool_fuel self length_ s :
  exists r s',
    get_key_from_pool self length_ s = (r, s') /\ r <> Raise OutOfFuel.
Proof.
  unfold get_key_from_pool. apply get_key_loop_fuel. simpl. lia.
Qed.

End KeysOfBits.

(** ** The text of a container *)

Section ContainerText.
Context {P : Platform}.

(** *** [strip] *)

Lemma lstrip_keeps c r : isspace c = false -> lstrip (c :: r) = c :: r.
Proof. intros H. simpl. now rewrite H. Qed.

Lemma strip_unchanged c r r' z :
  isspace c = false -> isspace z = false -> c :: r = r' ++ [z] ->
  strip (c :: r) = c :: r.
Proof.
  intros Hc Hz E. unfold strip. rewrite (lstrip_keeps c r Hc).
  rewrite E, rev_app_distr. simpl rev at 2. cbn [app].
  rewrite (lstrip_keeps z _ Hz).
  change (z :: rev r') with (rev [z] ++ rev r').
  now rewrite <- rev_app_distr, rev_involutive.
Qed.

Lemma lstrip_not_nil s c : In c s -> isspace c = false -> lstrip s <> [].
Proof.
  induction s as [|x s IH]; intros Hin Hc; [destruct Hin|]. simpl.
  destruct (isspace x) eqn:E; [|discriminate].
  destruct Hin as [->|Hin]; [congruence | now apply IH].
Qed.

Lemma lstrip_in s c : In c (lstrip s) -> In c s.
Proof.
  induction s as [|x s IH]; [auto|]. simpl.
  destruct (isspace x); [right; auto | auto].
Qed.

Lemma lstrip_keeps_in s c : In c s -> isspace c = false -> In c (lstrip s).
Proof.
  induction s as [|x s IH]; intros Hin Hc; [destruct Hin|]. simpl.
  destruct (isspace x) eqn:E; [|exact Hin].
  destruct Hin as [->|Hin]; [congruence | now apply IH].
Qed.

Lemma strip_not_nil c r : isspace c = false -> strip (c :: r) <> [].
Proof.
  intros Hc. unfold strip. rewrite (lstrip_keeps c r Hc).
  intros E. apply (f_equal (@rev Z)) in E. rewrite rev_involutive in E.
  simpl rev at 2 in E. revert E. apply lstrip_not_nil with (c := c); [|exact Hc].
  apply in_rev. rewrite rev_involutive. now left.
Qed.

(** *** The characters of the container *)

Lemma join_in sep parts c :
  In c (join sep parts) ->
  In c sep \/ exists p, In p parts /\ In c p.
Proof.
  induction parts as [|p rest IH]; [intros []|].
  destruct rest as [|q rest].
  - simpl. intros H. right. exists p. split; [now left | exact H].
  - change (join sep (p :: q :: rest)) with (p ++ sep ++ join sep (q :: rest)).
    intros H. apply in_app_or in H as [H|H].
    + right. exists p. split; [now left | exact H].
    + apply in_app_or in H as [H|H]; [now left|].
      destruct (IH H) as [|(p' & Hp & Hc)]; [now left|].
      right. exists p'. split; [now right | exact Hc].
Qed.

Lemma hex_digit_not_at d : hex_digit d <> 64.
Proof. unfold hex_digit. destruct (Z.ltb_spec d 10); lia. Qed.

Lemma hex_digit_char d : 0 <= d < 16 -> hex_char (hex_digit d).
Proof. unfold hex_digit, hex_char. destruct (Z.ltb_spec d 10); lia. Qed.

Lemma format_02x_no_at b : ~ In 64 (format_02x b).
Proof.
  unfold format_02x. intros [H|[H|[]]]; now apply hex_digit_not_at in H.
Qed.

Lemma hex_no_at bs : ~ In 64 (flat_map format_02x bs).
Proof.
  intros H. apply in_flat_map in H as (b & _ & H).
  now apply format_02x_no_at in H.
Qed.

Lemma hex_chars bs : Forall byte bs -> Forall hex_char (flat_map format_02x bs).
Proof.
  induction 1 as [|b bs Hb _ IH]; [constructor|]. unfold byte in Hb.
  simpl. constructor; [apply hex_digit_char; divmod|].
  constructor; [apply hex_digit_char; divmod | exact IH].
Qed.

Lemma firstn_in {A} n (l : list A) x : In x (firstn n l) -> In x l.
Proof.
  intros H. rewrite <- (firstn_skipn n l). apply in_or_app. now left.
Qed.

Lemma py_str_chars n : Forall numeral_char (py_str n).
Proof.
  destruct n as [|p|p].
  - constructor; [left; unfold digit_below; lia | constructor].
  - destruct (py_str_nonneg (Z.pos p)) as (D & _); [lia|].
    eapply Forall_impl; [|exact D]. now left.
  - simpl. constructor; [now right|].
    destruct (dec_digits_spec (Pos.to_nat (Pos.size p)) (Z.pos p)) as (D & _).
    { split; [lia | apply pos_lt_pow_size]. }
    eapply Forall_impl; [|exact D]. now left.
Qed.

Lemma pad_left_digits w s :
  Forall (digit_below 10) s -> Forall (digit_below 10) (pad_left w s).
Proof.
  intros H. unfold pad_left. apply Forall_app. split; [|exact H].
  apply repeat_Forall. unfold digit_below. lia.
Qed.

Lemma strftime_digits t : Forall (digit_below 10) (strftime t).
Proof.
  unfold strftime.
  do 5 (apply Forall_app;
        split; [apply pad_left_digits; apply py_str_nonneg; lia|]).
  apply pad_left_digits; apply py_str_nonneg; lia.
Qed.

Lemma strftime_head t : exists c r, strftime t = c :: r /\ digit_below 10 c.
Proof.
  pose proof (strftime_digits t) as H.
  destruct (strftime t) as [|c r] eqn:E.
  - exfalso. unfold strftime in E. apply app_eq_nil in E as [E _].
    unfold pad_left in E. apply app_eq_nil in E as [_ E].
    destruct (py_str_nonneg (Z.of_nat (year t))) as (_ & N & _); [lia|].
    contradiction.
  - inversion H; subst. eauto.
Qed.

Lemma digit_not_space c : digit_below 10 c -> isspace c = false.
Proof.
  unfold digit_below, isspace. intros H.
  repeat match goal with
         | |- context [Z.leb ?a ?b] => destruct (Z.leb_spec a b); try lia
         | |- context [Z.eqb ?a ?b] => destruct (Z.eqb_spec a b); try lia
         end; reflexivity.
Qed.

End ContainerText.

(** ** The transport mask and the key mask *)

Section Transport.
Context {P : Platform}.

(** *** The transport mask *)

Lemma py_int_16_single c d : py_int 16 [c] = Some d -> 0 <= d < 16.
Proof.
  unfold py_int. cbn [to_ascii_literal].
  destruct (if c <? 128 then Some c else _) as [a|]; [|discriminate].
  cbn [skip_c_space]. destruct (is_c_space a).
  { cbn. discriminate. }
  unfold split_sign.
  destruct (a =? 43); [cbn; discriminate|].
  destruct (a =? 45); [cbn; discriminate|].
  cbn [fst snd skip_prefix parse_digits].
  destruct (a =? 95); [discriminate|].
  cbn [scan_digits]. destruct (a =? 95); [discriminate|].
  destruct (digit_value a) as [v|] eqn:Ev; [|discriminate].
  destruct (Z.ltb_spec v 16) as [Hv|Hv]; [|discriminate].
  cbn [skip_c_space]. intros K%some_inj.
  apply digit_value_range in Ev. lia.
Qed.

Lemma transport_digit_range transport_key i d :
  transport_digit transport_key i = Some d -> 0 <= d < 16.
Proof.
  unfold transport_digit. destruct transport_key; [discriminate|].
  apply py_int_16_single.
Qed.

Lemma lxor_byte a d : byte a -> 0 <= d < 16 -> byte (Z.lxor a d).
Proof.
  unfold byte. intros Ha Hd. split; [apply Z.lxor_nonneg; lia|].
  destruct (Z.eq_dec (Z.lxor a d) 0) as [->|N]; [lia|].
  assert (0 < Z.lxor a d) by (pose proof (proj2 (Z.lxor_nonneg a d)); lia).
  change 256 with (2 ^ 8). apply Z.log2_lt_pow2; [assumption|].
  pose proof (Z.log2_lxor a d) as L.
  assert (Z.log2 a < 8).
  { destruct (Z.eq_dec a 0) as [->|]; [reflexivity|].
    apply Z.log2_lt_pow2; lia. }
  assert (Z.log2 d < 8).
  { destruct (Z.eq_dec d 0) as [->|]; [reflexivity|].
    apply Z.log2_lt_pow2; lia. }
  lia.
Qed.

Lemma lxor_twice a d : Z.lxor (Z.lxor a d) d = a.
Proof. now rewrite Z.lxor_assoc, Z.lxor_nilpotent, Z.lxor_0_r. Qed.

Lemma xor_transport_spec transport_key data : forall i out,
  xor_transport transport_key i data = Some out ->
  Forall byte data ->
  Forall byte out /\ xor_transport transport_key i out = Some data.
Proof.
  induction data as [|b data IH]; intros i out; simpl.
  - intros H%some_inj _. subst. now split.
  - destruct (transport_digit transport_key i) as [d|] eqn:Ed; [|discriminate].
    destruct (xor_transport transport_key (S i) data) as [r|] eqn:Er;
      [|discriminate].
    intros H%some_inj Hb. subst out. inversion Hb; subst.
    destruct (IH _ _ Er) as [Hr Hx]; [assumption|].
    apply transport_digit_range in Ed as Hd. split.
    + constructor; [now apply lxor_byte | exact Hr].
    + simpl. now rewrite Ed, Hx, lxor_twice.
Qed.

(** *** Hexadecimal *)

Lemma digit_value_hex_digit d :
  0 <= d < 16 -> digit_value (hex_digit d) = Some d.
Proof.
  intros H. unfold hex_digit, digit_value.
  destruct (Z.ltb_spec d 10).
  - destruct (Z.leb_spec 48 (48 + d)); [|lia].
    destruct (Z.leb_spec (48 + d) 57); [|lia]. cbn [andb]. f_equal. lia.
  - destruct (Z.leb_spec 48 (87 + d)); [|lia].
    destruct (Z.leb_spec (87 + d) 57); [lia|]. cbn [andb].
    destruct (Z.leb_spec 97 (87 + d)); [|lia].
    destruct (Z.leb_spec (87 + d) 122); [|lia]. cbn [andb]. f_equal. lia.
Qed.

Lemma hex_digit_not_c_space d : 0 <= d < 16 -> is_c_space (hex_digit d) = false.
Proof.
  intros H. apply digit_not_c_space. unfold hex_digit.
  destruct (Z.ltb_spec d 10); lia.
Qed.

Lemma fromhex_hex bs :
  Forall byte bs -> fromhex (flat_map format_02x bs) = Some bs.
Proof.
  unfold fromhex. induction 1 as [|b bs Hb _ IH]; [reflexivity|].
  unfold byte in Hb.
  change (flat_map format_02x (b :: bs))
    with (hex_digit (b / 16) :: hex_digit (b mod 16)
          :: flat_map format_02x bs).
  cbn [fromhex_from].
  rewrite hex_digit_not_c_space, digit_value_hex_digit by divmod.
  destruct (Z.ltb_spec (b / 16) 16); [|divmod].
  rewrite digit_value_hex_digit by divmod.
  destruct (Z.ltb_spec (b mod 16) 16); [|divmod].
  rewrite IH. do 2 f_equal. divmod.
Qed.

(** *** Masking with bits *)

Lemma mask_chars text : forall key bits,
  mask text key = Some bits -> Forall numeral_char (concat bits).
Proof.
  induction text as [|a text IH]; intros key bits; simpl.
  - intros H%some_inj. subst. constructor.
  - destruct key as [|b key]; [intros H%some_inj; subst; constructor|].
    destruct (py_int 10 [a]) as [v|]; [|discriminate].
    destruct (mask text key) as [rest|] eqn:E; [|discriminate].
    intros H%some_inj. subst. simpl. apply Forall_app.
    split; [apply py_str_chars | eapply IH; eauto].
Qed.

Lemma mask_bit a b :
  a = 48 \/ a = 49 -> bit b ->
  exists c, (c = 48 \/ c = 49)
            /\ py_int 10 [a] = Some (a - 48)
            /\ py_str (Z.lxor (a - 48) b) = [c]
            /\ py_int 10 [c] = Some (c - 48)
            /\ py_str (Z.lxor (c - 48) b) = [a].
Proof.
  intros [-> | ->] [-> | ->]; cbn.
  - exists 48. repeat split; auto.
  - exists 49. repeat split; auto.
  - exists 49. repeat split; auto.
  - exists 48. repeat split; auto.
Qed.

Lemma mask_twice binary : forall key bits,
  Forall (digit_below 2) binary -> Forall bit key ->
  (length binary <= length key)%nat ->
  mask binary key = Some bits ->
  exists bits', mask (concat bits) key = Some bits'
                /\ concat bits' = binary
                /\ Forall (digit_below 2) (concat bits).
Proof.
  induction binary as [|a binary IH]; intros key bits Hd Hk Hl; simpl.
  - intros H%some_inj. subst. exists []. repeat split. constructor.
  - destruct key as [|b key]; [simpl in Hl; lia|].
    inversion Hd as [|? ? Ha Hd']; subst. inversion Hk as [|? ? Hb Hk']; subst.
    destruct (mask_bit a b) as (c & Hc & E1 & E2 & E3 & E4);
      [unfold digit_below in Ha; lia | exact Hb |].
    rewrite E1, E2.
    destruct (mask binary key) as [rest|] eqn:Er; [|discriminate].
    intros H%some_inj. subst bits.
    destruct (IH key rest Hd' Hk') as (bits' & Em & Ec & Hx);
      [simpl in Hl; lia | exact Er |].
    cbn [concat app]. cbn [mask]. rewrite E3, E4, Em.
    exists ([a] :: bits'). split; [reflexivity|]. split.
    + simpl. now rewrite Ec.
    + constructor; [unfold digit_below; lia | exact Hx].
Qed.

End Transport.

(** ** Keys and chunks *)

Section Chunks.
Context {P : Platform}.

(** *** A key as it is stored and recovered *)

Lemma py_str_head n :
  0 <= n -> exists c r, py_str n = c :: r /\ digit_below 10 c.
Proof.
  intros H. destruct (py_str_nonneg n H) as (D & N & _).
  destruct (py_str n) as [|c r]; [congruence|]. inversion D; subst. eauto.
Qed.

Lemma parse_key_py_str key :
  Forall (fun b => 0 <= b) key -> parse_key (map py_str key) = Some key.
Proof.
  induction 1 as [|b key Hb _ IH]; [reflexivity|].
  simpl. destruct (py_str_head b Hb) as (c & r & E & Hc).
  destruct (strip (py_str b)) eqn:Es.
  - rewrite E in Es. now apply strip_not_nil in Es; [|apply digit_not_space].
  - now rewrite py_int_py_str, IH.
Qed.

Lemma numeral_char_not c x :
  numeral_char c -> x < 45 \/ 45 < x < 48 \/ 57 < x -> c <> x.
Proof. unfold numeral_char, digit_below. lia. Qed.

Lemma py_str_no c n : c < 45 \/ 45 < c < 48 \/ 57 < c -> ~ In c (py_str n).
Proof.
  intros Hc Hin. pose proof (py_str_chars n) as H.
  rewrite Forall_forall in H. apply H in Hin.
  now apply (numeral_char_not _ c) in Hin.
Qed.

Lemma split_comma_join key :
  key <> [] -> split COMMA (join COMMA (map py_str key)) = map py_str key.
Proof.
  intros Hne. change COMMA with [44]. apply split_join.
  - destruct key; [congruence | discriminate].
  - apply Forall_forall. intros q Hq. apply in_map_iff in Hq as (b & <- & _).
    apply py_str_no. lia.
Qed.

Lemma recover_encrypt_key transport_key key encrypted_key :
  encrypt_key transport_key key = Some encrypted_key ->
  key <> [] -> Forall (fun b => 0 <= b) key ->
  recover_chunk_key transport_key encrypted_key = Some key
  /\ Forall hex_char encrypted_key.
Proof.
  unfold encrypt_key, recover_chunk_key. intros H Hne Hk.
  destruct (utf8_encode (join COMMA (map py_str key))) as [kb|] eqn:Ek;
    [|discriminate].
  destruct (xor_transport transport_key 0 kb) as [x|] eqn:Ex; [|discriminate].
  apply some_inj in H. subst encrypted_key.
  destruct (xor_transport_spec _ _ _ _ Ex) as [Hx Eback].
  { eapply utf8_encode_bytes; eauto. }
  split; [|now apply hex_chars].
  rewrite fromhex_hex by exact Hx. rewrite Eback.
  rewrite (utf8_decode_encode Ignore _ _ Ek).
  rewrite split_comma_join by exact Hne. now apply parse_key_py_str.
Qed.

(** *** Chunks of a message *)

Lemma chunks_of_spec {A} n : (0 < n)%nat -> forall fuel (s : list A),
  (length s <= fuel)%nat ->
  concat (chunks_of fuel n s) = s
  /\ Forall (fun c => c <> [] /\ (length c <= n)%nat) (chunks_of fuel n s).
Proof.
  intros Hn. induction fuel as [|fuel IH]; intros s Hs.
  - destruct s; [split; [reflexivity | constructor] | simpl in Hs; lia].
  - destruct s as [|x s]; [split; [reflexivity | constructor]|].
    cbn [chunks_of].
    destruct (IH (skipn n (x :: s))) as [Ec Hc].
    { rewrite length_skipn. cbn [length] in Hs |- *. lia. }
    split.
    + cbn [concat]. rewrite Ec. apply firstn_skipn.
    + constructor; [|exact Hc]. split.
      * destruct n; [lia | discriminate].
      * rewrite length_firstn. lia.
Qed.

Lemma chunks_of_not_nil {A} n (s : list A) :
  s <> [] -> chunks_of (length s) n s <> [].
Proof. destruct s; [congruence | discriminate]. Qed.

(** *** Normalisation never lengthens a text *)

Lemma join_cons_length sep x r :
  (length (join sep (x :: r)) <= length x + length sep + length (join sep r))%nat.
Proof.
  destruct r as [|y r]; [simpl; lia|].
  change (join sep (x :: y :: r)) with (x ++ sep ++ join sep (y :: r)).
  rewrite !length_app. lia.
Qed.

Lemma split_ws_from_length s : forall cur,
  (length (join SPACE (split_ws_from cur s)) <= length cur + length s)%nat.
Proof.
  induction s as [|c s IH]; intros cur; simpl.
  - destruct cur; simpl; lia.
  - destruct (isspace c).
    + destruct cur as [|k cur].
      * specialize (IH []). simpl in IH. lia.
      * pose proof (join_cons_length SPACE (k :: cur) (split_ws_from [] s)).
        specialize (IH []). simpl in *. lia.
    + specialize (IH (cur ++ [c])). rewrite length_app in IH. simpl in IH. lia.
Qed.

Lemma normalize_line_length line :
  (length (normalize_line line) <= length line)%nat.
Proof. apply (split_ws_from_length line []). Qed.

Lemma join_split_LF s : forall cur,
  join LF (split_from LF 0 cur s) = cur ++ s.
Proof.
  induction s as [|x s IH]; intros cur.
  - simpl. now rewrite app_nil_r.
  - cbn [split_from].
    change (starts_with LF (x :: s)) with ((10 =? x) && true).
    destruct (Z.eqb_spec 10 x) as [<-|N].
    + cbn [andb]. change (length LF - 1)%nat with 0%nat.
      pose proof (split_from_not_nil LF s 0 []) as Hne.
      destruct (split_from LF 0 [] s) as [|p ps] eqn:E; [congruence|].
      change (join LF (cur :: p :: ps)) with (cur ++ LF ++ join LF (p :: ps)).
      rewrite <- E, IH. reflexivity.
    + cbn [andb]. rewrite IH, <- app_assoc. reflexivity.
Qed.

Lemma join_map_length (f : str -> str) pieces :
  (forall p, (length (f p) <= length p)%nat) ->
  (length (join LF (map f pieces)) <= length (join LF pieces))%nat.
Proof.
  intros Hf. induction pieces as [|p rest IH]; [simpl; lia|].
  destruct rest as [|q rest]; [apply Hf|].
  change (join LF (map f (p :: q :: rest)))
    with (f p ++ LF ++ join LF (map f (q :: rest))).
  change (join LF (p :: q :: rest)) with (p ++ LF ++ join LF (q :: rest)).
  rewrite !length_app. specialize (Hf p). lia.
Qed.

Lemma normalize_length text : (length (normalize text) <= length text)%nat.
Proof.
  unfold normalize.
  eapply Nat.le_trans; [apply join_map_length, normalize_line_length|].
  unfold split. now rewrite join_split_LF.
Qed.

Lemma utf8_encode_length s : forall b,
  utf8_encode s = Some b -> (length b <= 4 * length s)%nat.
Proof.
  induction s as [|c s IH]; intros b; simpl.
  - intros H%some_inj. subst. simpl. lia.
  - destruct (utf8_encode_char c) as [bc|] eqn:Ec; [|discriminate].
    destruct (utf8_encode s) as [bs|]; [|discriminate].
    intros H%some_inj. subst b. rewrite length_app.
    specialize (IH bs eq_refl).
    assert (length bc <= 4)%nat; [|lia].
    unfold utf8_encode_char in Ec.
    repeat match type of Ec with
           | (if ?t then _ else _) = _ => destruct t
           end; try discriminate; apply some_inj in Ec; subst bc; simpl; lia.
Qed.

(** *** One chunk, sealed and opened *)

Lemma text_to_binary_inv chunk binary :
  text_to_binary chunk = Some binary ->
  exists bs, utf8_encode (normalize chunk) = Some bs.
Proof.
  unfold text_to_binary.
  destruct (utf8_encode (normalize chunk)); [eauto | discriminate].
Qed.

Lemma unmask_sealed_chunk chunk binary key bits :
  text_to_binary chunk = Some binary ->
  Z.of_nat (length chunk) < 2 ^ 27 ->
  Forall bit key -> (length binary <= length key)%nat ->
  mask binary key = Some bits ->
  unmask_chunk (concat bits) key
  = match normalize chunk with
    | [] => None
    | c :: t => Some (c :: t)
    end.
Proof.
  intros Eb Hlen Hk Hl Em.
  destruct (text_to_binary_inv _ _ Eb) as (bs & Ee).
  assert (Hsize : 8 * Z.of_nat (length bs) < 2 ^ 32).
  { pose proof (utf8_encode_length _ _ Ee).
    pose proof (normalize_length chunk).
    change (2 ^ 32) with (32 * 2 ^ 27). lia. }
  destruct (frame_bytes_of_text_to_binary chunk bs Ee Hsize)
    as (binary' & Eb' & _ & _ & Hd).
  rewrite Eb in Eb'. apply some_inj in Eb'. subst binary'.
  destruct (mask_twice binary key bits Hd Hk Hl Em) as (bits' & Em' & Ec & _).
  unfold unmask_chunk. rewrite Em', Ec.
  pose proof (binary_to_text_text_to_binary chunk bs Ee Hsize) as Hrt.
  rewrite Eb in Hrt. simpl in Hrt. rewrite Hrt. reflexivity.
Qed.

End Chunks.

(** ** Sealing *)

Section Sealing.
Context {P : Platform}.

(** *** The chunk loop of [encrypt_and_share] *)

Lemma encrypt_chunks_chars self chunks : forall s ecs keys s',
  encrypt_chunks self chunks s = (Ret (Some (ecs, keys)), s') ->
  Forall (Forall numeral_char) ecs
  /\ length ecs = length chunks /\ length keys = length chunks.
Proof.
  induction chunks as [|chunk chunks IH]; intros s ecs keys s'; simpl.
  - intros [= <- <- <-]. repeat split. constructor.
  - destruct (text_to_binary chunk) as [[|b0 binary]|]; try discriminate.
    intros H. apply bind_ret_inv in H as ([key|] & s1 & E1 & H);
      [|discriminate].
    apply bind_ret_inv in H as (bits & s2 & E2 & H).
    apply bind_ret_inv in H as ([[ecs' keys']|] & s3 & E3 & H);
      [|discriminate].
    injection H as <- <- <-.
    apply IH in E3 as (Hc & L1 & L2).
    unfold lift in E2. destruct (mask (b0 :: binary) key) eqn:Em;
      [|discriminate].
    injection E2 as <- <-.
    split; [|simpl; split; congruence].
    constructor; [eapply mask_chars; eauto | exact Hc].
Qed.

Hypothesis getrandbits_1_bit : forall g, bit (fst (getrandbits 1 g)).

Lemma encrypt_chunks_sealed self chunks : forall s ecs keys s',
  pool_of_bits s ->
  encrypt_chunks self chunks s = (Ret (Some (ecs, keys)), s') ->
  sealed_chunks chunks ecs keys.
Proof.
  induction chunks as [|chunk chunks IH]; intros s ecs keys s' Hp; simpl.
  - intros [= <- <- <-]. constructor.
  - destruct (text_to_binary chunk) as [[|b0 binary]|] eqn:Eb;
      try discriminate.
    intros H. apply bind_ret_inv in H as ([key|] & s1 & E1 & H);
      [|discriminate].
    apply bind_ret_inv in H as (bits & s2 & E2 & H).
    apply bind_ret_inv in H as ([[ecs' keys']|] & s3 & E3 & H);
      [|discriminate].
    injection H as <- <- <-.
    unfold lift in E2. destruct (mask (b0 :: binary) key) as [bits0|] eqn:Em;
      [|discriminate].
    injection E2 as <- <-.
    apply try_except_ret_inv in E1 as [E1|(e & sx & _ & E1)].
    2:{ unfold bind, print, ret in E1. discriminate. }
    apply bind_ret_inv in E1 as (k & s1' & E1 & Ek).
    injection Ek as <- <-.
    apply (get_key_from_pool_bits getrandbits_1_bit) in E1 as (Hp1 & Hk & Hl);
      [|exact Hp].
    apply sealed_cons with (binary := b0 :: binary) (bits := bits0);
      [exact Eb | discriminate | exact Hl | exact Hk | exact Em | reflexivity|].
    eapply IH; [exact Hp1 | exact E3].
Qed.

(** *** Sealing, then parsing *)

Lemma encrypt_keys_each transport_key keys : forall all_keys,
  encrypt_keys transport_key keys = Some all_keys ->
  Forall2 (fun key k => encrypt_key transport_key key = Some k) keys all_keys.
Proof.
  induction keys as [|key keys IH]; intros all_keys; simpl.
  - intros H%some_inj. subst. constructor.
  - destruct (encrypt_key transport_key key) as [k|] eqn:Ek; [|discriminate].
    destruct (encrypt_keys transport_key keys) as [r|]; [|discriminate].
    intros H%some_inj. subst. constructor; auto.
Qed.

Lemma encrypt_key_no_at transport_key key k :
  encrypt_key transport_key key = Some k -> ~ In 64 k.
Proof.
  unfold encrypt_key. destruct (utf8_encode _); [|discriminate].
  destruct (xor_transport _ _ _); [|discriminate].
  intros H%some_inj. subst. apply hex_no_at.
Qed.

Lemma sha256_hex_no_at s h : sha256_hex s = Some h -> ~ In 64 h.
Proof.
  unfold sha256_hex. destruct (utf8_encode s); [|discriminate].
  intros H%some_inj. subst. apply hex_no_at.
Qed.

Lemma numeral_no_at s : Forall numeral_char s -> ~ In 64 s.
Proof.
  intros H Hin. rewrite Forall_forall in H. apply H in Hin.
  unfold numeral_char, digit_below in Hin. lia.
Qed.

Lemma digits_no_at s : Forall (digit_below 10) s -> ~ In 64 s.
Proof.
  intros H Hin. rewrite Forall_forall in H. apply H in Hin.
  unfold digit_below in Hin. lia.
Qed.

Lemma join_hashes_no_at parts :
  Forall (fun p => ~ In 64 p) parts -> ~ In 64 (join HASHES parts).
Proof.
  intros H Hin. apply join_in in Hin as [Hin|(p & Hp & Hin)].
  - change HASHES with [35; 35; 35] in Hin. simpl in Hin. lia.
  - rewrite Forall_forall in H. now apply (H p Hp).
Qed.

Lemma parse_container_join ts salt eks em vh cnt c r r' z :
  ts = c :: r -> isspace c = false ->
  cnt = r' ++ [z] -> isspace z = false ->
  Forall (fun p => ~ In 64 p) [ts; salt; eks; em; vh; cnt] ->
  parse_container (join ATS [ts; salt; eks; em; vh; cnt])
  = Some (ts, salt, eks, em, vh, cnt).
Proof.
  intros Ets Hc Ecnt Hz Hno. unfold parse_container.
  assert (Es : strip (join ATS [ts; salt; eks; em; vh; cnt])
               = join ATS [ts; salt; eks; em; vh; cnt]).
  { cbn [join]. rewrite Ets. cbn [app].
    eapply strip_unchanged with (z := z); [exact Hc | exact Hz|].
    rewrite Ecnt.
    change (c :: ?x) with ([c] ++ x).
    rewrite !app_assoc. reflexivity. }
  rewrite Es. change ATS with [64; 64; 64].
  rewrite split_join; [reflexivity | discriminate | exact Hno].
Qed.

Lemma py_str_last n :
  0 <= n -> exists r z, py_str n = r ++ [z] /\ digit_below 10 z.
Proof.
  intros H. destruct (py_str_nonneg n H) as (D & N & _).
  destruct (exists_last N) as (r & z & E). exists r, z. split; [exact E|].
  rewrite E in D. apply Forall_app in D as [_ D]. now inversion D.
Qed.

Lemma seal_parse ts seed ecs keys total fn export tk :
  seal ts seed ecs keys total = Some (fn, export, tk) ->
  Forall (digit_below 10) ts -> ts <> [] ->
  Forall (Forall numeral_char) ecs ->
  exists salt all_keys vh,
    parse_container export
    = Some (ts, salt, join HASHES all_keys, join HASHES ecs, vh,
            py_str (Z.of_nat total))
    /\ derive_transport_key salt ts = Some tk
    /\ encrypt_keys tk keys = Some all_keys
    /\ sha256_hex (ts ++ salt ++ join HASHES all_keys ++ join HASHES ecs)
       = Some vh
    /\ fn = lit "qkd_message_" ++ ts ++ lit ".qk".
Proof.
  unfold seal. intros H Hts Hne Hecs.
  destruct (sha256_hex (py_str seed)) as [seed_hash|] eqn:E1; [|discriminate].
  destruct (derive_transport_key _ ts) as [tk'|] eqn:E2; [|discriminate].
  destruct (encrypt_keys tk' keys) as [all_keys|] eqn:E3; [|discriminate].
  destruct (sha256_hex _) as [vh|] eqn:E4 in H; [|discriminate].
  apply some_inj in H. apply pair_equal_spec in H as [H <-].
  apply pair_equal_spec in H as [<- <-].
  exists (firstn 16 seed_hash), all_keys, vh.
  split; [|repeat split; assumption].
  destruct ts as [|c r]; [congruence|].
  destruct (py_str_last (Z.of_nat total)) as (r' & z & Ez & Hz); [lia|].
  eapply parse_container_join; eauto.
  - apply digit_not_space. now inversion Hts.
  - now apply digit_not_space.
  - apply Forall_cons; [now apply digits_no_at|].
    apply Forall_cons.
    { intros Hin. apply firstn_in in Hin.
      exact (sha256_hex_no_at _ _ E1 Hin). }
    apply Forall_cons.
    { apply join_hashes_no_at. apply encrypt_keys_each in E3.
      clear -E3. induction E3; constructor; auto.
      eapply encrypt_key_no_at; eauto. }
    apply Forall_cons.
    { apply join_hashes_no_at. eapply Forall_impl; [|exact Hecs].
      apply numeral_no_at. }
    apply Forall_cons; [exact (sha256_hex_no_at _ _ E4)|].
    apply Forall_cons; [|apply Forall_nil].
    apply digits_no_at. apply py_str_nonneg. lia.
Qed.

End Sealing.

(** ** Opening *)

Section Opening.
Context {P : Platform}.

(** *** A successful [encrypt_and_share], read backwards *)

(** Reading the message from the console leaves the key pool alone. *)
Lemma get_multiline_input_loop_pool fuel : forall enter_count lines s r s',
  get_multiline_input_loop fuel enter_count lines s = (r, s') ->
  key_pool s' = key_pool s.
Proof.
  induction fuel as [|fuel IH]; intros n lines s r s'; simpl;
    destruct (n <? 4)%nat; try (intros [= <- <-]; reflexivity).
  unfold bind, input. destruct (stdin s) as [|line rest];
    [intros [= <- <-]; reflexivity|].
  destruct (upper_is_CANCEL line); [intros [= <- <-]; reflexivity|].
  destruct (strip line); intros H; apply IH in H; exact H.
Qed.

Lemma state_read_pool message s :
  key_pool (state_read message s) = key_pool s.
Proof.
  destruct message; [|reflexivity]. unfold state_read, get_multiline_input.
  destruct (get_multiline_input_loop _ 0 [] s) as [r s'] eqn:E.
  now apply get_multiline_input_loop_pool in E.
Qed.

Lemma encrypt_and_share_success self message s fn code s1 :
  encrypt_and_share self message s = (Ret (Some fn, Some code), s1) ->
  exists msg s_b ecs keys seed export tk,
    message_read message s = Some msg /\ msg <> []
    /\ (0 < chunk_size self)%nat
    /\ encrypt_chunks self (chunks_of (length msg) (chunk_size self) msg)
         (set_stdin (tl (stdin (state_read message s)))
            (state_read message s))
       = (Ret (Some (ecs, keys)), s_b)
    /\ seal (strftime (now s_b)) seed ecs keys
         (length (chunks_of (length msg) (chunk_size self) msg))
       = Some (fn, export, tk)
    /\ recovery_code_of tk = Some code
    /\ files s1 fn = Some export.
Proof.
  unfold encrypt_and_share. intros H.
  apply try_except_ret_inv in H as [H|(e & sx & _ & H)].
  2:{ unfold bind, print, ret in H. discriminate. }
  apply bind_ret_inv in H as (m0 & s0 & E0 & H).
  assert (Em : message_read message s = m0 /\ state_read message s = s0).
  { unfold message_read, state_read.
    destruct message; [now rewrite E0|].
    unfold ret in E0. apply pair_equal_spec in E0 as [E0 <-].
    injection E0 as <-. now split. }
  destruct Em as [Emsg <-].
  destruct m0 as [[|c0 m]|];
    try (unfold bind, print, ret in H; discriminate).
  destruct (forallb isspace (c0 :: m));
    [unfold bind, print, ret in H; discriminate|].
  apply bind_ret_inv in H as (answer & s_a & Ein & H).
  destruct (negb (lower_is_y answer)); [discriminate|].
  destruct (chunk_size self) as [|cs] eqn:Ecs; [discriminate|].
  apply bind_ret_inv in H as ([[ecs keys]|] & s_b & Eenc & H);
    [|discriminate].
  apply bind_ret_inv in H as (ts & s_c & Ets & H). injection Ets as <- <-.
  apply bind_ret_inv in H as (seed & s_d & Eseed & H).
  apply bind_ret_inv in H as (sealed & s_e & Eseal & H).
  unfold lift in Eseal.
  destruct (seal _ seed ecs keys _) as [[[fn' export] tk]|] eqn:Es;
    [|discriminate].
  unfold ret in Eseal. apply pair_equal_spec in Eseal as [Er <-].
  injection Er as <-.
  apply bind_ret_inv in H as (u & s_f & Ew & H).
  unfold write_file in Ew. apply pair_equal_spec in Ew as [_ <-].
  apply bind_ret_inv in H as (rc & s_g & Erc & H).
  unfold lift in Erc. destruct (recovery_code_of tk) as [rc'|] eqn:Ecode;
    [|discriminate].
  unfold ret in Erc. apply pair_equal_spec in Erc as [Er <-].
  injection Er as <-.
  unfold ret in H. apply pair_equal_spec in H as [H <-].
  injection H as <- <-.
  exists (c0 :: m), s_b, ecs, keys, seed, export, tk.
  split; [exact Emsg|]. split; [discriminate|]. split; [lia|].
  split.
  { unfold input in Ein.
    destruct (stdin (state_read message s)) as [|l rest] eqn:Ei;
      [discriminate|].
    injection Ein as _ <-. exact Eenc. }
  split; [exact Es|]. split; [exact Ecode|].
  simpl. now rewrite str_eqb_refl.
Qed.

(** *** Opening a parsed container *)

Lemma decrypt_wrong_code fn code' s2 content ts salt eks em vh cnt total tk code :
  files s2 fn = Some content ->
  parse_container content = Some (ts, salt, eks, em, vh, cnt) ->
  py_int 10 cnt = Some total ->
  sha256_hex (ts ++ salt ++ eks ++ em) = Some vh ->
  derive_transport_key salt ts = Some tk ->
  recovery_code_of tk = Some code ->
  code' <> code ->
  decrypt_shared_message fn code' s2
  = (Ret None, set_stdout (stdout s2 ++ [PrintRecoveryInvalid]) s2).
Proof.
  intros Hf Hp Hi Hh Hk Hc Hne.
  unfold decrypt_shared_message, try_except.
  unfold bind at 1. unfold read_file. rewrite Hf, Hp.
  unfold bind at 1. rewrite Hi. unfold lift at 1, ret at 1.
  unfold bind at 1. rewrite Hh. unfold lift at 1, ret at 1.
  unfold bind at 1. rewrite str_eqb_refl. unfold ret at 1. cbn [negb].
  unfold bind at 1. rewrite Hk. unfold lift at 1, ret at 1.
  unfold bind at 1. rewrite Hc. unfold lift at 1, ret at 1.
  assert (E : str_eqb code code' = false) by (apply str_eqb_neq; congruence).
  rewrite E. reflexivity.
Qed.

Lemma options_loop_done fuel timestamp text s done rest :
  stdin s = done :: rest -> strip done = lit "3" ->
  options_loop (S fuel) timestamp text s = (Ret tt, set_stdin rest s).
Proof.
  intros Hs Hd. cbn [options_loop]. unfold bind at 1, input. rewrite Hs, Hd.
  reflexivity.
Qed.

Lemma decrypt_right_code fn s2 content ts salt eks em vh cnt tk code
  texts done rest :
  files s2 fn = Some content ->
  parse_container content = Some (ts, salt, eks, em, vh, cnt) ->
  py_int 10 cnt = Some (Z.of_nat (length (split HASHES eks))) ->
  length (split HASHES em) = length (split HASHES eks) ->
  sha256_hex (ts ++ salt ++ eks ++ em) = Some vh ->
  derive_transport_key salt ts = Some tk ->
  recovery_code_of tk = Some code ->
  decrypt_chunks tk (split HASHES eks) (split HASHES em) = Some texts ->
  stdin s2 = done :: rest -> strip done = lit "3" ->
  decrypt_shared_message fn code s2
  = (Ret (Some (concat texts)),
     set_stdin rest
       (set_stdout
          (stdout s2
           ++ [PrintProcessingChunks (Z.of_nat (length (split HASHES eks)));
               PrintDecrypted (concat texts)]) s2)).
Proof.
  intros Hf Hp Hi Hl Hh Hk Hc Hd Hs Hdone.
  unfold decrypt_shared_message, try_except.
  unfold bind at 1. unfold read_file. rewrite Hf, Hp.
  unfold bind at 1. rewrite Hi. unfold lift at 1, ret at 1.
  unfold bind at 1. rewrite Hh. unfold lift at 1, ret at 1.
  unfold bind at 1. rewrite str_eqb_refl. unfold ret at 1. cbn [negb].
  unfold bind at 1. rewrite Hk. unfold lift at 1, ret at 1.
  unfold bind at 1. rewrite Hc. unfold lift at 1, ret at 1.
  rewrite str_eqb_refl. cbn [negb]. rewrite Hl, Z.eqb_refl. cbn [negb orb].
  unfold bind at 1, print at 1. rewrite Hd.
  unfold bind at 1, print at 1. unfold bind at 1.
  erewrite options_loop_done; [|simpl; exact Hs | exact Hdone].
  unfold ret. simpl. rewrite <- app_assoc. reflexivity.
Qed.

End Opening.

(** ** Sealing, then opening *)

Section Container.
Context {P : Platform}.

Lemma seal_opens self message s fn code s1 :
  encrypt_and_share self message s = (Ret (Some fn, Some code), s1) ->
  exists msg s_b ecs keys export tk ts salt all_keys vh,
    message_read message s = Some msg /\ msg <> []
    /\ (0 < chunk_size self)%nat
    /\ encrypt_chunks self (chunks_of (length msg) (chunk_size self) msg)
         (set_stdin (tl (stdin (state_read message s)))
            (state_read message s))
       = (Ret (Some (ecs, keys)), s_b)
    /\ files s1 fn = Some export
    /\ parse_container export
       = Some (ts, salt, join HASHES all_keys, join HASHES ecs, vh,
               py_str (Z.of_nat
                         (length (chunks_of (length msg) (chunk_size self)
                                    msg))))
    /\ derive_transport_key salt ts = Some tk
    /\ encrypt_keys tk keys = Some all_keys
    /\ sha256_hex (ts ++ salt ++ join HASHES all_keys ++ join HASHES ecs)
       = Some vh
    /\ recovery_code_of tk = Some code.
Proof.
  intros H.
  apply encrypt_and_share_success in H
    as (msg & s_b & ecs & keys & seed & export & tk
        & Em & Hne & Hcs & Eenc & Eseal & Ecode & Ef).
  destruct (encrypt_chunks_chars _ _ _ _ _ _ Eenc) as (Hch & _).
  destruct (strftime_head (now s_b)) as (c & r & Ets & _).
  apply seal_parse in Eseal
    as (salt & all_keys & vh & Ep & Ek & Eks & Eh & _);
    [|apply strftime_digits | rewrite Ets; discriminate | exact Hch].
  exists msg, s_b, ecs, keys, export, tk, (strftime (now s_b)), salt,
    all_keys, vh.
  repeat split; assumption.
Qed.

(** C6.  For a container written by [encrypt_and_share] and any recovery
    code other than the one it returned, [decrypt_shared_message] returns
    [None], and of the recorded lines it prints only that the recovery code
    is invalid: no warning about the file, no line read from the user, no
    chunk processed. *)
Theorem wrong_recovery_code_is_rejected (self : SecureBB84)
  (message filename recovery_code supplied : str) (s s1 s2 : State) :
  encrypt_and_share self message s
  = (Ret (Some filename, Some recovery_code), s1) ->
  files s2 filename = files s1 filename ->
  supplied <> recovery_code ->
  decrypt_shared_message filename supplied s2
  = (Ret None, set_stdout (stdout s2 ++ [PrintRecoveryInvalid]) s2).
Proof.
  intros H Hf Hne.
  apply seal_opens in H
    as (msg & s_b & ecs & keys & export & tk & ts & salt & all_keys & vh
        & _ & _ & _ & _ & Ef & Ep & Ek & _ & Eh & Ec).
  eapply decrypt_wrong_code; eauto.
  - congruence.
  - apply py_int_py_str. lia.
Qed.

(** *** Opening every chunk *)

Lemma numeral_no_hash s : Forall numeral_char s -> ~ In 35 s.
Proof.
  intros H Hin. rewrite Forall_forall in H. apply H in Hin.
  unfold numeral_char, digit_below in Hin. lia.
Qed.

Lemma hex_no_hash s : Forall hex_char s -> ~ In 35 s.
Proof.
  intros H Hin. rewrite Forall_forall in H. apply H in Hin.
  unfold hex_char in Hin. lia.
Qed.

Lemma decrypt_chunks_sealed tk chunks ecs keys :
  sealed_chunks chunks ecs keys -> forall all_keys,
  Forall2 (fun key k => encrypt_key tk key = Some k) keys all_keys ->
  Forall (fun c => Z.of_nat (length c) < 2 ^ 27 /\ normalize c <> []) chunks ->
  decrypt_chunks tk all_keys ecs = Some (map normalize chunks)
  /\ Forall (fun k => ~ In 35 k) all_keys
  /\ Forall (fun e => ~ In 35 e) ecs
  /\ length all_keys = length chunks /\ length ecs = length chunks.
Proof.
  induction 1 as [|chunk chunks ec ecs key keys binary bits
                   Eb Hne Hl Hk Em Eec Hs IH]; intros all_keys Hks Hc.
  - inversion Hks; subst. repeat split; constructor.
  - inversion Hks as [|? k ? ks Hkey Hrest]; subst.
    inversion Hc as [|? ? [Hlen Hn] Hc']; subst.
    destruct (IH ks Hrest Hc') as (Ed & H1 & H2 & L1 & L2).
    destruct (recover_encrypt_key tk key k Hkey) as (Er & Hhex).
    { destruct key; [|discriminate]. destruct binary; [congruence|].
      simpl in Hl. lia. }
    { eapply Forall_impl; [|exact Hk]. unfold bit. intros; lia. }
    split; [|split; [|split; [|split]]].
    + cbn [decrypt_chunks]. unfold decrypt_chunk. rewrite Er.
      rewrite (unmask_sealed_chunk chunk binary key bits Eb Hlen Hk Hl Em).
      destruct (normalize chunk) as [|c t] eqn:En; [congruence|].
      rewrite Ed. simpl. now rewrite En.
    + constructor; [now apply hex_no_hash | exact H1].
    + constructor; [|exact H2].
      apply numeral_no_hash. eapply mask_chars; eauto.
    + simpl. congruence.
    + simpl. congruence.
Qed.

Hypothesis getrandbits_1_bit : forall g, bit (fst (getrandbits 1 g)).

(** X27.  [text_to_binary] normalises the white space of every chunk, so
    for a message none of whose chunks is empty after normalisation, what
    [decrypt_shared_message] returns with the right recovery code, once
    the user leaves the menu with 3, is the concatenation of the
    normalised chunks; it is the original message when normalisation
    leaves every chunk as it is.  The pool holds bits,
    [random.getrandbits(1)] returns a bit, and a chunk fits the 32-bit
    length prefix. *)
Theorem decrypt_returns_the_normalized_chunks (self : SecureBB84)
  (message filename recovery_code done : str) (rest : list str)
  (s s1 s2 : State) :
  pool_of_bits s ->
  Z.of_nat (chunk_size self) < 2 ^ 27 ->
  encrypt_and_share self message s
  = (Ret (Some filename, Some recovery_code), s1) ->
  files s2 filename = files s1 filename ->
  stdin s2 = done :: rest -> strip done = lit "3" ->
  exists msg,
    message_read message s = Some msg
    /\ let chunks := chunks_of (length msg) (chunk_size self) msg in
       concat chunks = msg
       /\ (Forall (fun c => normalize c <> []) chunks ->
           fst (decrypt_shared_message filename recovery_code s2)
           = Ret (Some (concat (map normalize chunks))))
       /\ (Forall (fun c => normalize c = c) chunks ->
           fst (decrypt_shared_message filename recovery_code s2)
           = Ret (Some msg)).
Proof.
  intros Hp Hsize H Hf Hin Hdone.
  apply seal_opens in H
    as (msg & s_b & ecs & keys & export & tk & ts & salt & all_keys & vh
        & Em & Hne & Hcs & Eenc & Ef & Epc & Ek & Eks & Eh & Ec).
  exists msg. split; [exact Em|]. cbv zeta.
  set (chunks := chunks_of (length msg) (chunk_size self) msg) in *.
  destruct (chunks_of_spec (chunk_size self) Hcs (length msg) msg (le_n _))
    as [Econcat Hchunks]. fold chunks in Econcat, Hchunks.
  assert (Hmain : Forall (fun c => normalize c <> []) chunks ->
                  fst (decrypt_shared_message filename recovery_code s2)
                  = Ret (Some (concat (map normalize chunks)))).
  { intros Hnorm.
    assert (Hsealed : sealed_chunks chunks ecs keys).
    { eapply (encrypt_chunks_sealed getrandbits_1_bit); [|exact Eenc].
      unfold pool_of_bits in *. cbn [key_pool set_stdin].
      now rewrite state_read_pool. }
    destruct (decrypt_chunks_sealed tk chunks ecs keys Hsealed all_keys)
      as (Ed & H1 & H2 & L1 & L2).
    { now apply encrypt_keys_each. }
    { rewrite Forall_forall in *. intros c Hc. split; [|now apply Hnorm].
      destruct (Hchunks c Hc) as [_ Hlen]. lia. }
    assert (Hcne : chunks <> [])
      by (subst chunks; now apply chunks_of_not_nil).
    assert (S1 : split HASHES (join HASHES all_keys) = all_keys).
    { change HASHES with [35; 35; 35]. apply split_join; [|exact H1].
      destruct all_keys; [|discriminate]. destruct chunks; [congruence|].
      discriminate. }
    assert (S2 : split HASHES (join HASHES ecs) = ecs).
    { change HASHES with [35; 35; 35]. apply split_join; [|exact H2].
      destruct ecs; [|discriminate]. destruct chunks; [congruence|].
      discriminate. }
    erewrite decrypt_right_code; [reflexivity | | exact Epc | | | exact Eh
                                 | exact Ek | exact Ec | | exact Hin
                                 | exact Hdone].
    - congruence.
    - rewrite S1, L1. apply py_int_py_str. lia.
    - rewrite S1, S2. congruence.
    - rewrite S1, S2. exact Ed. }
  split; [exact Econcat|]. split; [exact Hmain|].
  intros Hfix. rewrite Hmain.
  - do 2 f_equal. transitivity (concat chunks); [|exact Econcat]. f_equal.
    transitivity (map (fun c : str => c) chunks); [|apply map_id].
    apply map_ext_in. rewrite Forall_forall in Hfix. exact Hfix.
  - rewrite Forall_forall in *. intros c Hc. rewrite (Hfix c Hc).
    now destruct (Hchunks c Hc).
Qed.

(** *** A key shorter than its chunk *)

Lemma mask_firstn text : forall key,
  mask text key = mask (firstn (length key) text) key.
Proof.
  induction text as [|a text IH]; intros key.
  - now rewrite firstn_nil.
  - destruct key as [|b key]; [reflexivity|]. simpl. now rewrite <- IH.
Qed.

Lemma mask_app_tail text key tail :
  (length key <= length text)%nat ->
  mask (firstn (length key) text ++ tail) key = mask text key.
Proof.
  intros H. rewrite (mask_firstn (_ ++ _)), (mask_firstn text).
  f_equal. rewrite firstn_app, firstn_firstn, Nat.min_id, length_firstn.
  rewrite Nat.min_l by exact H. rewrite Nat.sub_diag. simpl.
  apply app_nil_r.
Qed.

(** C7, as the code has it.  With a key shorter than the chunk, [zip] stops
    at the end of the key: the chunk is unmasked and decoded exactly as its
    first [len(key)] characters would be; a text so obtained is accepted,
    and the chunk fails only when unmasking raises or that prefix decodes to
    [None] or to the empty text.  The characters left over, of which there
    is at least one, are never looked at: whatever stands in their place,
    the outcome is the same. *)
Theorem short_key_unmasks_a_prefix (encrypted_chunk : str)
  (chunk_key : list Z) :
  (length chunk_key < length encrypted_chunk)%nat ->
  unmask_chunk encrypted_chunk chunk_key
  = unmask_chunk (firstn (length chunk_key) encrypted_chunk) chunk_key
  /\ (forall text,
        unmask_chunk encrypted_chunk chunk_key = Some text ->
        text <> []
        /\ exists bits,
             mask (firstn (length chunk_key) encrypted_chunk) chunk_key
             = Some bits
             /\ binary_to_text (concat bits) = Some text)
  /\ (unmask_chunk encrypted_chunk chunk_key = None <->
      mask (firstn (length chunk_key) encrypted_chunk) chunk_key = None
      \/ exists bits,
           mask (firstn (length chunk_key) encrypted_chunk) chunk_key
           = Some bits
           /\ (binary_to_text (concat bits) = None
               \/ binary_to_text (concat bits) = Some []))
  /\ skipn (length chunk_key) encrypted_chunk <> []
  /\ (forall tail,
        unmask_chunk (firstn (length chunk_key) encrypted_chunk ++ tail)
          chunk_key
        = unmask_chunk encrypted_chunk chunk_key).
Proof.
  intros Hlt.
  split; [unfold unmask_chunk; now rewrite <- mask_firstn|].
  split; [|split; [|split]].
  - unfold unmask_chunk. rewrite <- mask_firstn.
    intros text. destruct (mask encrypted_chunk chunk_key) as [bits|];
      [|discriminate].
    destruct (binary_to_text (concat bits)) as [[|c t]|] eqn:E;
      try discriminate.
    intros H%some_inj. subst. split; [discriminate|]. eauto.
  - unfold unmask_chunk. rewrite <- mask_firstn.
    destruct (mask encrypted_chunk chunk_key) as [bits|].
    + destruct (binary_to_text (concat bits)) as [[|c t]|] eqn:E; split;
        intros H; try discriminate; eauto.
      * destruct H as [H|(b & Hb & [H|H])]; try discriminate;
          apply some_inj in Hb; subst; congruence.
    + split; auto.
  - intros E. apply (f_equal (@length Z)) in E.
    rewrite length_skipn in E. simpl in E. lia.
  - intros tail. unfold unmask_chunk.
    rewrite mask_app_tail by lia. reflexivity.
Qed.

End Container.

(** ** Key generation, whatever way it ends *)

Section KeyGeneration.
Context {P : Platform}.

(** *** What the sifting loop keeps *)

Lemma sift_step_accounts self st a sb rb r :
  sifting_accounts self st ->
  sifting_accounts self (sift_step self st a sb rb r)
  /\ total_matched (sift_step self st a sb rb r) <= total_matched st + 1.
Proof.
  intros (Ht & Hv & Hs). unfold sift_step.
  destruct (str_eqb sb rb); [|split; [repeat split; assumption | lia]].
  destruct (Nat.ltb_spec (length (verification st)) (verification_bits self))
    as [Hlt|Hge]; (split; [|cbn [total_matched]; lia]);
    unfold sifting_accounts; cbn [total_matched verification sifted_key];
    rewrite ?length_app; cbn [length].
  - split; [lia|]. split; [lia|]. intros Hn. specialize (Hs Hn). lia.
  - split; [lia|]. split; [lia|]. intros _. lia.
Qed.

Lemma sift_accounts self alice_bits : forall st alice_bases bob_bases received,
  sifting_accounts self st ->
  sifting_accounts self (sift self st alice_bits alice_bases bob_bases received)
  /\ total_matched (sift self st alice_bits alice_bases bob_bases received)
     <= total_matched st + Z.of_nat (length alice_bits).
Proof.
  induction alice_bits as [|a bits IH]; intros st sbs rbs rc Hst.
  - simpl. split; [exact Hst | lia].
  - destruct sbs as [|sb sbs]; [simpl; split; [exact Hst | lia]|].
    destruct rbs as [|rb rbs]; [simpl; split; [exact Hst | lia]|].
    destruct rc as [|r rc]; [simpl; split; [exact Hst | lia]|].
    cbn [sift].
    destruct (sift_step_accounts self st a sb rb r Hst) as [H1 H2].
    destruct (IH (sift_step self st a sb rb r) sbs rbs rc H1) as [H3 H4].
    split; [exact H3|]. cbn [length]. lia.
Qed.

Lemma draw_length {A} (m : M A) n : forall s l s',
  draw n m s = (Ret l, s') -> length l = n.
Proof.
  induction n as [|n IH]; intros s l s'; simpl.
  - intros [= <- _]. reflexivity.
  - intros H. apply bind_ret_inv in H as (x & s1 & _ & H).
    apply bind_ret_inv in H as (xs & s2 & E & H).
    apply IH in E. injection H as <- _. simpl. now rewrite E.
Qed.

Lemma attempt_accounts self s st s' :
  attempt self s = (Ret st, s') ->
  sifting_accounts self st
  /\ total_matched st <= Z.of_nat (num_qubits self).
Proof.
  unfold attempt. intros H.
  apply bind_ret_inv in H as (ab & s1 & E1 & H).
  apply bind_ret_inv in H as (sb & s2 & _ & H).
  apply bind_ret_inv in H as (rb & s3 & _ & H).
  apply bind_ret_inv in H as (rc & s4 & _ & H).
  apply bind_ret_inv in H as (u1 & s5 & _ & H).
  apply bind_ret_inv in H as (u2 & s6 & _ & H).
  apply bind_ret_inv in H as (u3 & s7 & _ & H).
  injection H as <- _. apply draw_length in E1.
  destruct (sift_accounts self ab sift_init sb rb (fst rc)) as [H1 H2].
  { unfold sifting_accounts, sift_init. simpl. repeat split; try lia.
    intros N; now elim N. }
  split; [exact H1|]. rewrite E1 in H2. simpl in H2. exact H2.
Qed.

(** What a run of the retry loop has done when it stops. *)
Lemma generate_key_loop_outcome self remaining : forall retry_count s x s',
  generate_key_loop self remaining retry_count s = (x, s') ->
  key_pool s' = key_pool s /\ files s' = files s /\ stdin s' = stdin s
  /\ now s' = now s
  /\ (attempts_started (stdout s')
      <= attempts_started (stdout s) + remaining)%nat
  /\ match x with
     | Ret (Some key, rate) =>
         (min_key_length self <= length key)%nat
         /\ (key <> [] ->
             (length key + verification_bits self <= num_qubits self)%nat)
         /\ (rate == 0)%Q
     | Ret (None, rate) => rate = 1%Q
     | Raise e => e = ZeroDivisionError /\ num_qubits self = 0%nat
     end.
Proof.
  induction remaining as [|rem IH]; intros rc s x s'; simpl.
  - intros [= <- <-]. repeat split; lia.
  - unfold bind at 1. destruct (attempt self s) as [[st|e] s1] eqn:E1.
    + pose proof (attempt_accounts _ _ _ _ E1) as ((Ht & Hv & Hs) & Hq).
      apply attempt_ret in E1 as (He & Ho & K1 & F1 & I1 & N1 & _).
      assert (Hstart : attempts_started (stdout s1)
                       = (attempts_started (stdout s) + 1)%nat).
      { rewrite Ho, attempts_started_app. reflexivity. }
      destruct (total_matched st =? 0).
      { intros H. apply IH in H as (K2 & F2 & I2 & N2 & A2 & Hr).
        split; [congruence|]. split; [congruence|]. split; [congruence|].
        split; [congruence|]. split; [lia | exact Hr]. }
      destruct (accepted self st) eqn:Ea.
      { intros [= <- <-].
        split; [assumption|]. split; [assumption|]. split; [assumption|].
        split; [assumption|]. split; [lia|]. split; [|split].
        - unfold accepted in Ea. apply andb_prop in Ea as [Ea _].
          now apply Nat.leb_le in Ea.
        - intros Hn. specialize (Hs Hn). lia.
        - now apply error_rate_zero. }
      unfold bind at 1, print at 1. intros H.
      apply IH in H as (K2 & F2 & I2 & N2 & A2 & Hr).
      cbn [key_pool files stdin now stdout set_stdout] in *.
      rewrite attempts_started_app in A2.
      change (attempts_started [PrintRetry (S rc) max_retries]) with 0%nat
        in A2.
      split; [congruence|]. split; [congruence|]. split; [congruence|].
      split; [congruence|]. split; [lia | exact Hr].
    + intros [= <- <-].
      destruct (attempt_run self s) as (st & s2 & W & _ & E).
      rewrite E1 in E. destruct (num_qubits self); [|discriminate E].
      injection E as -> ->. destruct W as (W1 & W2 & W3 & W4 & W5).
      rewrite W4. split; [assumption|]. split; [assumption|].
      split; [assumption|]. split; [assumption|]. split; [lia|]. now split.
Qed.

(** [generate_key], whatever way it ends. *)
Lemma generate_key_run (self : SecureBB84) (s : State) :
  exists r s',
    generate_key self s = (Ret r, s')
    /\ key_pool s' = key_pool s /\ files s' = files s /\ stdin s' = stdin s
    /\ now s' = now s
    /\ (attempts_started (stdout s') <= attempts_started (stdout s) + 3)%nat
    /\ match r with
       | (Some key, rate) =>
           (min_key_length self <= length key)%nat
           /\ (key <> [] ->
               (length key + verification_bits self <= num_qubits self)%nat)
           /\ (rate == 0)%Q
       | (None, rate) => rate = 1%Q
       end.
Proof.
  unfold generate_key, try_except.
  destruct (generate_key_loop self max_retries 0 s) as [[r|e] s1] eqn:E;
    apply generate_key_loop_outcome in E as (K & F & I & N & A & Hr).
  - exists r, s1. repeat split; assumption.
  - destruct Hr as [-> _]. unfold bind, print, ret.
    eexists _, _. split; [reflexivity|].
    cbn [key_pool files stdin now stdout set_stdout].
    rewrite attempts_started_app.
    change (attempts_started [LogError "Key generation error"]) with 0%nat.
    repeat split; try assumption. unfold max_retries in A. lia.
Qed.

(** The two lists of the sifting loop are the matched bits seen so far,
    cut at [verification_bits]. *)
Lemma sift_step_positions self st a sb rb r matched :
  verification st = firstn (verification_bits self) matched ->
  sifted_key st = skipn (verification_bits self) matched ->
  let matched' := if str_eqb sb rb then matched ++ [a] else matched in
  verification (sift_step self st a sb rb r)
  = firstn (verification_bits self) matched'
  /\ sifted_key (sift_step self st a sb rb r)
     = skipn (verification_bits self) matched'.
Proof.
  intros Hv Hs. unfold sift_step. cbv zeta.
  destruct (str_eqb sb rb); [|now split].
  rewrite Hv, length_firstn.
  destruct (Nat.ltb_spec (Nat.min (verification_bits self) (length matched))
              (verification_bits self)) as [Hlt|Hge];
    cbn [verification sifted_key]; rewrite ?Hv, ?Hs.
  - rewrite firstn_app, skipn_app, !firstn_all2, !skipn_all2 by lia.
    replace (verification_bits self - length matched)%nat
      with (S (verification_bits self - length matched - 1)) by lia.
    cbn [firstn skipn]. now rewrite firstn_nil, skipn_nil.
  - rewrite firstn_app, skipn_app.
    replace (verification_bits self - length matched)%nat with 0%nat by lia.
    cbn [firstn skipn]. now rewrite app_nil_r.
Qed.

Lemma transmit_sift_positions self alice_bits :
  forall alice_bases bob_bases s received s' st matched,
  transmit alice_bits alice_bases bob_bases s = (Ret received, s') ->
  verification st = firstn (verification_bits self) matched ->
  sifted_key st = skipn (verification_bits self) matched ->
  verification (sift self st alice_bits alice_bases bob_bases (fst received))
  = firstn (verification_bits self)
      (matched ++ matched_bits alice_bits alice_bases bob_bases)
  /\ sifted_key (sift self st alice_bits alice_bases bob_bases (fst received))
     = skipn (verification_bits self)
         (matched ++ matched_bits alice_bits alice_bases bob_bases).
Proof.
  induction alice_bits as [|a bits IH];
    intros sbs rbs s received s' st matched H Hv Hs.
  - simpl. now rewrite app_nil_r.
  - destruct sbs as [|sb sbs]; [simpl; now rewrite app_nil_r|].
    destruct rbs as [|rb rbs]; [simpl; now rewrite app_nil_r|].
    cbn [transmit] in H.
    apply bind_ret_inv in H as (r & s1 & _ & H).
    apply bind_ret_inv in H as (rest & s2 & E & H).
    injection H as <- _. cbn [fst sift matched_bits].
    destruct (sift_step_positions self st a sb rb (fst r) matched Hv Hs)
      as [Hv' Hs'].
    destruct (IH sbs rbs s1 rest s2 _ _ E Hv' Hs') as [H1 H2].
    rewrite H1, H2. destruct (str_eqb sb rb).
    + now rewrite <- app_assoc.
    + now split.
Qed.

(** X4.  Of the sender's bits at the indices where the bases match, taken
    in order, the first [verification_bits] are set aside and only the
    later ones make the key: the two lists together are as long as the
    count of matches, which is at most the number of qubits, and they are
    the matched bits of the three lists the attempt drew, cut at
    [verification_bits]. *)
Theorem verification_bits_are_set_aside (self : SecureBB84) (s s' : State)
  (st : sifting) :
  attempt self s = (Ret st, s') ->
  total_matched st
  = Z.of_nat (length (verification st) + length (sifted_key st))
  /\ length (verification st)
     = Nat.min (Z.to_nat (total_matched st)) (verification_bits self)
  /\ total_matched st <= Z.of_nat (num_qubits self)
  /\ exists alice_bits alice_bases bob_bases s1 s2 s3,
       draw (num_qubits self) secure_random s = (Ret alice_bits, s1)
       /\ draw (num_qubits self) choice_basis s1 = (Ret alice_bases, s2)
       /\ draw (num_qubits self) choice_basis s2 = (Ret bob_bases, s3)
       /\ verification st
          = firstn (verification_bits self)
              (matched_bits alice_bits alice_bases bob_bases)
       /\ sifted_key st
          = skipn (verification_bits self)
              (matched_bits alice_bits alice_bases bob_bases).
Proof.
  intros H.
  destruct (attempt_accounts _ _ _ _ H) as ((Ht & Hv & Hs) & Hq).
  split; [exact Ht|]. split; [|split; [exact Hq|]].
  - destruct (sifted_key st) as [|b k] eqn:Ek.
    + rewrite Ht. cbn [length]. lia.
    + rewrite Ht, Hs by discriminate. cbn [length]. lia.
  - unfold attempt in H.
    apply bind_ret_inv in H as (ab & s1 & E1 & H).
    apply bind_ret_inv in H as (sb & s2 & E2 & H).
    apply bind_ret_inv in H as (rb & s3 & E3 & H).
    apply bind_ret_inv in H as (rc & s4 & E4 & H).
    apply bind_ret_inv in H as (u1 & s5 & _ & H).
    apply bind_ret_inv in H as (u2 & s6 & _ & H).
    apply bind_ret_inv in H as (u3 & s7 & _ & H).
    injection H as <- _.
    exists ab, sb, rb, s1, s2, s3.
    split; [exact E1|]. split; [exact E2|]. split; [exact E3|].
    apply (transmit_sift_positions self ab sb rb s3 rc s4 sift_init []
             E4); destruct (verification_bits self); reflexivity.
Qed.

(** X1.  [generate_key] never raises: it returns a key of at least
    [min_key_length] bits with error rate 0, taken from at most
    [num_qubits - verification_bits] matches, or [(None, 1.0)]; it starts
    at most three attempts and leaves the key pool, the files and the
    input alone. *)
Theorem generate_key_outcome (self : SecureBB84) (s : State) :
  exists r s',
    generate_key self s = (Ret r, s')
    /\ key_pool s' = key_pool s /\ files s' = files s /\ stdin s' = stdin s
    /\ now s' = now s
    /\ (attempts_started (stdout s') <= attempts_started (stdout s) + 3)%nat
    /\ match r with
       | (Some key, rate) =>
           (min_key_length self <= length key)%nat
           /\ (key <> [] ->
               (length key + verification_bits self <= num_qubits self)%nat)
           /\ (rate == 0)%Q
       | (None, rate) => rate = 1%Q
       end.
Proof.
  unfold generate_key, try_except.
  destruct (generate_key_loop self max_retries 0 s) as [[r|e] s1] eqn:E;
    apply generate_key_loop_outcome in E as (K & F & I & N & A & Hr).
  - exists r, s1. repeat split; assumption.
  - destruct Hr as [-> _]. unfold bind, print, ret.
    eexists _, _. split; [reflexivity|].
    cbn [key_pool files stdin now stdout set_stdout].
    rewrite attempts_started_app.
    change (attempts_started [LogError "Key generation error"]) with 0%nat.
    repeat split; try assumption. unfold max_retries in A. lia.
Qed.

(** X2.  With fewer qubits than a key and the verification bits take
    together, no key is ever produced: [generate_key] returns
    [(None, 1.0)]. *)
Theorem too_few_qubits_give_no_key (self : SecureBB84) (s : State) :
  (0 < min_key_length self)%nat ->
  (num_qubits self < min_key_length self + verification_bits self)%nat ->
  exists s',
    generate_key self s = (Ret (None, 1%Q), s')
    /\ key_pool s' = key_pool s.
Proof.
  intros Hm Hq.
  destruct (generate_key_run self s)
    as ([[key|] rate] & s' & E & K & _ & _ & _ & _ & Hr).
  - destruct Hr as (H1 & H2 & _).
    assert (Hn : key <> []) by (destruct key; [simpl in H1; lia | discriminate]).
    specialize (H2 Hn). lia.
  - subst rate. exists s'. now split.
Qed.

End KeyGeneration.


(** ** The key pool, whatever way a draw ends *)

Section PoolDraws.
Context {P : Platform}.

(** *** Filling the pool and drawing from it *)

Lemma generate_key_pool_loop_run self fuel : forall needed s,
  (needed - length (concat (key_pool s)) <= fuel)%nat ->
  exists ok s' added,
    generate_key_pool_loop self fuel needed (length (concat (key_pool s))) s
    = (Ret ok, s')
    /\ key_pool s' = key_pool s ++ added
    /\ Forall (fun k => k <> []) added
    /\ (ok = true <-> (needed <= length (concat (key_pool s')))%nat)
    /\ files s' = files s /\ stdin s' = stdin s /\ now s' = now s
    /\ ((needed <= length (concat (key_pool s)))%nat -> s' = s).
Proof.
  induction fuel as [|fuel IH]; intros needed s Hf.
  - simpl.
    destruct (Nat.ltb_spec (length (concat (key_pool s))) needed) as [Hlt|Hge];
      [lia|].
    exists true, s, []. rewrite app_nil_r.
    repeat split; auto.
  - simpl.
    destruct (Nat.ltb_spec (length (concat (key_pool s))) needed) as [Hlt|Hge].
    2:{ exists true, s, []. rewrite app_nil_r. repeat split; auto. }
    unfold bind at 1. unfold print at 1. unfold bind at 1.
    destruct (generate_key_run self
                (set_stdout
                   (stdout s
                    ++ [PrintGeneratingKeys (length (concat (key_pool s)))
                          needed]) s))
      as (x & s1 & E & K & F & I & N & _).
    rewrite E. cbn [key_pool files stdin now set_stdout] in K, F, I, N.
    assert (Hfalse : exists ok s' added,
               (Ret false, s1) = (Ret ok, s')
               /\ key_pool s' = key_pool s ++ added
               /\ Forall (fun k : list Z => k <> []) added
               /\ (ok = true <-> (needed <= length (concat (key_pool s')))%nat)
               /\ files s' = files s /\ stdin s' = stdin s
               /\ now s' = now s
               /\ ((needed <= length (concat (key_pool s)))%nat -> s' = s)).
    { exists false, s1, []. rewrite app_nil_r.
      split; [reflexivity|]. split; [exact K|]. split; [constructor|].
      split; [|split; [exact F|split; [exact I|split; [exact N|lia]]]].
      rewrite K. split; [discriminate | lia]. }
    destruct (fst x) as [[|b key]|]; [exact Hfalse| |exact Hfalse].
    unfold bind at 1.
    set (s2 := set_key_pool (key_pool s1 ++ [b :: key]) s1).
    assert (L2 : length (concat (key_pool s2))
                 = (length (concat (key_pool s)) + length (b :: key))%nat).
    { unfold s2. cbn [key_pool set_key_pool].
      rewrite K, concat_app, length_app. cbn [concat].
      now rewrite app_nil_r. }
    rewrite <- L2.
    destruct (IH needed s2)
      as (ok & s' & added & El & Kl & Ha & Hok & Fl & Il & Nl & _).
    { rewrite L2. cbn [length]. lia. }
    exists ok, s', ((b :: key) :: added). split; [exact El|].
    split; [|split; [|split; [exact Hok|split; [|split; [|split; [|lia]]]]]].
    + rewrite Kl. unfold s2. cbn [key_pool set_key_pool].
      rewrite K, <- app_assoc. reflexivity.
    + constructor; [discriminate | exact Ha].
    + rewrite Fl. exact F.
    + rewrite Il. exact I.
    + rewrite Nl. exact N.
Qed.

Lemma generate_key_pool_run self needed s :
  exists ok s' added,
    generate_key_pool self needed s = (Ret ok, s')
    /\ key_pool s' = key_pool s ++ added
    /\ Forall (fun k => k <> []) added
    /\ (ok = true <-> (needed <= length (concat (key_pool s')))%nat)
    /\ files s' = files s /\ stdin s' = stdin s /\ now s' = now s
    /\ ((needed <= length (concat (key_pool s)))%nat -> s' = s).
Proof.
  unfold generate_key_pool, try_except.
  destruct (generate_key_pool_loop_run self needed needed s)
    as (ok & s' & added & E & H); [lia|].
  rewrite E. eauto.
Qed.

(** The passes of [get_key_from_pool], whatever way they end. *)
Lemma get_key_loop_run self fuel : forall length_ result s x s',
  get_key_loop self fuel length_ result s = (x, s') ->
  (length result <= length_)%nat ->
  files s' = files s /\ stdin s' = stdin s /\ now s' = now s
  /\ match x with
     | Ret k =>
         length k = length_
         /\ exists generated,
              result ++ concat (key_pool s) ++ concat generated
              = k ++ concat (key_pool s')
     | Raise e =>
         e = OutOfFuel
         \/ (e = Exception_ "Failed to generate enough keys"
             /\ (length (concat (key_pool s')) < length_)%nat)
     end.
Proof.
  induction fuel as [|fuel IH]; intros len result s x s'.
  - simpl. destruct (Nat.ltb_spec (length result) len) as [Hlt|Hge].
    + intros [= <- <-] _. repeat split. now left.
    + intros [= <- <-] Hr. repeat split; [lia|].
      exists []. simpl. now rewrite app_nil_r.
  - simpl get_key_loop.
    destruct (Nat.ltb_spec (length result) len) as [Hlt|Hge].
    2:{ intros [= <- <-] Hr. repeat split; [lia|].
        exists []. simpl. now rewrite app_nil_r. }
    intros H _.
    assert (Hpass : forall s1 k rest generated,
               key_pool s1 = k :: rest ->
               files s1 = files s -> stdin s1 = stdin s -> now s1 = now s ->
               concat (key_pool s) ++ concat generated = concat (key_pool s1) ->
               (if (length k <=? len - length result)%nat
                then get_key_loop self fuel len (result ++ k)
                       (set_key_pool rest s1)
                else get_key_loop self fuel len
                       (result ++ firstn (len - length result) k)
                       (set_key_pool (skipn (len - length result) k :: rest)
                          s1)) = (x, s') ->
               files s' = files s /\ stdin s' = stdin s /\ now s' = now s
               /\ match x with
                  | Ret k0 =>
                      length k0 = len
                      /\ exists generated0,
                           result ++ concat (key_pool s) ++ concat generated0
                           = k0 ++ concat (key_pool s')
                  | Raise e =>
                      e = OutOfFuel
                      \/ (e = Exception_ "Failed to generate enough keys"
                          /\ (length (concat (key_pool s')) < len)%nat)
                  end).
    { intros s1 k rest generated Ek F1 I1 N1 Hc Hrun.
      destruct (Nat.leb_spec (length k) (len - length result)) as [Hk|Hk];
        apply IH in Hrun;
        try (rewrite length_app, ?length_firstn; lia);
        destruct Hrun as (F2 & I2 & N2 & Hx);
        cbn [files stdin now key_pool set_key_pool] in F2, I2, N2, Hx;
        (split; [congruence|]); (split; [congruence|]);
        (split; [congruence|]);
        destruct x as [k0|e]; try exact Hx;
        destruct Hx as (Hl & g & Hg); (split; [exact Hl|]);
        exists (generated ++ g);
        rewrite concat_app, (app_assoc (concat (key_pool s))), Hc, Ek,
          <- Hg; cbn [concat]; rewrite <- ?app_assoc.
      - reflexivity.
      - rewrite (app_assoc (firstn _ k)), firstn_skipn. reflexivity. }
    unfold bind at 1 in H.
    destruct (key_pool s) as [|k rest] eqn:Ek.
    + unfold bind at 1 in H.
      destruct (generate_key_pool_run self (len - length result) s)
        as (ok & s1 & added & E & K & Hne & Hok & F & I & N & _).
      rewrite E in H. rewrite Ek in K. simpl in K.
      destruct ok.
      * unfold ret at 1 in H.
        assert (Hlen : (len - length result
                        <= length (concat (key_pool s1)))%nat)
          by now apply Hok.
        rewrite K in H, Hlen.
        destruct added as [|k rest]; [simpl in Hlen; lia|].
        apply (Hpass s1 k rest (k :: rest) K F I N); [|exact H].
        rewrite K. reflexivity.
      * unfold raise in H. injection H as <- <-.
        split; [exact F|]. split; [exact I|]. split; [exact N|].
        right. split; [reflexivity|].
        destruct (Nat.le_gt_cases (len - length result)
                    (length (concat (key_pool s1)))) as [Hle|Hgt]; [|lia].
        apply Hok in Hle. discriminate Hle.
    + rewrite Ek in H.
      apply (Hpass s k rest [] Ek eq_refl eq_refl eq_refl); [|exact H].
      rewrite Ek. simpl. now rewrite app_nil_r.
Qed.

(** A draw, whatever way it ends. *)
Lemma get_key_from_pool_run (self : SecureBB84) (n : nat)
  (s : State) :
  exists x s',
    get_key_from_pool self n s = (x, s')
    /\ files s' = files s /\ stdin s' = stdin s /\ now s' = now s
    /\ match x with
       | Ret k =>
           length k = n
           /\ exists generated,
                concat (key_pool s) ++ concat generated
                = k ++ concat (key_pool s')
       | Raise e =>
           e = Exception_ "Failed to generate enough keys"
           /\ (length (concat (key_pool s')) < n)%nat
       end.
Proof.
  destruct (get_key_from_pool_fuel self n s) as (x & s' & E & Hx).
  exists x, s'. split; [exact E|].
  unfold get_key_from_pool in E. apply get_key_loop_run in E; [|simpl; lia].
  destruct E as (F & I & N & H). split; [exact F|]. split; [exact I|].
  split; [exact N|].
  destruct x as [k|e]; [exact H|].
  destruct H as [->|H]; [now elim Hx | exact H].
Qed.

Lemma set_key_pool_same (s : State) : set_key_pool (key_pool s) s = s.
Proof. now destruct s. Qed.

(** A pool that holds fewer bits than are missing is taken whole, one
    segment a pass. *)
Lemma get_key_loop_drain self pool : forall fuel length_ result s,
  key_pool s = pool ->
  (length result + length (concat pool) < length_)%nat ->
  get_key_loop self (length pool + fuel) length_ result s
  = get_key_loop self fuel length_ (result ++ concat pool)
      (set_key_pool [] s).
Proof.
  induction pool as [|k rest IH]; intros fuel len result s Hp Hn.
  - simpl. rewrite app_nil_r, <- Hp. now rewrite set_key_pool_same.
  - cbn [concat] in Hn |- *. rewrite length_app in Hn.
    cbn [length Nat.add get_key_loop].
    assert (Hlt : (length result <? len)%nat = true)
      by (apply Nat.ltb_lt; lia).
    rewrite Hlt. unfold bind at 1. rewrite Hp. cbv beta iota. rewrite Hp.
    assert (Hk : (length k <=? len - length result)%nat = true)
      by (apply Nat.leb_le; lia).
    rewrite Hk, IH.
    + now rewrite app_assoc.
    + reflexivity.
    + rewrite length_app. lia.
Qed.

(** A pass that finds the pool empty refills it first, and the draw ends
    on what the refill brought. *)
Lemma get_key_loop_refill self fuel length_ result s :
  key_pool s = [] ->
  (length result < length_)%nat ->
  (length_ - length result <= fuel)%nat ->
  exists ok s1,
    generate_key_pool self (length_ - length result) s = (Ret ok, s1)
    /\ if ok then
         (length_ - length result <= length (concat (key_pool s1)))%nat
         /\ exists s',
              get_key_loop self (S fuel) length_ result s
              = (Ret (result
                      ++ firstn (length_ - length result)
                           (concat (key_pool s1))), s')
              /\ concat (key_pool s')
                 = skipn (length_ - length result) (concat (key_pool s1))
              /\ same_but_pool s1 s'
       else get_key_loop self (S fuel) length_ result s
            = (Raise (Exception_ "Failed to generate enough keys"), s1).
Proof.
  intros Hp Hlt Hf.
  destruct (generate_key_pool_fuel self (length_ - length result) s)
    as (ok & s1 & added & E & K & La & Ha).
  rewrite Hp in K, La, Ha. simpl in K, La, Ha. rewrite Nat.sub_0_r in La.
  exists ok, s1. split; [exact E|].
  assert (Hb : (length result <? length_)%nat = true)
    by now apply Nat.ltb_lt.
  destruct ok.
  - specialize (Ha eq_refl). rewrite K. split; [exact Ha|].
    destruct (get_key_loop_take self added (S fuel) length_ result s1 K)
      as (s' & E' & Hc & Hs); [lia | exact Ha |].
    exists s'. split; [|split; [exact Hc | exact Hs]].
    rewrite <- E'. destruct added as [|k rest]; [simpl in Ha; lia|].
    cbn [get_key_loop]. rewrite Hb.
    unfold bind at 1. rewrite Hp. unfold bind at 1. rewrite E.
    unfold ret at 1. cbv beta iota.
    unfold bind at 1. rewrite K. cbv beta iota. rewrite K. reflexivity.
  - cbn [get_key_loop]. rewrite Hb.
    unfold bind at 1. rewrite Hp. unfold bind at 1. rewrite E.
    reflexivity.
Qed.

(** X10.  No bit is lost or used twice by [get_key_from_pool(n)].  When
    the pool holds [n] bits, the key is its first [n] bits, the rest stays
    in the pool and nothing is generated.  When it holds fewer, the whole
    pool is taken and [generate_key_pool] is called once, on the emptied
    pool, for the bits still missing: if it answers [True] the key is the
    old pool followed by the first missing-many bits of what it generated,
    and the other generated bits are the pool left; if it answers [False]
    the exception of line 221 is raised. *)
Theorem get_key_from_pool_conserves_bits (self : SecureBB84) (n : nat)
  (s : State) :
  let pool := concat (key_pool s) in
  ((n <= length pool)%nat ->
   exists s',
     get_key_from_pool self n s = (Ret (firstn n pool), s')
     /\ concat (key_pool s') = skipn n pool
     /\ same_but_pool s s')
  /\ ((length pool < n)%nat ->
      exists ok s1,
        generate_key_pool self (n - length pool) (set_key_pool [] s)
        = (Ret ok, s1)
        /\ files s1 = files s /\ stdin s1 = stdin s /\ now s1 = now s
        /\ if ok then
             (n - length pool <= length (concat (key_pool s1)))%nat
             /\ exists s',
                  get_key_from_pool self n s
                  = (Ret (pool
                          ++ firstn (n - length pool)
                               (concat (key_pool s1))), s')
                  /\ concat (key_pool s')
                     = skipn (n - length pool) (concat (key_pool s1))
                  /\ same_but_pool s1 s'
           else get_key_from_pool self n s
                = (Raise (Exception_ "Failed to generate enough keys"), s1)).
Proof.
  intros pool. split; [apply get_key_from_pool_take|]. intros Hn.
  unfold get_key_from_pool.
  rewrite <- Nat.add_assoc,
    (get_key_loop_drain self (key_pool s) (n + 1) n [] s eq_refl)
    by (simpl; exact Hn).
  cbn [app]. fold pool. rewrite Nat.add_1_r.
  destruct (get_key_loop_refill self n n pool (set_key_pool [] s))
    as (ok & s1 & E & H); [reflexivity | exact Hn | lia |].
  exists ok, s1. split; [exact E|].
  destruct (generate_key_pool_run self (n - length pool) (set_key_pool [] s))
    as (ok' & s1' & added & E' & _ & _ & _ & F & I & N & _).
  rewrite E in E'. apply pair_equal_spec in E' as [_ <-].
  split; [exact F|]. split; [exact I|]. split; [exact N|]. exact H.
Qed.

(** X9.  [generate_key_pool(needed)] never raises and only appends keys
    that are not empty; it answers [True] exactly when the pool then holds
    at least [needed] bits, and does nothing at all when it already
    did. *)
Theorem generate_key_pool_outcome (self : SecureBB84) (needed : nat)
  (s : State) :
  exists ok s' added,
    generate_key_pool self needed s = (Ret ok, s')
    /\ key_pool s' = key_pool s ++ added
    /\ Forall (fun k => k <> []) added
    /\ (ok = true <-> (needed <= length (concat (key_pool s')))%nat)
    /\ files s' = files s /\ stdin s' = stdin s /\ now s' = now s
    /\ ((needed <= length (concat (key_pool s)))%nat -> s' = s).
Proof.
  unfold generate_key_pool, try_except.
  destruct (generate_key_pool_loop_run self needed needed s)
    as (ok & s' & added & E & H); [lia|].
  rewrite E. eauto.
Qed.

End PoolDraws.


(** ** More on the frame codec *)

Section FrameCodec.
Context {P : Platform}.

(** *** The frame and what the decoder makes of it *)

Lemma slice_middle {A} (a b c : list A) :
  length a = 32%nat ->
  slice (a ++ b ++ c) 32 (32 + Z.of_nat (length b)) = b.
Proof.
  intros Ha. unfold slice, slice_bound. rewrite !length_app, Ha.
  destruct (Z.ltb_spec 32 0) as [?|_]; [lia|].
  destruct (Z.ltb_spec (32 + Z.of_nat (length b)) 0) as [?|_]; [lia|].
  set (n := (length b + length c)%nat).
  replace (Z.min 32 (Z.of_nat (32 + n))) with 32 by lia.
  replace (Z.min (32 + Z.of_nat (length b)) (Z.of_nat (32 + n)))
    with (32 + Z.of_nat (length b)) by lia.
  replace (Z.to_nat 32) with (length a) by lia.
  rewrite skipn_app, skipn_all, Nat.sub_diag. cbn [skipn app].
  replace (Z.to_nat _) with (length b) by lia.
  rewrite firstn_app, firstn_all, Nat.sub_diag. cbn [firstn].
  apply app_nil_r.
Qed.

Lemma text_to_binary_frame text bs :
  utf8_encode (normalize text) = Some bs ->
  8 * Z.of_nat (length bs) < 2 ^ 32 ->
  exists length_bits message_bits,
    text_to_binary text = Some (length_bits ++ message_bits)
    /\ length length_bits = 32%nat
    /\ length message_bits = (8 * length bs)%nat
    /\ py_int 2 length_bits = Some (Z.of_nat (length message_bits))
    /\ Forall (digit_below 2) (length_bits ++ message_bits)
    /\ bytes_of_chunks (chunks_of (length message_bits) 8 message_bits) = bs.
Proof.
  intros Hb Hlen. unfold text_to_binary. rewrite Hb.
  pose proof (utf8_encode_bytes _ _ Hb) as Hbytes.
  assert (Lm : length (flat_map (format_b 8) bs) = (8 * length bs)%nat).
  { clear Hb Hlen. induction Hbytes as [|b r Hbyte _ IH]; [reflexivity|].
    cbn [flat_map]. rewrite length_app, IH.
    rewrite format_b_length; [simpl; lia | lia |].
    unfold byte in Hbyte. simpl. lia. }
  exists (format_b 32 (Z.of_nat (length (flat_map (format_b 8) bs)))),
    (flat_map (format_b 8) bs).
  split; [reflexivity|]. split.
  { apply format_b_length; [lia|]. rewrite Lm. lia. }
  split; [exact Lm|]. split.
  { apply py_int_format_b; [lia|]. rewrite Lm. lia. }
  split.
  { apply Forall_app. split; [apply format_b_digits; lia|].
    clear Hb Hlen Lm. induction Hbytes as [|b r Hbyte _ IH]; [constructor|].
    cbn [flat_map]. apply Forall_app. split; [|exact IH].
    apply format_b_digits. unfold byte in Hbyte. lia. }
  apply bytes_of_chunks_bits; [exact Hbytes | lia].
Qed.

Lemma binary_to_text_frame_tail text bs junk binary :
  utf8_encode (normalize text) = Some bs ->
  8 * Z.of_nat (length bs) < 2 ^ 32 ->
  text_to_binary text = Some binary ->
  binary_to_text (binary ++ junk) = Some (normalize text).
Proof.
  intros Hb Hlen Hbin.
  destruct (text_to_binary_frame text bs Hb Hlen)
    as (lb & mb & Et & L1 & L2 & Ei & _ & Ebytes).
  rewrite Hbin in Et. apply some_inj in Et. subst binary.
  unfold binary_to_text, frame_bytes. rewrite <- !app_assoc.
  rewrite slice_prefix by exact L1. rewrite Ei.
  rewrite slice_middle by exact L1.
  replace (length mb mod 8 =? 0)%nat with true.
  2:{ symmetry. apply Nat.eqb_eq. rewrite L2.
      rewrite Nat.mul_comm. apply Nat.Div0.mod_mul. }
  rewrite Ebytes.
  destruct (decode_bytes_utf8 bs) as (decoded & Ed & Edb).
  rewrite Edb. cbn [snd].
  rewrite (utf8_decode_encode Ignore _ _ Hb) in Ed. apply some_inj in Ed.
  subst decoded. now rewrite normalize_idempotent.
Qed.

(** X6.  [text_to_binary] writes 32 binary digits for the bit count and
    eight for each byte, and [binary_to_text] reads no further than that
    count: whatever follows the frame, the text decoded is the same. *)
Theorem binary_to_text_ignores_what_follows (text junk : str) (bs : bytes) :
  utf8_encode (normalize text) = Some bs ->
  8 * Z.of_nat (length bs) < 2 ^ 32 ->
  exists binary,
    text_to_binary text = Some binary
    /\ length binary = (32 + 8 * length bs)%nat
    /\ Forall (digit_below 2) binary
    /\ binary_to_text (binary ++ junk) = Some (normalize text).
Proof.
  intros Hb Hlen.
  destruct (text_to_binary_frame text bs Hb Hlen)
    as (lb & mb & Et & L1 & L2 & _ & Hd & _).
  exists (lb ++ mb). split; [exact Et|]. split.
  { rewrite length_app. lia. }
  split; [exact Hd|]. eapply binary_to_text_frame_tail; eauto.
Qed.

(** X7.  Whatever [binary_to_text] returns is normalised: decoding it
    again after encoding changes nothing more. *)
Theorem binary_to_text_returns_normalized (binary text : str) :
  binary_to_text binary = Some text -> normalize text = text.
Proof.
  unfold binary_to_text. destruct (frame_bytes binary) as [bd|]; [|discriminate].
  destruct (decode_bytes_utf8 bd) as (decoded & _ & Edb). rewrite Edb.
  cbn [snd]. intros H. apply some_inj in H. subst text.
  apply normalize_idempotent.
Qed.

(** *** What normalisation keeps and what it drops *)

Lemma split_normalize text :
  split LF (normalize text) = map normalize_line (split LF text).
Proof.
  unfold normalize. change LF with [10]. apply split_join.
  - unfold split. pose proof (split_from_not_nil [10] text 0 []) as H.
    destruct (split_from [10] 0 [] text); [now elim H | discriminate].
  - apply Forall_map. apply Forall_forall. intros line _.
    apply normalize_line_no_LF.
Qed.

Lemma in_join sep : forall parts c,
  In c (join sep parts) -> In c sep \/ exists p, In p parts /\ In c p.
Proof.
  induction parts as [|x rest IH]; intros c Hin; [now elim Hin|].
  destruct rest as [|y rest'].
  - right. exists x. split; [now left | exact Hin].
  - change (join sep (x :: y :: rest'))
      with (x ++ sep ++ join sep (y :: rest')) in Hin.
    apply in_app_or in Hin as [Hin|Hin].
    + right. exists x. split; [now left | exact Hin].
    + apply in_app_or in Hin as [Hin|Hin]; [now left|].
      apply IH in Hin as [Hin|(p & Hp & Hc)]; [now left|].
      right. exists p. split; [now right | exact Hc].
Qed.

Lemma normalize_line_space line c :
  In c (normalize_line line) -> isspace c = true -> c = 32.
Proof.
  unfold normalize_line. intros Hin Hs.
  apply in_join in Hin as [Hin|(w & Hw & Hc)].
  - simpl in Hin. destruct Hin as [<-|[]]. reflexivity.
  - pose proof (split_ws_from_words line [] eq_refl) as Hwords.
    rewrite Forall_forall in Hwords. destruct (Hwords w Hw) as [_ Hall].
    rewrite forallb_forall in Hall. specialize (Hall c Hc).
    rewrite Hs in Hall. discriminate Hall.
Qed.

(** X8.  Normalisation keeps the lines: it works line by line, keeps
    their number, leaves no white space but the space and the line feed,
    and never makes the text longer. *)
Theorem normalize_keeps_lines (text : str) :
  split LF (normalize text) = map normalize_line (split LF text)
  /\ length (split LF (normalize text)) = length (split LF text)
  /\ (forall c, In c (normalize text) -> isspace c = true ->
                c = 32 \/ c = 10)
  /\ (length (normalize text) <= length text)%nat.
Proof.
  split; [apply split_normalize|]. split.
  { rewrite split_normalize. apply length_map. }
  split; [|apply normalize_length].
  intros c Hin Hs. unfold normalize in Hin.
  apply in_join in Hin as [Hin|(l & Hl & Hc)].
  - right. simpl in Hin. destruct Hin as [<-|[]]. reflexivity.
  - left. apply in_map_iff in Hl as (line & <- & _).
    eapply normalize_line_space; eauto.
Qed.

End FrameCodec.


(** ** Sealing, whatever way it ends *)

Section SealingOutcomes.
Context {P : Platform}.

(** *** Sealing, whatever way it ends *)

Lemma get_multiline_input_loop_run fuel : forall enter_count lines s,
  (length (stdin s) < fuel)%nat ->
  exists x s',
    get_multiline_input_loop fuel enter_count lines s = (x, s')
    /\ key_pool s' = key_pool s /\ files s' = files s /\ now s' = now s
    /\ stdout s' = stdout s
    /\ match x with
       | Ret _ => True
       | Raise e => e = EOFError /\ stdin s' = []
       end.
Proof.
  induction fuel as [|fuel IH]; intros n lines s Hf; [lia|].
  simpl. destruct (n <? 4)%nat.
  2:{ eexists _, _. split; [reflexivity|]. repeat split. }
  unfold bind, input. destruct (stdin s) as [|line rest] eqn:Ei.
  { eexists _, _. split; [reflexivity|]. repeat split. exact Ei. }
  destruct (upper_is_CANCEL line).
  { eexists _, _. split; [reflexivity|]. repeat split. }
  simpl in Hf.
  destruct (strip line);
    match goal with
    | |- context [get_multiline_input_loop fuel ?a ?b ?c] =>
        destruct (IH a b c) as (x & s' & E & H); [simpl; lia|]
    end; exists x, s'; (split; [exact E|]); exact H.
Qed.

Lemma get_multiline_input_run s :
  exists x s',
    get_multiline_input s = (x, s')
    /\ key_pool s' = key_pool s /\ files s' = files s /\ now s' = now s
    /\ stdout s' = stdout s
    /\ match x with
       | Ret _ => True
       | Raise e => e = EOFError /\ stdin s' = []
       end.
Proof. apply get_multiline_input_loop_run. lia. Qed.

Lemma encrypt_chunks_run self chunks : forall s,
  exists x s',
    encrypt_chunks self chunks s = (x, s')
    /\ files s' = files s /\ stdin s' = stdin s /\ now s' = now s
    /\ x <> Raise OutOfFuel.
Proof.
  induction chunks as [|chunk rest IH]; intros s.
  { eexists _, _. split; [reflexivity|]. repeat split. discriminate. }
  cbn [encrypt_chunks].
  assert (Hnone : exists x s',
             ret (A := option (list str * list (list Z))) None s = (x, s')
             /\ files s' = files s /\ stdin s' = stdin s /\ now s' = now s
             /\ x <> Raise OutOfFuel).
  { eexists _, _. split; [reflexivity|]. repeat split. discriminate. }
  destruct (text_to_binary chunk) as [[|b binary]|];
    [exact Hnone| |exact Hnone].
  unfold bind at 1. unfold try_except. unfold bind at 1.
  destruct (get_key_from_pool_run self (length (b :: binary)) s)
    as (x & s1 & E & F & I & N & Hx).
  rewrite E. destruct x as [k|e].
  - unfold ret at 1. unfold bind at 1, lift.
    destruct (mask (b :: binary) k) as [bits|].
    + unfold ret at 1. unfold bind at 1.
      destruct (IH s1) as (x2 & s2 & E2 & F2 & I2 & N2 & H2). rewrite E2.
      destruct x2 as [[[ecs keys]|]|e2];
        (eexists _, _; split; [reflexivity|]);
        (split; [congruence|]); (split; [congruence|]);
        (split; [congruence|]); try discriminate. exact H2.
    + unfold raise. eexists _, _. split; [reflexivity|].
      repeat split; try assumption. discriminate.
  - destruct Hx as [-> _]. unfold bind, print, ret.
    eexists _, _. split; [reflexivity|].
    cbn [files stdin now set_stdout]. repeat split; try assumption.
    discriminate.
Qed.

Lemma utf8_encode_ascii s :
  Forall (fun c => 0 <= c < 128) s -> utf8_encode s = Some s.
Proof.
  induction 1 as [|c r Hc _ IH]; [reflexivity|].
  cbn [utf8_encode]. rewrite IH. unfold utf8_encode_char.
  destruct (Z.ltb_spec c 0); [lia|]. destruct (Z.ltb_spec c 128); [|lia].
  reflexivity.
Qed.

Lemma hex_ascii bs :
  Forall byte bs -> Forall (fun c => 0 <= c < 128) (hex bs).
Proof.
  intros H. unfold hex.
  pose proof (hex_chars bs H) as Hh.
  eapply Forall_impl; [|exact Hh]. unfold hex_char. intros; lia.
Qed.


Lemma seal_recovery_code ts seed ecs keys total fn export tk :
  pbkdf2_gives_bytes ->
  seal ts seed ecs keys total = Some (fn, export, tk) ->
  recovery_code_of tk <> None.
Proof.
  intros Hb. unfold seal.
  destruct (sha256_hex (py_str seed)) as [seed_hash|]; [|discriminate].
  destruct (derive_transport_key _ ts) as [tk'|] eqn:Ek; [|discriminate].
  destruct (encrypt_keys tk' keys); [|discriminate].
  destruct (sha256_hex (ts ++ _)); [|discriminate].
  intros H. apply some_inj in H. apply pair_equal_spec in H as [_ <-].
  unfold derive_transport_key in Ek.
  destruct (utf8_encode (firstn 16 seed_hash)) as [a|]; [|discriminate].
  destruct (utf8_encode ts) as [b|]; [|discriminate].
  apply some_inj in Ek. subst tk'.
  unfold recovery_code_of, sha256_hex. rewrite utf8_encode_ascii.
  - discriminate.
  - apply Forall_forall. intros x Hx. apply firstn_in in Hx.
    pose proof (hex_ascii _ (Hb a b 100000)) as Hh.
    rewrite Forall_forall in Hh. now apply Hh.
Qed.

(** The ways [encrypt_and_share] ends for a message passed to it. *)
Lemma encrypt_and_share_given self c m s :
  exists r s',
    encrypt_and_share self (c :: m) s = (Ret r, s')
    /\ now s' = now s
    /\ ((r = (None, None) /\ (pbkdf2_gives_bytes -> files s' = files s))
        \/ exists fn code, r = (Some fn, Some code)).
Proof.
  unfold encrypt_and_share, try_except. unfold bind at 1. unfold ret at 1.
  destruct (forallb isspace (c :: m)).
  { unfold bind, print, ret. eexists _, _. split; [reflexivity|].
    split; [reflexivity|]. left. split; [reflexivity|]. intros _. reflexivity. }
  unfold bind at 1. unfold input.
  destruct (stdin s) as [|answer rest] eqn:Ei.
  { unfold bind, print, ret. eexists _, _. split; [reflexivity|].
    split; [reflexivity|]. left. split; [reflexivity|]. intros _. reflexivity. }
  destruct (negb (lower_is_y answer)).
  { unfold ret. eexists _, _. split; [reflexivity|].
    split; [reflexivity|]. left. split; [reflexivity|]. intros _. reflexivity. }
  destruct (chunk_size self) as [|cs] eqn:Ecs.
  { unfold raise, bind, print, ret. eexists _, _. split; [reflexivity|].
    split; [reflexivity|]. left. split; [reflexivity|]. intros _. reflexivity. }
  unfold bind at 1.
  destruct (encrypt_chunks_run self
              (chunks_of (length (c :: m)) (S cs) (c :: m))
              (set_stdin rest s)) as (x & s_b & E & F & I & N & Hx).
  rewrite E. cbn [files now set_stdin] in F, N.
  destruct x as [[[ecs keys]|]|e].
  3:{ destruct e; try (now elim Hx);
        (unfold bind, print, ret; eexists _, _; split; [reflexivity|];
         split; [exact N|]; left; split; [reflexivity|]; intros _; exact F). }
  2:{ unfold ret. eexists _, _. split; [reflexivity|].
      split; [exact N|]. left. split; [reflexivity|]. intros _. exact F. }
  unfold bind at 1. unfold bind at 1.
  destruct (getrandbits 256 (rng s_b)) as [seed g].
  unfold bind at 1. unfold lift at 1.
  destruct (seal (strftime (now s_b)) seed ecs keys _)
    as [[[fn export] tk]|] eqn:Eseal.
  2:{ unfold raise, bind, print, ret. eexists _, _. split; [reflexivity|].
      split; [exact N|]. left. split; [reflexivity|]. intros _. exact F. }
  unfold ret at 1. unfold bind at 1. unfold write_file.
  unfold bind at 1. unfold lift.
  destruct (recovery_code_of tk) as [code|] eqn:Ec.
  - unfold ret. eexists _, _. split; [reflexivity|].
    split; [exact N|]. right. eauto.
  - unfold raise, bind, print, ret. eexists _, _. split; [reflexivity|].
    split; [exact N|]. left. split; [reflexivity|]. intros Hb.
    apply (seal_recovery_code _ _ _ _ _ _ _ _ Hb) in Eseal.
    now elim Eseal.
Qed.

Lemma encrypt_and_share_typed self s msg s0 :
  get_multiline_input s = (Ret (Some msg), s0) -> msg <> [] ->
  encrypt_and_share self [] s = encrypt_and_share self msg s0.
Proof.
  intros H Hne. destruct msg as [|c m]; [now elim Hne|].
  unfold encrypt_and_share, try_except. unfold bind at 1. rewrite H.
  reflexivity.
Qed.

Lemma encrypt_and_share_run self message s :
  exists r s',
    encrypt_and_share self message s = (Ret r, s')
    /\ now s' = now s
    /\ ((r = (None, None) /\ (pbkdf2_gives_bytes -> files s' = files s))
        \/ exists fn code, r = (Some fn, Some code)).
Proof.
  destruct message as [|c m]; [|apply encrypt_and_share_given].
  destruct (get_multiline_input_run s) as (x & s0 & E & _ & F & N & _ & Hx).
  destruct x as [[[|c m]|]|e].
  - unfold encrypt_and_share, try_except. unfold bind at 1. rewrite E.
    unfold bind, print, ret. eexists _, _. split; [reflexivity|].
    split; [exact N|]. left. split; [reflexivity|]. intros _. exact F.
  - rewrite (encrypt_and_share_typed self s (c :: m) s0 E) by discriminate.
    destruct (encrypt_and_share_given self c m s0) as (r & s' & E' & N' & H).
    exists r, s'. split; [exact E'|]. split; [congruence|].
    destruct H as [[-> H]|H]; [left | now right].
    split; [reflexivity|]. intros Hb. rewrite (H Hb). exact F.
  - unfold encrypt_and_share, try_except. unfold bind at 1. rewrite E.
    unfold bind, print, ret. eexists _, _. split; [reflexivity|].
    split; [exact N|]. left. split; [reflexivity|]. intros _. exact F.
  - destruct Hx as [-> _].
    unfold encrypt_and_share, try_except. unfold bind at 1. rewrite E.
    unfold bind, print, ret. eexists _, _. split; [reflexivity|].
    split; [exact N|]. left. split; [reflexivity|]. intros _. exact F.
Qed.

(** X11.  [encrypt_and_share] never raises, whatever the message, the
    input and the pool: it returns a file name and a recovery code, or
    [None] for both. *)
Theorem encrypt_and_share_returns_both_or_none (self : SecureBB84)
  (message : str) (s : State) :
  exists r s',
    encrypt_and_share self message s = (Ret r, s')
    /\ (fst r = None <-> snd r = None).
Proof.
  destruct (encrypt_and_share_run self message s) as (r & s' & E & _ & H).
  exists r, s'. split; [exact E|].
  destruct H as [[-> _]|(fn & code & ->)]; simpl; split; auto; discriminate.
Qed.

(** X12.  A sealing that returns [(None, None)] has written no file
    ([hashlib.pbkdf2_hmac] returning bytes). *)
Theorem failed_sealing_writes_no_file (self : SecureBB84) (message : str)
  (s s' : State) :
  pbkdf2_gives_bytes ->
  encrypt_and_share self message s = (Ret (None, None), s') ->
  files s' = files s.
Proof.
  intros Hb E.
  destruct (encrypt_and_share_run self message s) as (r & s1 & E1 & _ & H).
  rewrite E in E1. apply pair_equal_spec in E1 as [Er <-].
  apply (f_equal (fun x => match x with Ret v => v | Raise _ => (None, None) end)) in Er.
  subst r. destruct H as [[_ H]|(fn & code & H)]; [now apply H | discriminate H].
Qed.


End SealingOutcomes.


(** ** What a successful sealing leaves *)

Section SealedContainer.
Context {P : Platform}.

(** *** What a successful sealing leaves *)

Lemma state_read_frame message s :
  files (state_read message s) = files s
  /\ now (state_read message s) = now s
  /\ stdout (state_read message s) = stdout s.
Proof.
  destruct message; [|repeat split]. unfold state_read.
  destruct (get_multiline_input_run s) as (x & s' & E & _ & F & N & O & _).
  rewrite E. now repeat split.
Qed.

Lemma encrypt_and_share_success_world self message s fn code s1 :
  encrypt_and_share self message s = (Ret (Some fn, Some code), s1) ->
  exists msg s_b ecs keys seed export tk,
    message_read message s = Some msg
    /\ encrypt_chunks self (chunks_of (length msg) (chunk_size self) msg)
         (set_stdin (tl (stdin (state_read message s)))
            (state_read message s))
       = (Ret (Some (ecs, keys)), s_b)
    /\ seal (strftime (now s_b)) seed ecs keys
         (length (chunks_of (length msg) (chunk_size self) msg))
       = Some (fn, export, tk)
    /\ files s1 = (fun n => if str_eqb n fn then Some export
                            else files s_b n)
    /\ key_pool s1 = key_pool s_b /\ stdin s1 = stdin s_b
    /\ stdout s1 = stdout s_b.
Proof.
  unfold encrypt_and_share. intros H.
  apply try_except_ret_inv in H as [H|(e & sx & _ & H)].
  2:{ unfold bind, print, ret in H. discriminate. }
  apply bind_ret_inv in H as (m0 & s0 & E0 & H).
  assert (Em : message_read message s = m0 /\ state_read message s = s0).
  { unfold message_read, state_read.
    destruct message; [now rewrite E0|].
    unfold ret in E0. apply pair_equal_spec in E0 as [E0 <-].
    injection E0 as <-. now split. }
  destruct Em as [Emsg <-].
  destruct m0 as [[|c0 m]|];
    try (unfold bind, print, ret in H; discriminate).
  destruct (forallb isspace (c0 :: m));
    [unfold bind, print, ret in H; discriminate|].
  apply bind_ret_inv in H as (answer & s_a & Ein & H).
  destruct (negb (lower_is_y answer)); [discriminate|].
  destruct (chunk_size self) as [|cs] eqn:Ecs; [discriminate|].
  apply bind_ret_inv in H as ([[ecs keys]|] & s_b & Eenc & H);
    [|discriminate].
  apply bind_ret_inv in H as (ts & s_c & Ets & H). injection Ets as <- <-.
  apply bind_ret_inv in H as (seed & s_d & Eseed & H).
  destruct (getrandbits 256 (rng s_b)) as [v g].
  apply pair_equal_spec in Eseed as [Ev <-]. injection Ev as ->.
  apply bind_ret_inv in H as (sealed & s_e & Eseal & H).
  unfold lift in Eseal.
  destruct (seal _ seed ecs keys _) as [[[fn' export] tk]|] eqn:Es;
    [|discriminate].
  unfold ret in Eseal. apply pair_equal_spec in Eseal as [Er <-].
  injection Er as <-.
  apply bind_ret_inv in H as (u & s_f & Ew & H).
  unfold write_file in Ew. apply pair_equal_spec in Ew as [_ <-].
  apply bind_ret_inv in H as (rc & s_g & Erc & H).
  unfold lift in Erc. destruct (recovery_code_of tk) as [rc'|] eqn:Ecode;
    [|discriminate].
  unfold ret in Erc. apply pair_equal_spec in Erc as [Er <-].
  injection Er as <-.
  unfold ret in H. apply pair_equal_spec in H as [H <-].
  injection H as <- <-.
  exists (c0 :: m), s_b, ecs, keys, seed, export, tk.
  split; [exact Emsg|]. split.
  { unfold input in Ein.
    destruct (stdin (state_read message s)) as [|l rest] eqn:Ei;
      [discriminate|].
    injection Ein as _ <-. exact Eenc. }
  split; [exact Es|]. repeat split.
Qed.

Lemma seal_filename ts seed ecs keys total fn export tk :
  seal ts seed ecs keys total = Some (fn, export, tk) ->
  fn = lit "qkd_message_" ++ ts ++ lit ".qk".
Proof.
  unfold seal.
  destruct (sha256_hex (py_str seed)) as [seed_hash|]; [|discriminate].
  destruct (derive_transport_key _ ts) as [tk'|]; [|discriminate].
  destruct (encrypt_keys tk' keys); [|discriminate].
  destruct (sha256_hex (ts ++ _)); [|discriminate].
  intros H. apply some_inj in H. apply pair_equal_spec in H as [H _].
  apply pair_equal_spec in H as [<- _]. reflexivity.
Qed.

(** X14.  A successful sealing writes exactly one file, and its name is
    made from the clock reading alone, to the second: every other file is
    as it was. *)
Theorem sealing_writes_one_file (self : SecureBB84) (message fn code : str)
  (s s1 : State) :
  encrypt_and_share self message s = (Ret (Some fn, Some code), s1) ->
  fn = lit "qkd_message_" ++ strftime (now s) ++ lit ".qk"
  /\ files s1 fn <> None
  /\ (forall other, other <> fn -> files s1 other = files s other).
Proof.
  intros H. apply encrypt_and_share_success_world in H
    as (msg & s_b & ecs & keys & seed & export & tk
        & _ & Eenc & Eseal & Ef & _).
  destruct (encrypt_chunks_run self
              (chunks_of (length msg) (chunk_size self) msg)
              (set_stdin (tl (stdin (state_read message s)))
                 (state_read message s))) as (x & s' & E & F & _ & N & _).
  rewrite Eenc in E. apply pair_equal_spec in E as [_ <-].
  cbn [files now set_stdin] in F, N.
  destruct (state_read_frame message s) as (F0 & N0 & _).
  apply seal_filename in Eseal. rewrite N, N0 in Eseal.
  split; [exact Eseal|]. rewrite Ef. split.
  - rewrite str_eqb_refl. discriminate.
  - intros other Hne. apply str_eqb_neq in Hne. rewrite Hne. congruence.
Qed.

(** X15.  The recovery code is a function of the text of the container:
    the code that [decrypt_shared_message] compares with the one supplied
    is derived from the time stamp and the salt stored in the file. *)
Theorem recovery_code_is_in_the_file (self : SecureBB84)
  (message fn code : str) (s s1 : State) :
  encrypt_and_share self message s = (Ret (Some fn, Some code), s1) ->
  exists export,
    files s1 fn = Some export
    /\ check_code_of_container export = Some code.
Proof.
  intros H. apply seal_opens in H
    as (msg & s_b & ecs & keys & export & tk & ts & salt & all_keys & vh
        & _ & _ & _ & _ & Ef & Ep & Ek & _ & _ & Ec).
  exists export. split; [exact Ef|].
  unfold check_code_of_container. now rewrite Ep, Ek.
Qed.

(** X17.  Typing a message at the console and then sealing it is sealing
    that message passed as the argument, in the state the typing left. *)
Theorem typed_message_is_sealed_as_given (self : SecureBB84) (s s0 : State)
  (msg : str) :
  get_multiline_input s = (Ret (Some msg), s0) -> msg <> [] ->
  encrypt_and_share self [] s = encrypt_and_share self msg s0.
Proof.
  intros H Hne. destruct msg as [|c m]; [now elim Hne|].
  unfold encrypt_and_share, try_except. unfold bind at 1. rewrite H.
  reflexivity.
Qed.

End SealedContainer.


(** ** The key bits a sealing uses *)

Section KeyUse.
Context {P : Platform}.

(** *** The bits a sealing takes *)

Lemma firstn_plus {A} (n m : nat) (l : list A) :
  firstn (n + m) l = firstn n l ++ firstn m (skipn n l).
Proof.
  revert l. induction n as [|n IH]; intros [|a l]; simpl;
    try reflexivity.
  - now rewrite firstn_nil.
  - now rewrite IH.
Qed.

(** Each chunk is masked with the key drawn for it, a key as long as its
    frame. *)
Lemma encrypt_chunks_masked self chunks : forall s ecs keys s',
  encrypt_chunks self chunks s = (Ret (Some (ecs, keys)), s') ->
  masked_chunks chunks ecs keys.
Proof.
  induction chunks as [|chunk rest IH]; intros s ecs keys s' H.
  - injection H as <- <- <-. constructor.
  - cbn [encrypt_chunks] in H.
    destruct (text_to_binary chunk) as [[|b binary]|] eqn:Eb;
      try discriminate H.
    apply bind_ret_inv in H as (k & s1 & Ek & H).
    apply try_except_ret_inv in Ek as [Ek|(e & sx & _ & Ek)].
    2:{ unfold bind, print, ret in Ek. injection Ek as <- <-.
        discriminate H. }
    apply bind_ret_inv in Ek as (k0 & s0 & Eg & Ek).
    injection Ek as <- <-.
    apply bind_ret_inv in H as (bits & s2 & Em & H).
    unfold lift in Em.
    destruct (mask (b :: binary) k0) as [bits'|] eqn:Emask;
      [|discriminate Em].
    injection Em as <- <-.
    apply bind_ret_inv in H as ([[ecs' keys']|] & s3 & Er & H);
      [|discriminate H].
    injection H as <- <- <-.
    destruct (get_key_from_pool_run self (length (b :: binary)) s)
      as (x & sx & Ex & _ & _ & _ & Hx).
    rewrite Eg in Ex. apply pair_equal_spec in Ex as [<- <-].
    destruct Hx as (Hl & _).
    econstructor; eauto.
Qed.

(** When the pool holds the bits of all the keys, they are its first bits,
    in order, and the rest is left. *)
Lemma encrypt_chunks_takes self chunks : forall s ecs keys s',
  encrypt_chunks self chunks s = (Ret (Some (ecs, keys)), s') ->
  (length (concat keys) <= length (concat (key_pool s)))%nat ->
  concat keys = firstn (length (concat keys)) (concat (key_pool s))
  /\ concat (key_pool s')
     = skipn (length (concat keys)) (concat (key_pool s)).
Proof.
  induction chunks as [|chunk rest IH]; intros s ecs keys s' H Hn.
  - injection H as <- <- <-. now split.
  - cbn [encrypt_chunks] in H.
    destruct (text_to_binary chunk) as [[|b binary]|] eqn:Eb;
      try discriminate H.
    apply bind_ret_inv in H as (k & s1 & Ek & H).
    apply try_except_ret_inv in Ek as [Ek|(e & sx & _ & Ek)].
    2:{ unfold bind, print, ret in Ek. injection Ek as <- <-.
        discriminate H. }
    apply bind_ret_inv in Ek as (k0 & s0 & Eg & Ek).
    injection Ek as <- <-.
    apply bind_ret_inv in H as (bits & s2 & Em & H).
    unfold lift in Em. destruct (mask (b :: binary) k0); [|discriminate Em].
    injection Em as <- <-.
    apply bind_ret_inv in H as ([[ecs' keys']|] & s3 & Er & H);
      [|discriminate H].
    injection H as <- <- <-.
    destruct (get_key_from_pool_run self (length (b :: binary)) s)
      as (x & sx & Ex & _ & _ & _ & Hx).
    rewrite Eg in Ex. apply pair_equal_spec in Ex as [<- <-].
    destruct Hx as (Hl & _).
    cbn [concat] in Hn |- *. rewrite length_app in Hn |- *.
    destruct (get_key_from_pool_take self (length (b :: binary)) s)
      as (sy & Ey & Hc & _); [lia|].
    rewrite Eg in Ey. apply pair_equal_spec in Ey as [Ey <-].
    injection Ey as Ey.
    apply IH in Er as (Hk & Hp).
    2:{ rewrite Hc, length_skipn. lia. }
    rewrite Hl, firstn_plus. split.
    + rewrite <- Hc, <- Hk. f_equal. exact Ey.
    + rewrite Hp, Hc, skipn_skipn. f_equal. lia.
Qed.

(** The keys have as many bits as the frames have digits. *)
Lemma masked_chunks_bits chunks ecs keys :
  masked_chunks chunks ecs keys ->
  length (concat keys)
  = fold_right
      (fun chunk n =>
         (match text_to_binary chunk with
          | Some binary => length binary
          | None => 0
          end + n)%nat) 0%nat chunks.
Proof.
  induction 1 as [|chunk chunks ec ecs key keys binary bits Eb Hl _ _ _ IH];
    [reflexivity|].
  cbn [concat fold_right]. now rewrite length_app, Eb, Hl, IH.
Qed.

(** X16.  A sealing masks each chunk with a key of exactly as many bits as
    the chunk's frame has digits, and these keys are the ones the
    container stores, encrypted with the transport key, beside the masked
    chunks.  When the pool holds that many bits, every bit is used once:
    the keys, in order, are the first bits of the pool, and the pool is
    left with the rest. *)
Theorem key_bits_are_used_once (self : SecureBB84)
  (message fn code : str) (s s1 : State) :
  encrypt_and_share self message s = (Ret (Some fn, Some code), s1) ->
  exists msg encrypted_chunks keys_used export timestamp salt encrypted_keys
         verification_hash transport_key,
    message_read message s = Some msg
    /\ masked_chunks (chunks_of (length msg) (chunk_size self) msg)
         encrypted_chunks keys_used
    /\ files s1 fn = Some export
    /\ parse_container export
       = Some (timestamp, salt, join HASHES encrypted_keys,
               join HASHES encrypted_chunks, verification_hash,
               py_str (Z.of_nat
                         (length (chunks_of (length msg) (chunk_size self)
                                    msg))))
    /\ derive_transport_key salt timestamp = Some transport_key
    /\ encrypt_keys transport_key keys_used = Some encrypted_keys
    /\ ((length (concat keys_used) <= length (concat (key_pool s)))%nat ->
        concat keys_used
        = firstn (length (concat keys_used)) (concat (key_pool s))
        /\ concat (key_pool s1)
           = skipn (length (concat keys_used)) (concat (key_pool s))).
Proof.
  intros H.
  destruct (encrypt_and_share_success_world _ _ _ _ _ _ H)
    as (msg0 & s_b0 & ecs0 & keys0 & seed & export0 & tk0
        & Em0 & Eenc0 & _ & _ & K & _).
  apply seal_opens in H
    as (msg & s_b & ecs & keys & export & tk & ts & salt & all_keys & vh
        & Em & _ & _ & Eenc & Ef & Epc & Ek & Eks & _ & _).
  rewrite Em in Em0. apply some_inj in Em0. subst msg0.
  rewrite Eenc in Eenc0. apply pair_equal_spec in Eenc0 as [E0 <-].
  clear E0.
  exists msg, ecs, keys, export, ts, salt, all_keys, vh, tk.
  split; [exact Em|].
  split; [eapply encrypt_chunks_masked; exact Eenc|].
  split; [exact Ef|]. split; [exact Epc|]. split; [exact Ek|].
  split; [exact Eks|].
  intros Hn. apply encrypt_chunks_takes in Eenc.
  - cbn [key_pool set_stdin] in Eenc. rewrite state_read_pool in Eenc.
    now rewrite K.
  - cbn [key_pool set_stdin]. now rewrite state_read_pool.
Qed.

End KeyUse.


(** ** Opening, whatever the file holds *)

Section OpeningOutcomes.
Context {P : Platform}.

(** *** Opening, whatever the file holds *)

Lemma options_loop_run fuel : forall timestamp text s,
  (length (stdin s) < fuel)%nat ->
  exists x s',
    options_loop fuel timestamp text s = (x, s')
    /\ key_pool s' = key_pool s
    /\ match x with
       | Ret _ => True
       | Raise e => e = EOFError
       end.
Proof.
  induction fuel as [|fuel IH]; intros ts text s Hf; [lia|].
  cbn [options_loop]. unfold bind at 1. unfold input at 1.
  destruct (stdin s) as [|choice rest] eqn:Ei.
  { eexists _, _. split; [reflexivity|]. now split. }
  simpl in Hf.
  destruct (str_eqb (strip choice) (lit "1")).
  { unfold bind at 1, print at 1.
    match goal with
    | |- context [options_loop fuel ts text ?c] =>
        destruct (IH ts text c) as (x & s' & E & K & H); [simpl; lia|]
    end.
    exists x, s'. split; [exact E|]. split; [exact K | exact H]. }
  destruct (str_eqb (strip choice) (lit "2")).
  { unfold bind at 1. unfold try_except. unfold bind at 1. unfold input at 1.
    cbn [stdin set_stdin]. destruct rest as [|name rest'].
    - unfold print at 1.
      match goal with
      | |- context [options_loop fuel ts text ?c] =>
          destruct (IH ts text c) as (x & s' & E & K & H); [simpl; lia|]
      end.
      exists x, s'. split; [exact E|]. split; [exact K | exact H].
    - unfold bind at 1. unfold write_file at 1. unfold print at 1.
      match goal with
      | |- context [options_loop fuel ts text ?c] =>
          destruct (IH ts text c) as (x & s' & E & K & H);
            [simpl in Hf |- *; lia|]
      end.
      exists x, s'. split; [exact E|]. split; [exact K | exact H]. }
  destruct (str_eqb (strip choice) (lit "3")).
  { eexists _, _. split; [reflexivity|]. now split. }
  unfold bind at 1, print at 1.
  match goal with
  | |- context [options_loop fuel ts text ?c] =>
      destruct (IH ts text c) as (x & s' & E & K & H); [simpl; lia|]
  end.
  exists x, s'. split; [exact E|]. split; [exact K | exact H].
Qed.

Ltac fails_with_none :=
  unfold raise, bind, print, ret; eexists _, _; split; reflexivity.

Ltac after_options_loop :=
  match goal with
  | |- context [options_loop ?f ?ts ?text ?c] =>
      let x := fresh "x" in
      let s' := fresh "s'" in
      let E := fresh "E" in
      let K := fresh "K" in
      let H := fresh "H" in
      destruct (options_loop_run f ts text c)
        as (x & s' & E & K & H); [simpl; lia|];
      cbn [stdin set_stdout set_stdin] in E |- *; rewrite E;
      cbn [key_pool set_stdout set_stdin] in K;
      destruct x as [?|?];
      [unfold ret; eexists _, _; split; [reflexivity | exact K]
      |subst; unfold bind, print, ret; eexists _, _;
       split; [reflexivity | exact K]]
  end.

Ltac after_integrity_check :=
  unfold bind at 1; unfold lift at 1;
  match goal with
  | |- context [derive_transport_key ?a ?b] =>
      destruct (derive_transport_key a b)
  end;
  [|fails_with_none];
  unfold ret at 1; unfold bind at 1; unfold lift at 1;
  match goal with
  | |- context [recovery_code_of ?k] => destruct (recovery_code_of k)
  end;
  [|fails_with_none];
  unfold ret at 1;
  match goal with
  | |- context [negb (str_eqb ?a ?c)] => destruct (negb (str_eqb a c))
  end;
  [fails_with_none|];
  match goal with
  | |- context [negb ?a || negb ?b] => destruct (negb a || negb b)
  end;
  [fails_with_none|];
  unfold bind at 1, print at 1;
  match goal with
  | |- context [decrypt_chunks ?k ?a ?b] => destruct (decrypt_chunks k a b)
  end;
  [|fails_with_none];
  unfold bind at 1, print at 1; unfold bind at 1;
  after_options_loop.

Lemma decrypt_shared_message_run filename recovery_code s :
  exists r s',
    decrypt_shared_message filename recovery_code s = (Ret r, s')
    /\ key_pool s' = key_pool s.
Proof.
  unfold decrypt_shared_message, try_except. unfold bind at 1.
  unfold read_file.
  destruct (files s filename) as [content|].
  2:{ unfold bind, print, ret. eexists _, _. split; reflexivity. }
  destruct (parse_container content)
    as [[[[[[ts salt] eks] em] vh] cnt]|].
  2:{ unfold bind, print, ret. eexists _, _. split; reflexivity. }
  unfold bind at 1. unfold lift at 1.
  destruct (py_int 10 cnt) as [n|].
  2:{ unfold raise, bind, print, ret. eexists _, _. split; reflexivity. }
  unfold ret at 1. unfold bind at 1. unfold lift at 1.
  destruct (sha256_hex (ts ++ salt ++ eks ++ em)) as [check_hash|].
  2:{ unfold raise, bind, print, ret. eexists _, _. split; reflexivity. }
  unfold ret at 1. unfold bind at 1.
  destruct (str_eqb check_hash vh).
  { unfold ret at 1. cbn [negb]. after_integrity_check. }
  unfold bind at 1, print at 1. unfold bind at 1, input at 1.
  cbn [stdin set_stdout].
  destruct (stdin s) as [|answer rest].
  { unfold bind, print, ret. eexists _, _. split; reflexivity. }
  unfold ret at 1.
  destruct (negb (lower_is_y answer)).
  { unfold ret. eexists _, _. split; reflexivity. }
  after_integrity_check.
Qed.


(** X20.  [decrypt_shared_message] never raises, whatever the file holds
    and whatever is typed, and never touches the key pool. *)
Theorem decrypt_shared_message_always_returns (filename recovery_code : str)
  (s : State) :
  exists r s',
    decrypt_shared_message filename recovery_code s = (Ret r, s')
    /\ key_pool s' = key_pool s.
Proof.
  unfold decrypt_shared_message, try_except. unfold bind at 1.
  unfold read_file.
  destruct (files s filename) as [content|].
  2:{ unfold bind, print, ret. eexists _, _. split; reflexivity. }
  destruct (parse_container content)
    as [[[[[[ts salt] eks] em] vh] cnt]|].
  2:{ unfold bind, print, ret. eexists _, _. split; reflexivity. }
  unfold bind at 1. unfold lift at 1.
  destruct (py_int 10 cnt) as [n|].
  2:{ unfold raise, bind, print, ret. eexists _, _. split; reflexivity. }
  unfold ret at 1. unfold bind at 1. unfold lift at 1.
  destruct (sha256_hex (ts ++ salt ++ eks ++ em)) as [check_hash|].
  2:{ unfold raise, bind, print, ret. eexists _, _. split; reflexivity. }
  unfold ret at 1. unfold bind at 1.
  destruct (str_eqb check_hash vh).
  { unfold ret at 1. cbn [negb]. after_integrity_check. }
  unfold bind at 1, print at 1. unfold bind at 1, input at 1.
  cbn [stdin set_stdout].
  destruct (stdin s) as [|answer rest].
  { unfold bind, print, ret. eexists _, _. split; reflexivity. }
  unfold ret at 1.
  destruct (negb (lower_is_y answer)).
  { unfold ret. eexists _, _. split; reflexivity. }
  after_integrity_check.
Qed.


(** *** A chunk of white space *)

Lemma decrypt_chunks_blank tk chunks ecs keys :
  sealed_chunks chunks ecs keys -> forall all_keys,
  Forall2 (fun key k => encrypt_key tk key = Some k) keys all_keys ->
  Forall (fun c => Z.of_nat (length c) < 2 ^ 27) chunks ->
  Exists (fun c => normalize c = []) chunks ->
  decrypt_chunks tk all_keys ecs = None.
Proof.
  induction 1 as [|chunk chunks ec ecs key keys binary bits
                   Eb Hne Hl Hk Em Eec Hs IH]; intros all_keys Hks Hc Hex.
  - inversion Hex.
  - inversion Hks as [|? k ? ks Hkey Hrest]; subst.
    inversion Hc as [|? ? Hlen Hc']; subst.
    destruct (recover_encrypt_key tk key k Hkey) as (Er & _).
    { destruct key; [|discriminate]. destruct binary; [congruence|].
      simpl in Hl. lia. }
    { eapply Forall_impl; [|exact Hk]. unfold bit. intros; lia. }
    cbn [decrypt_chunks]. unfold decrypt_chunk. rewrite Er.
    rewrite (unmask_sealed_chunk chunk binary key bits Eb Hlen Hk Hl Em).
    destruct (normalize chunk) as [|c t] eqn:En; [reflexivity|].
    inversion Hex as [? ? Hb|? ? Hb]; subst; [congruence|].
    now rewrite (IH ks Hrest Hc' Hb).
Qed.

Lemma decrypt_failed_chunk fn s2 content ts salt eks em vh cnt tk code :
  files s2 fn = Some content ->
  parse_container content = Some (ts, salt, eks, em, vh, cnt) ->
  py_int 10 cnt = Some (Z.of_nat (length (split HASHES eks))) ->
  length (split HASHES em) = length (split HASHES eks) ->
  sha256_hex (ts ++ salt ++ eks ++ em) = Some vh ->
  derive_transport_key salt ts = Some tk ->
  recovery_code_of tk = Some code ->
  decrypt_chunks tk (split HASHES eks) (split HASHES em) = None ->
  decrypt_shared_message fn code s2
  = (Ret None,
     set_stdout
       (stdout s2
        ++ [PrintProcessingChunks (Z.of_nat (length (split HASHES eks)));
            LogError "Chunk decryption error"]) s2).
Proof.
  intros Hf Hp Hi Hl Hh Hk Hc Hd.
  unfold decrypt_shared_message, try_except.
  unfold bind at 1. unfold read_file. rewrite Hf, Hp.
  unfold bind at 1. rewrite Hi. unfold lift at 1, ret at 1.
  unfold bind at 1. rewrite Hh. unfold lift at 1, ret at 1.
  unfold bind at 1. rewrite str_eqb_refl. unfold ret at 1. cbn [negb].
  unfold bind at 1. rewrite Hk. unfold lift at 1, ret at 1.
  unfold bind at 1. rewrite Hc. unfold lift at 1, ret at 1.
  rewrite str_eqb_refl. cbn [negb]. rewrite Hl, Z.eqb_refl. cbn [negb orb].
  unfold bind at 1, print at 1. rewrite Hd.
  unfold bind, print, ret. cbn [stdout set_stdout].
  rewrite <- app_assoc. reflexivity.
Qed.

Hypothesis getrandbits_1_bit : forall g, bit (fst (getrandbits 1 g)).


(** X22.  A message is sealed even when one of its chunks is blank after
    normalisation (white space with no line feed in it), but the
    container cannot be opened: that chunk decodes to the empty text,
    which line 444 takes for a failure, and [decrypt_shared_message]
    returns [None] with the right recovery code. *)
Theorem blank_chunk_cannot_be_opened (self : SecureBB84)
  (message filename recovery_code msg : str) (s s1 s2 : State) :
  pool_of_bits s ->
  Z.of_nat (chunk_size self) < 2 ^ 27 ->
  encrypt_and_share self message s
  = (Ret (Some filename, Some recovery_code), s1) ->
  files s2 filename = files s1 filename ->
  message_read message s = Some msg ->
  Exists (fun c => normalize c = [])
    (chunks_of (length msg) (chunk_size self) msg) ->
  fst (decrypt_shared_message filename recovery_code s2) = Ret None.
Proof.
  intros Hp Hsize H Hf Hm Hex.
  apply seal_opens in H
    as (msg' & s_b & ecs & keys & export & tk & ts & salt & all_keys & vh
        & Em & Hne & Hcs & Eenc & Ef & Epc & Ek & Eks & Eh & Ec).
  rewrite Hm in Em. apply some_inj in Em. subst msg'.
  set (chunks := chunks_of (length msg) (chunk_size self) msg) in *.
  destruct (chunks_of_spec (chunk_size self) Hcs (length msg) msg (le_n _))
    as [Econcat Hchunks]. fold chunks in Econcat, Hchunks.
  assert (Hsealed : sealed_chunks chunks ecs keys).
  { eapply (encrypt_chunks_sealed getrandbits_1_bit); [|exact Eenc].
    unfold pool_of_bits in *. cbn [key_pool set_stdin].
    now rewrite state_read_pool. }
  pose proof (encrypt_keys_each _ _ _ Eks) as Hall.
  assert (Hlens : Forall (fun c => Z.of_nat (length c) < 2 ^ 27) chunks).
  { rewrite Forall_forall in *. intros c Hc.
    destruct (Hchunks c Hc) as [_ Hlen]. lia. }
  pose proof (decrypt_chunks_blank tk chunks ecs keys Hsealed all_keys Hall
                Hlens Hex) as Hnone.
  assert (Hcne : chunks <> [])
    by (subst chunks; now apply chunks_of_not_nil).
  destruct (encrypt_chunks_chars _ _ _ _ _ _ Eenc) as (Hch & L2 & L3).
  fold chunks in L2, L3.
  assert (L1 : length all_keys = length chunks).
  { transitivity (length keys); [|exact L3].
    symmetry. eapply Forall2_length; eauto. }
  assert (H1 : Forall (fun k => ~ In 35 k) all_keys).
  { clear - Hall Hsealed. revert all_keys Hall.
    induction Hsealed as [|chunk chunks ec ecs key keys binary bits
                           Eb Hne Hl Hk Em Eec Hs IH]; intros all_keys Hall;
      inversion Hall as [|? k ? ks Hkey Hrest]; subst; constructor.
    - destruct (recover_encrypt_key tk key k Hkey) as (_ & Hhex).
      { destruct key; [|discriminate]. destruct binary; [congruence|].
        simpl in Hl. lia. }
      { eapply Forall_impl; [|exact Hk]. unfold bit. intros; lia. }
      now apply hex_no_hash.
    - now apply IH. }
  assert (H2 : Forall (fun e => ~ In 35 e) ecs).
  { eapply Forall_impl; [|exact Hch]. intros e. apply numeral_no_hash. }
  assert (S1 : split HASHES (join HASHES all_keys) = all_keys).
  { change HASHES with [35; 35; 35]. apply split_join; [|exact H1].
    destruct all_keys; [|discriminate]. destruct chunks; [congruence|].
    discriminate. }
  assert (S2 : split HASHES (join HASHES ecs) = ecs).
  { change HASHES with [35; 35; 35]. apply split_join; [|exact H2].
    destruct ecs; [|discriminate]. destruct chunks; [congruence|].
    discriminate. }
  erewrite decrypt_failed_chunk; [reflexivity | | exact Epc | | | exact Eh
                                 | exact Ek | exact Ec | ].
  - congruence.
  - rewrite S1, L1. apply py_int_py_str. lia.
  - rewrite S1, S2, L1. exact L2.
  - rewrite S1, S2. exact Hnone.
Qed.

End OpeningOutcomes.


(** ** The console *)

Section Console.
Context {P : Platform}.

(** *** Saving the opened text *)




(** *** Typing a message *)

Lemma blank_is_not_CANCEL line : strip line = [] -> upper_is_CANCEL line = false.
Proof.
  intros Hb. unfold upper_is_CANCEL.
  destruct (str_eqb (map upper_ascii line) (lit "CANCEL")) eqn:E;
    [|reflexivity].
  apply str_eqb_eq in E. destruct line as [|c r]; [discriminate E|].
  exfalso. apply (strip_not_nil c r); [|exact Hb].
  simpl in E. injection E as E _. unfold upper_ascii in E.
  destruct ((97 <=? c) && (c <=? 122)) eqn:Ec.
  - assert (c = 99) by lia. subst c. reflexivity.
  - subst c. reflexivity.
Qed.

Lemma get_multiline_input_loop_ordinary lines :
  forall fuel enter_count acc s tail,
  Forall ordinary lines -> lines <> [] ->
  (enter_count < 4)%nat ->
  stdin s = lines ++ tail ->
  get_multiline_input_loop (length lines + fuel) enter_count acc s
  = get_multiline_input_loop fuel 0 (acc ++ lines) (set_stdin tail s).
Proof.
  induction lines as [|line rest IH]; intros fuel n acc s tail Ho Hne Hn Hi;
    [now elim Hne|].
  inversion Ho as [|? ? [Hc Hs] Hrest]; subst.
  cbn [length Nat.add get_multiline_input_loop].
  apply Nat.ltb_lt in Hn. rewrite Hn.
  unfold bind at 1, input at 1. rewrite Hi. cbn [app]. rewrite Hc.
  destruct (strip line) as [|c0 r0] eqn:Es; [now elim Hs|].
  destruct rest as [|line2 rest2].
  - cbn [length Nat.add app]. f_equal.
  - rewrite (IH fuel 0%nat (acc ++ [line]) (set_stdin ((line2 :: rest2) ++ tail) s)
               tail Hrest); [|discriminate | lia | reflexivity].
    rewrite <- app_assoc. reflexivity.
Qed.

(** X18.  A message typed at the console ends at four blank lines in a
    row, which are part of the message returned; what is typed after them
    is left in the input. *)
Theorem typed_message_ends_at_four_blank_lines (s : State)
  (lines blanks rest : list str) :
  Forall ordinary lines ->
  Forall (fun b => strip b = []) blanks -> length blanks = 4%nat ->
  stdin s = lines ++ blanks ++ rest ->
  get_multiline_input s
  = (Ret (Some (join LF (lines ++ blanks))), set_stdin rest s).
Proof.
  intros Ho Hb Hl Hi.
  destruct blanks as [|b1 [|b2 [|b3 [|b4 [|? ?]]]]]; try discriminate Hl.
  inversion Hb as [|? ? B1 Hb1]; subst. inversion Hb1 as [|? ? B2 Hb2]; subst.
  inversion Hb2 as [|? ? B3 Hb3]; subst. inversion Hb3 as [|? ? B4 _]; subst.
  unfold get_multiline_input. rewrite Hi, !length_app. cbn [length].
  assert (Hblanks : forall fuel acc s0,
             stdin s0 = [b1; b2; b3; b4] ++ rest ->
             get_multiline_input_loop (S (S (S (S fuel)))) 0 acc s0
             = (Ret (Some (join LF (acc ++ [b1; b2; b3; b4]))),
                set_stdin rest s0)).
  { intros fuel acc s0 H0.
    cbn [get_multiline_input_loop Nat.ltb Nat.leb].
    unfold bind at 1, input at 1. rewrite H0. cbn [app].
    rewrite (blank_is_not_CANCEL b1 B1), B1.
    unfold bind at 1, input at 1. cbn [stdin set_stdin].
    rewrite (blank_is_not_CANCEL b2 B2), B2.
    unfold bind at 1, input at 1. cbn [stdin set_stdin].
    rewrite (blank_is_not_CANCEL b3 B3), B3.
    unfold bind at 1, input at 1. cbn [stdin set_stdin].
    rewrite (blank_is_not_CANCEL b4 B4), B4.
    destruct fuel; cbn [get_multiline_input_loop Nat.ltb Nat.leb];
      unfold ret; rewrite <- !app_assoc; reflexivity. }
  destruct lines as [|l0 lines0].
  - cbn [length Nat.add app] in *.
    replace (S (4 + length rest)) with (S (S (S (S (S (length rest))))))
      by lia.
    now rewrite Hblanks.
  - replace (S (length (l0 :: lines0) + (4 + length rest)))
      with (length (l0 :: lines0) + S (S (S (S (S (length rest))))))%nat
      by lia.
    rewrite (get_multiline_input_loop_ordinary (l0 :: lines0) _ 0%nat [] s
               ([b1; b2; b3; b4] ++ rest) Ho); [|discriminate | lia | exact Hi].
    rewrite Hblanks by reflexivity. reflexivity.
Qed.

(** X19.  The word CANCEL, in any mix of upper and lower case, on a line
    of its own drops everything typed before it: [get_multiline_input]
    returns [None]. *)
Theorem cancel_drops_the_message (s : State) (lines rest : list str)
  (cancel : str) :
  Forall ordinary lines ->
  map upper_ascii cancel = lit "CANCEL" ->
  stdin s = lines ++ cancel :: rest ->
  get_multiline_input s = (Ret None, set_stdin rest s).
Proof.
  intros Ho Hc Hi. unfold get_multiline_input. rewrite Hi, length_app.
  cbn [length].
  assert (Hcancel : forall fuel acc s0,
             stdin s0 = cancel :: rest ->
             get_multiline_input_loop (S fuel) 0 acc s0
             = (Ret None, set_stdin rest s0)).
  { intros fuel acc s0 H0.
    cbn [get_multiline_input_loop Nat.ltb Nat.leb].
    unfold bind at 1, input at 1. rewrite H0.
    unfold upper_is_CANCEL. rewrite Hc, str_eqb_refl. reflexivity. }
  destruct lines as [|l0 lines0].
  - cbn [length Nat.add app] in *. now rewrite Hcancel.
  - replace (S (length (l0 :: lines0) + S (length rest)))
      with (length (l0 :: lines0) + S (S (length rest)))%nat by lia.
    rewrite (get_multiline_input_loop_ordinary (l0 :: lines0) _ 0%nat [] s
               (cancel :: rest) Ho); [|discriminate | lia | exact Hi].
    now rewrite Hcancel.
Qed.

End Console.


(** ** The key check and the menu *)

Section Menu.
Context {P : Platform}.

(** *** The key check *)

Lemma fold_left_add_bits key : forall acc,
  Forall bit key ->
  fold_left Z.add key acc = acc + Z.of_nat (count_occ Z.eq_dec key 1).
Proof.
  induction key as [|b key IH]; intros acc Hb; [simpl; lia|].
  inversion Hb as [|? ? Hbit Hrest]; subst. cbn [fold_left].
  rewrite IH by exact Hrest. destruct Hbit as [-> | ->].
  - rewrite count_occ_cons_neq by discriminate. lia.
  - rewrite count_occ_cons_eq by reflexivity. lia.
Qed.

Lemma Qle_bool_quotient (a b num den : Z) :
  0 < den -> 0 < b ->
  Qle_bool (a # Z.to_pos b) (inject_Z num / inject_Z den)
  = (a * den <=? b * num)
  /\ Qle_bool (inject_Z num / inject_Z den) (a # Z.to_pos b)
     = (b * num <=? a * den).
Proof.
  intros Hd Hb. destruct den as [|d|d]; try lia. destruct b as [|b|b]; try lia.
  unfold Qle_bool, Qdiv, Qmult, Qinv, inject_Z.
  cbn [Qnum Qden Z.to_pos]. rewrite Pos.mul_1_l, Z.mul_1_r.
  split; f_equal; lia.
Qed.

(** X5.  [verify_key_security] answers [False] for a key shorter than
    [min_key_length], divides by zero on the empty key when that length is
    0, and otherwise accepts a key of bits exactly when the ones are
    between three and seven tenths of it. *)
Theorem verify_key_security_cases (self : SecureBB84) (key : list Z)
  (s : State) :
  ((length key < min_key_length self)%nat ->
   verify_key_security self key s = (Ret false, s))
  /\ (key = [] -> min_key_length self = 0%nat ->
      verify_key_security self key s = (Raise ZeroDivisionError, s))
  /\ (Forall bit key -> key <> [] ->
      (min_key_length self <= length key)%nat ->
      let ones := Z.of_nat (count_occ Z.eq_dec key 1) in
      let n := Z.of_nat (length key) in
      verify_key_security self key s
      = (Ret ((3 * n <=? 10 * ones) && (10 * ones <=? 7 * n)), s)).
Proof.
  split; [|split].
  - intros H. unfold verify_key_security.
    apply Nat.ltb_lt in H. now rewrite H.
  - intros -> H0. unfold verify_key_security. rewrite H0. reflexivity.
  - intros Hb Hne Hl ones n. unfold verify_key_security.
    apply Nat.ltb_ge in Hl. rewrite Hl.
    destruct key as [|b key]; [now elim Hne|].
    rewrite fold_left_add_bits by exact Hb. rewrite Z.add_0_l.
    fold ones. fold n.
    assert (Hn : 0 < n) by (unfold n; cbn [length]; lia).
    destruct (Qle_bool_quotient 3 10 ones n Hn ltac:(lia)) as [E1 _].
    destruct (Qle_bool_quotient 7 10 ones n Hn ltac:(lia)) as [_ E2].
    change (Z.to_pos 10) with 10%positive in E1, E2.
    rewrite E1, E2. reflexivity.
Qed.

(** *** The menu *)

Lemma runtime_errors_app o1 o2 :
  runtime_errors (o1 ++ o2) = (runtime_errors o1 + runtime_errors o2)%nat.
Proof. unfold runtime_errors. now rewrite filter_app, length_app. Qed.

(** X24.  At the end of the input the menu never stops: [input] raises,
    the handler of line 614 logs a runtime error, and the loop starts its
    next pass; whatever number of passes is allowed, they are all used
    up. *)
Theorem run_spins_at_end_of_input (passes : nat)
  (self : EnhancedQKDSimulator) (s : State) :
  stdin s = [] ->
  exists s',
    run passes self s = (Raise OutOfFuel, s')
    /\ stdin s' = []
    /\ runtime_errors (stdout s')
       = (runtime_errors (stdout s) + passes)%nat.
Proof.
  revert s. induction passes as [|passes IH]; intros s Hi.
  - exists s. simpl. unfold raise. repeat split; [exact Hi | lia].
  - cbn [run]. unfold bind at 1. unfold menu_pass, try_except.
    unfold bind at 1, input at 1. rewrite Hi.
    unfold bind at 1, print at 1. unfold ret at 1. cbn [fst snd].
    destruct (IH (set_stdout (stdout s ++ [LogError "Runtime error"]) s) Hi)
      as (s' & E & I & R).
    exists s'. split; [exact E|]. split; [exact I|].
    rewrite R. cbn [stdout set_stdout]. rewrite runtime_errors_app.
    change (runtime_errors [LogError "Runtime error"]) with 1%nat. lia.
Qed.

Lemma menu_generate_run self s :
  exists self' s',
    menu_generate self s = (Ret (Continue, self'), s')
    /\ key_pool s' = key_pool s
    /\ bb84 self' = bb84 self
    /\ (current_key self' = current_key self
        \/ exists key,
             current_key self' = Some key /\ key <> []
             /\ (min_key_length (bb84 self) <= length key)%nat).
Proof.
  unfold menu_generate. unfold bind at 1.
  destruct (generate_key_run (bb84 self) s)
    as ([[key|] rate] & s1 & E & K & _ & _ & _ & _ & Hr); rewrite E;
    cbn [fst].
  2:{ unfold ret. eexists _, _. split; [reflexivity|]. repeat split; auto. }
  destruct key as [|b key].
  { unfold ret. eexists _, _. split; [reflexivity|]. repeat split; auto. }
  destruct Hr as (Hm & _).
  destruct (sha256_hex _).
  - unfold ret. eexists _, _. split; [reflexivity|].
    cbn [bb84 current_key]. split; [exact K|]. split; [reflexivity|].
    right. exists (b :: key). repeat split; [discriminate | exact Hm].
  - unfold bind, print, ret. eexists _, _. split; [reflexivity|].
    cbn [bb84 current_key key_pool set_stdout]. split; [exact K|].
    split; [reflexivity|].
    right. exists (b :: key). repeat split; [discriminate | exact Hm].
Qed.

(** X25.  Entry 1 of the menu always goes back to the menu; the key it
    generates is kept in [current_key] and never reaches the key pool, from
    which alone messages are sealed. *)
Theorem menu_key_never_reaches_the_pool (self : EnhancedQKDSimulator)
  (s : State) :
  exists self' s',
    menu_generate self s = (Ret (Continue, self'), s')
    /\ key_pool s' = key_pool s
    /\ bb84 self' = bb84 self
    /\ (current_key self' = current_key self
        \/ exists key,
             current_key self' = Some key /\ key <> []
             /\ (min_key_length (bb84 self) <= length key)%nat).
Proof.
  unfold menu_generate. unfold bind at 1.
  destruct (generate_key_run (bb84 self) s)
    as ([[key|] rate] & s1 & E & K & _ & _ & _ & _ & Hr); rewrite E;
    cbn [fst].
  2:{ unfold ret. eexists _, _. split; [reflexivity|]. repeat split; auto. }
  destruct key as [|b key].
  { unfold ret. eexists _, _. split; [reflexivity|]. repeat split; auto. }
  destruct Hr as (Hm & _).
  destruct (sha256_hex _).
  - unfold ret. eexists _, _. split; [reflexivity|].
    cbn [bb84 current_key]. split; [exact K|]. split; [reflexivity|].
    right. exists (b :: key). repeat split; [discriminate | exact Hm].
  - unfold bind, print, ret. eexists _, _. split; [reflexivity|].
    cbn [bb84 current_key key_pool set_stdout]. split; [exact K|].
    split; [reflexivity|].
    right. exists (b :: key). repeat split; [discriminate | exact Hm].
Qed.

Lemma menu_pass_run self s :
  exists c self' s',
    menu_pass self s = (Ret (c, self'), s') /\ bb84 self' = bb84 self.
Proof.
  unfold menu_pass, try_except. unfold bind at 1, input at 1.
  destruct (stdin s) as [|choice rest].
  { unfold bind, print, ret. eexists _, _, _. split; reflexivity. }
  destruct (str_eqb (strip choice) (lit "1")).
  { destruct (menu_generate_run self (set_stdin rest s))
      as (self' & s' & E & _ & B & _).
    rewrite E. eauto. }
  destruct (str_eqb (strip choice) (lit "2")).
  { unfold menu_encrypt. unfold bind at 1, input at 1. cbn [stdin set_stdin].
    destruct rest as [|mode rest].
    { unfold bind, print, ret. eexists _, _, _. split; reflexivity. }
    destruct (str_eqb (strip mode) (lit "1")).
    { unfold bind at 1.
      match goal with
      | |- context [encrypt_and_share ?a ?b ?c] =>
          destruct (encrypt_and_share_run a b c) as (r & s' & E & _)
      end.
      rewrite E. unfold ret. eexists _, _, _. split; reflexivity. }
    destruct (str_eqb (strip mode) (lit "2")).
    2:{ unfold ret. eexists _, _, _. split; reflexivity. }
    unfold bind at 1, input at 1. cbn [stdin set_stdin].
    destruct rest as [|path rest].
    { unfold bind, print, ret. eexists _, _, _. split; reflexivity. }
    unfold bind at 1. unfold try_except. unfold bind at 1. unfold read_file.
    cbn [files set_stdin].
    destruct (files s (strip path)) as [message|].
    2:{ unfold ret. eexists _, _, _. split; reflexivity. }
    unfold bind at 1.
    match goal with
    | |- context [encrypt_and_share ?a ?b ?c] =>
        destruct (encrypt_and_share_run a b c) as (r & s' & E & _)
    end.
    rewrite E. unfold ret. eexists _, _, _. split; reflexivity. }
  destruct (str_eqb (strip choice) (lit "3")).
  { unfold menu_decrypt. unfold bind at 1, input at 1. cbn [stdin set_stdin].
    destruct rest as [|filename rest].
    { unfold bind, print, ret. eexists _, _, _. split; reflexivity. }
    unfold bind at 1, input at 1. cbn [stdin set_stdin].
    destruct rest as [|code rest].
    { unfold bind, print, ret. eexists _, _, _. split; reflexivity. }
    destruct (if ends_with (lit ".qk") (strip filename)
              then strip filename else strip filename ++ lit ".qk")
      as [|f0 fr].
    { unfold ret. eexists _, _, _. split; reflexivity. }
    destruct (strip code) as [|c0 cr].
    { unfold ret. eexists _, _, _. split; reflexivity. }
    unfold bind at 1.
    match goal with
    | |- context [decrypt_shared_message ?a ?b ?c] =>
        destruct (decrypt_shared_message_run a b c) as (r & s' & E & _)
    end.
    rewrite E. unfold ret. eexists _, _, _. split; reflexivity. }
  destruct (str_eqb (strip choice) (lit "4"));
    unfold ret; eexists _, _, _; split; reflexivity.
Qed.

(** X26.  No exception escapes the menu: a run of any number of passes
    ends through entry 4, with the BB84 settings unchanged, or is still
    running. *)
Theorem run_never_raises (passes : nat) (self : EnhancedQKDSimulator)
  (s : State) :
  exists x s',
    run passes self s = (x, s')
    /\ match x with
       | Ret self' => bb84 self' = bb84 self
       | Raise e => e = OutOfFuel
       end.
Proof.
  revert self s. induction passes as [|passes IH]; intros self s.
  - eexists _, _. split; [reflexivity|]. reflexivity.
  - cbn [run]. unfold bind at 1.
    destruct (menu_pass_run self s) as (c & self' & s' & E & B).
    rewrite E. cbn [fst snd]. destruct c.
    + unfold ret. eexists _, _. split; [reflexivity | exact B].
    + destruct (IH self' s') as (x & s2 & E2 & H2).
      exists x, s2. split; [exact E2|].
      destruct x; [congruence | exact H2].
Qed.

End Menu.


(** ** The properties on the sample platform *)

Section Examples.
Import Sample.
#[local] Existing Instance sample_platform.

(** Sealing ["hello\nworld"] in chunks of five characters, and the three
    attempts of [generate_key] with too few qubits. *)
#[local] Abbreviation sealed_hello :=
  (encrypt_and_share small_chunks hello_world sample_state).
#[local] Abbreviation first_attempt := (attempt too_few_qubits sample_state).
#[local] Abbreviation second_attempt :=
  (attempt too_few_qubits
     (after_failed_attempt 1 (sifting_of first_attempt) (snd first_attempt))).
#[local] Abbreviation third_attempt :=
  (attempt too_few_qubits
     (after_failed_attempt 2 (sifting_of second_attempt)
        (snd second_attempt))).

Lemma sample_getrandbits_bit :
  forall g : @RandomState sample_platform, bit (fst (getrandbits 1 g)).
Proof.
  intros g. simpl. unfold bit. destruct (Nat.odd g); [now right | now left].
Qed.

Lemma sample_pool_of_bits : pool_of_bits sample_state.
Proof.
  unfold pool_of_bits. simpl.
  repeat (apply Forall_cons || apply Forall_nil);
    (now left) || (now right).
Qed.


Lemma run_eq {A} (r : res A * State) (a : A) :
  fst r = Ret a -> r = (Ret a, snd r).
Proof. destruct r as [x s]. simpl. now intros ->. Qed.

Lemma sealed_hello_result :
  fst sealed_hello = Ret (Some hello_file, Some hello_code).
Proof. vm_compute. reflexivity. Qed.

(** X27, a run: ["hello\nworld"] in chunks of five characters comes back
    unchanged. *)
Lemma decrypt_returns_the_normalized_chunks_witness :
  fst sealed_hello = Ret (Some hello_file, Some hello_code)
  /\ fst (decrypt_shared_message hello_file hello_code
            (set_stdin [lit "3"] (snd sealed_hello)))
     = Ret (Some hello_world).
Proof.
  split; [exact sealed_hello_result|].
  destruct (decrypt_returns_the_normalized_chunks sample_getrandbits_bit
              small_chunks hello_world hello_file hello_code (lit "3") []
              sample_state (snd sealed_hello)
              (set_stdin [lit "3"] (snd sealed_hello))
              sample_pool_of_bits ltac:(vm_compute; reflexivity)
              (run_eq _ _ sealed_hello_result) eq_refl eq_refl
              ltac:(vm_compute; reflexivity))
    as (msg & Em & _ & _ & H).
  injection Em as <-. apply H.
  vm_compute. repeat (apply Forall_cons || apply Forall_nil); reflexivity.
Defined.


(** White space inside a line is normalised: two spaces come back as
    one. *)
Lemma two_spaces_come_back_as_one :
  exists filename recovery_code,
    fst (encrypt_and_share SecureBB84_init (lit "a  b") sample_state)
    = Ret (Some filename, Some recovery_code)
    /\ fst (decrypt_shared_message filename recovery_code
              (set_stdin [lit "3"]
                 (snd (encrypt_and_share SecureBB84_init (lit "a  b")
                         sample_state))))
       = Ret (Some (lit "a b"))
    /\ lit "a b" <> lit "a  b".
Proof.
  exists hello_file, hello_code. split; [vm_compute; reflexivity|].
  split; [vm_compute; reflexivity | discriminate].
Qed.

(** A message typed at the console is read up to its four empty lines,
    sealed, and comes back with them. *)
Lemma typed_message_comes_back :
  message_read [] typing_state = Some typed_message
  /\ stdin (state_read [] typing_state) = [lit "y"]
  /\ fst (encrypt_and_share small_chunks [] typing_state)
     = Ret (Some hello_file, Some hello_code)
  /\ fst (decrypt_shared_message hello_file hello_code
            (set_stdin [lit "3"]
               (snd (encrypt_and_share small_chunks [] typing_state))))
     = Ret (Some typed_message).
Proof. repeat split; vm_compute; reflexivity. Qed.

(** C2, a run: sixteen qubits, every basis matched, no error counted. *)
Lemma matched_sample_has_no_errors_witness :
  exists st,
    fst (attempt small_chunks sample_state) = Ret st
    /\ 0 < total_matched st
    /\ errors st = 0
    /\ (error_rate st == 0)%Q
    /\ Qle_bool (error_rate st) (error_threshold small_chunks) = true.
Proof.
  exists (sifting_of (attempt small_chunks sample_state)).
  assert (E : fst (attempt small_chunks sample_state)
              = Ret (sifting_of (attempt small_chunks sample_state)))
    by (vm_compute; reflexivity).
  assert (Hm : 0 < total_matched
                     (sifting_of (attempt small_chunks sample_state)))
    by (vm_compute; reflexivity).
  split; [exact E|]. split; [exact Hm|].
  destruct (matched_sample_has_no_errors small_chunks sample_state _ _
              (run_eq _ _ E) Hm ltac:(vm_compute; discriminate))
    as (H1 & H2 & H3 & _).
  repeat split; assumption.
Defined.

(** C3, a run: draws of 50, 100 and 66 bits empty the pool of 216. *)
Lemma draws_return_the_pool_in_order_witness :
  fold_right Nat.add 0%nat [50; 100; 66]%nat
  = length (concat (key_pool sample_state))
  /\ exists outs s',
       draws small_chunks [50; 100; 66]%nat sample_state = (Ret outs, s')
       /\ concat outs = concat (key_pool sample_state)
       /\ map (@length Z) outs = [50; 100; 66]%nat
       /\ concat (key_pool s') = []
       /\ rng s' = rng sample_state /\ stdout s' = stdout sample_state.
Proof.
  split; [reflexivity|].
  apply draws_return_the_pool_in_order. reflexivity.
Defined.

(** C4, runs: ["a  b"], and a lone surrogate. *)
Lemma decode_of_encode_is_normalize_witness :
  utf8_encode (normalize (lit "a  b")) = Some [97; 32; 98]
  /\ 8 * Z.of_nat (length [97; 32; 98]) < 2 ^ 32
  /\ binary_to_text_of (text_to_binary (lit "a  b"))
     = Some (normalize (lit "a  b"))
  /\ normalize (normalize (lit "a  b")) = normalize (lit "a  b")
  /\ utf8_encode (normalize [55296]) = None
  /\ text_to_binary [55296] = None
  /\ binary_to_text_of (text_to_binary [55296]) = None.
Proof.
  split; [reflexivity|]. split; [reflexivity|].
  split;
    [apply (proj1 (decode_of_encode_is_normalize (lit "a  b")) [97; 32; 98]);
     reflexivity|].
  split; [exact (proj1 (proj2 (decode_of_encode_is_normalize (lit "a  b"))))|].
  split; [reflexivity|].
  exact (proj2 (proj2 (decode_of_encode_is_normalize [55296])) eq_refl).
Defined.

(** C4, against the claim as it reads: a lone surrogate cannot be encoded,
    [text_to_binary] returns [None] and so does [binary_to_text]. *)
Lemma lone_surrogate_is_not_normalized :
  text_to_binary [55296] = None
  /\ binary_to_text_of (text_to_binary [55296]) <> Some (normalize [55296]).
Proof. split; [reflexivity | vm_compute; discriminate]. Qed.

Lemma first_attempt_result :
  first_attempt = (Ret (sifting_of first_attempt), snd first_attempt).
Proof. apply run_eq. vm_compute. reflexivity. Qed.

Lemma second_attempt_result :
  second_attempt = (Ret (sifting_of second_attempt), snd second_attempt).
Proof. apply run_eq. vm_compute. reflexivity. Qed.

Lemma third_attempt_result :
  third_attempt = (Ret (sifting_of third_attempt), snd third_attempt).
Proof. apply run_eq. vm_compute. reflexivity. Qed.

(** C5, a run: four qubits can never give 500 sifted bits. *)
Lemma three_failed_attempts_exhaust_witness :
  validation_fails too_few_qubits (sifting_of first_attempt) = true
  /\ validation_fails too_few_qubits (sifting_of second_attempt) = true
  /\ validation_fails too_few_qubits (sifting_of third_attempt) = true
  /\ generate_key too_few_qubits sample_state
     = (Ret (None, 1%Q),
        after_failed_attempt 3 (sifting_of third_attempt) (snd third_attempt))
  /\ attempts_started
       (stdout (after_failed_attempt 3 (sifting_of third_attempt)
                  (snd third_attempt)))
     = (attempts_started (stdout sample_state) + 3)%nat.
Proof.
  assert (F1 : validation_fails too_few_qubits (sifting_of first_attempt)
               = true) by (vm_compute; reflexivity).
  assert (F2 : validation_fails too_few_qubits (sifting_of second_attempt)
               = true) by (vm_compute; reflexivity).
  assert (F3 : validation_fails too_few_qubits (sifting_of third_attempt)
               = true) by (vm_compute; reflexivity).
  split; [exact F1|]. split; [exact F2|]. split; [exact F3|].
  pose proof first_attempt_result as E1.
  pose proof second_attempt_result as E2.
  pose proof third_attempt_result as E3.
  exact (three_failed_attempts_exhaust too_few_qubits sample_state
           (snd first_attempt) (snd second_attempt) (snd third_attempt)
           (sifting_of first_attempt) (sifting_of second_attempt)
           (sifting_of third_attempt)
           E1 F1 E2 F2 E3 F3).
Defined.

(** C6, a run: the sealed ["hello
world"] and twelve zeros as the code. *)
Lemma wrong_recovery_code_is_rejected_witness :
  fst sealed_hello = Ret (Some hello_file, Some hello_code)
  /\ lit "000000000000" <> hello_code
  /\ decrypt_shared_message hello_file (lit "000000000000")
       (snd sealed_hello)
     = (Ret None,
        set_stdout (stdout (snd sealed_hello) ++ [PrintRecoveryInvalid])
          (snd sealed_hello)).
Proof.
  assert (N : lit "000000000000" <> hello_code) by discriminate.
  split; [exact sealed_hello_result|]. split; [exact N|].
  exact (wrong_recovery_code_is_rejected small_chunks hello_world hello_file
           hello_code (lit "000000000000") sample_state (snd sealed_hello)
           (snd sealed_hello) (run_eq _ _ sealed_hello_result) eq_refl N).
Defined.

(** C7, a run: the key of 40 entries against the chunk of 48. *)
Lemma short_key_unmasks_a_prefix_witness :
  (length cut_key < length cut_chunk)%nat
  /\ unmask_chunk cut_chunk cut_key
     = unmask_chunk (firstn (length cut_key) cut_chunk) cut_key.
Proof.
  assert (L : (length cut_key < length cut_chunk)%nat)
    by (vm_compute; lia).
  split; [exact L|].
  exact (proj1 (short_key_unmasks_a_prefix cut_chunk cut_key L)).
Defined.

(** C7, against the claim as it reads: the container whose key has 40
    entries for a chunk of 48 characters opens, and returns ["a"]. *)
Lemma cut_key_still_yields_text :
  parse_container cut_container
  = Some (cut_timestamp, cut_salt, cut_encrypted_key, cut_chunk,
          match sha256_hex (cut_timestamp ++ cut_salt ++ cut_encrypted_key
                            ++ cut_chunk)
          with Some h => h | None => [] end,
          lit "1")
  /\ recover_chunk_key cut_transport_key cut_encrypted_key = Some cut_key
  /\ (length cut_key < length cut_chunk)%nat
  /\ fst (decrypt_shared_message (lit "cut.qk") cut_recovery_code
            receiver_state)
     = Ret (Some (lit "a")).
Proof.
  split; [vm_compute; reflexivity|]. split; [vm_compute; reflexivity|].
  split; [vm_compute; lia | vm_compute; reflexivity].
Qed.

(** C8, a run: one bit through equal bases, and through different ones. *)
Lemma simulate_transmission_cases_witness :
  simulate_transmission 1 (lit "diagonal") (lit "diagonal") sample_state
  = (Ret (1, 1%Q), sample_state)
  /\ simulate_transmission 1 (lit "rectilinear") (lit "diagonal")
       sample_state
     = (Ret (fst (getrandbits 1 (rng sample_state)), (1 # 2)%Q),
        set_rng (snd (getrandbits 1 (rng sample_state))) sample_state).
Proof.
  split.
  - exact (proj1 (simulate_transmission_cases 1 (lit "diagonal")
                    (lit "diagonal") sample_state) eq_refl).
  - apply (proj2 (simulate_transmission_cases 1 (lit "rectilinear")
                    (lit "diagonal") sample_state)).
    discriminate.
Defined.

(** C9, runs: a letter in the prefix, and three binary digits alone. *)
Lemma binary_to_text_fails_on_the_length_prefix_only_witness :
  binary_to_text (lit "10x1") = None
  /\ binary_to_text (lit "101") = Some [].
Proof.
  destruct binary_to_text_fails_on_the_length_prefix_only
    as (_ & _ & H3 & _ & H5).
  split.
  - apply (H3 (lit "10x1") 120).
    + vm_compute. auto.
    + lia.
    + reflexivity.
  - apply H5.
    + discriminate.
    + vm_compute. lia.
    + change (lit "101") with [49; 48; 49].
      repeat (apply Forall_cons || apply Forall_nil);
        unfold digit_below; lia.
Defined.

(** C9, against the claim as it reads: an input of three characters is
    not rejected. *)
Lemma short_input_is_not_rejected :
  (length (lit "101") < 32)%nat /\ binary_to_text (lit "101") <> None.
Proof. split; [vm_compute; lia | vm_compute; discriminate]. Qed.

(** C10, a run: the frame of ["ab"]. *)
Lemma latin1_fallback_unreachable_witness :
  frame_bytes (lit "000000000000000000000000000100000110000101100010")
  = Some [97; 98]
  /\ exists decoded,
       utf8_decode Ignore [97; 98] = Some decoded
       /\ decode_bytes [97; 98] = (Utf8Path, normalize decoded)
       /\ binary_to_text
            (lit "000000000000000000000000000100000110000101100010")
          = Some (normalize decoded).
Proof.
  assert (E : frame_bytes
                (lit "000000000000000000000000000100000110000101100010")
              = Some [97; 98]) by (vm_compute; reflexivity).
  split; [exact E|].
  exact (latin1_fallback_unreachable _ _ E).
Defined.

(** *** Runs of the further properties *)

#[local] Abbreviation sealed_spaced :=
  (encrypt_and_share small_chunks spaced_message sample_state).

Lemma sample_pbkdf2_gives_bytes : pbkdf2_gives_bytes.
Proof.
  intros password salt iterations. simpl. unfold sample_digest.
  apply Forall_forall. intros b Hb. apply in_map_iff in Hb as (i & <- & _).
  unfold byte. apply Z.mod_pos_bound. lia.
Qed.

(** X1, a run. *)
Lemma generate_key_outcome_witness :
  exists r s',
    generate_key small_chunks sample_state = (Ret r, s')
    /\ key_pool s' = key_pool sample_state
    /\ (attempts_started (stdout s')
        <= attempts_started (stdout sample_state) + 3)%nat.
Proof.
  destruct (generate_key_outcome small_chunks sample_state)
    as (r & s' & E & K & _ & _ & _ & A & _).
  exists r, s'. repeat split; assumption.
Defined.

(** X2, a run: four qubits for a key of 500 bits. *)
Lemma too_few_qubits_give_no_key_witness :
  exists s',
    generate_key too_few_qubits sample_state = (Ret (None, 1%Q), s')
    /\ key_pool s' = key_pool sample_state.
Proof.
  apply too_few_qubits_give_no_key; vm_compute; lia.
Defined.

(** X3, a run: no qubit at all. *)
Lemma generate_key_without_qubits_witness :
  exists s',
    generate_key no_qubits sample_state = (Ret (None, 1%Q), s')
    /\ stdout s' = stdout sample_state ++ [LogError "Key generation error"].
Proof. apply generate_key_without_qubits. reflexivity. Defined.

(** X4, a run: sixteen qubits, one verification bit. *)
Lemma verification_bits_are_set_aside_witness :
  exists st,
    fst (attempt small_chunks sample_state) = Ret st
    /\ total_matched st
       = Z.of_nat (length (verification st) + length (sifted_key st))
    /\ length (verification st)
       = Nat.min (Z.to_nat (total_matched st))
           (verification_bits small_chunks).
Proof.
  exists (sifting_of (attempt small_chunks sample_state)).
  assert (E : fst (attempt small_chunks sample_state)
              = Ret (sifting_of (attempt small_chunks sample_state)))
    by (vm_compute; reflexivity).
  split; [exact E|].
  destruct (verification_bits_are_set_aside small_chunks sample_state _ _
              (run_eq _ _ E)) as (H1 & H2 & _).
  split; assumption.
Defined.

(** X5, runs: a key too short, and a key of five bits with three ones. *)
Lemma verify_key_security_cases_witness :
  verify_key_security SecureBB84_init [1; 0; 1] sample_state
  = (Ret false, sample_state)
  /\ verify_key_security small_chunks [1; 0; 1; 1; 0] sample_state
     = (Ret true, sample_state).
Proof.
  split.
  - apply (proj1 (verify_key_security_cases SecureBB84_init [1; 0; 1]
                    sample_state)).
    vm_compute. lia.
  - apply (proj2 (proj2 (verify_key_security_cases small_chunks
                           [1; 0; 1; 1; 0] sample_state))).
    + repeat (apply Forall_cons || apply Forall_nil);
        (now left) || (now right).
    + discriminate.
    + vm_compute. lia.
Defined.

(** X6, a run: the frame of ["a  b"] with three digits after it. *)
Lemma binary_to_text_ignores_what_follows_witness :
  exists binary,
    text_to_binary (lit "a  b") = Some binary
    /\ length binary = 56%nat
    /\ Forall (digit_below 2) binary
    /\ binary_to_text (binary ++ lit "101") = Some (normalize (lit "a  b")).
Proof.
  destruct (binary_to_text_ignores_what_follows (lit "a  b") (lit "101")
              [97; 32; 98] ltac:(vm_compute; reflexivity)
              ltac:(vm_compute; reflexivity))
    as (binary & E & L & D & H).
  exists binary. repeat split; assumption.
Defined.

(** X7, a run: the frame of ["ab"]. *)
Lemma binary_to_text_returns_normalized_witness :
  binary_to_text (lit "000000000000000000000000000100000110000101100010")
  = Some (lit "ab")
  /\ normalize (lit "ab") = lit "ab".
Proof.
  assert (E : binary_to_text
                (lit "000000000000000000000000000100000110000101100010")
              = Some (lit "ab")) by (vm_compute; reflexivity).
  split; [exact E|].
  exact (binary_to_text_returns_normalized _ _ E).
Defined.

(** X8, a run: two lines with tabs and spaces. *)
Lemma normalize_keeps_lines_witness :
  length (split LF (normalize (lit " a  b " ++ LF ++ [9; 99])))
  = length (split LF (lit " a  b " ++ LF ++ [9; 99])).
Proof.
  exact (proj1 (proj2 (normalize_keeps_lines
                         (lit " a  b " ++ LF ++ [9; 99])))).
Defined.

(** X9, a run: the pool holds what is asked. *)
Lemma generate_key_pool_outcome_witness :
  exists ok s',
    generate_key_pool small_chunks 10 sample_state = (Ret ok, s')
    /\ s' = sample_state.
Proof.
  destruct (generate_key_pool_outcome small_chunks 10 sample_state)
    as (ok & s' & added & E & _ & _ & _ & _ & _ & _ & H).
  exists ok, s'. split; [exact E|]. apply H. vm_compute. lia.
Defined.

(** X10, runs: fifty bits out of a pool of 216; 250 bits, of which 34 are
    generated; and 300 bits when no key can be generated. *)
Lemma get_key_from_pool_conserves_bits_witness :
  (exists s',
     get_key_from_pool small_chunks 50 sample_state
     = (Ret (firstn 50 (concat sample_pool)), s')
     /\ concat (key_pool s') = skipn 50 (concat sample_pool))
  /\ (exists s1 s',
        generate_key_pool small_chunks 34 (set_key_pool [] sample_state)
        = (Ret true, s1)
        /\ get_key_from_pool small_chunks 250 sample_state
           = (Ret (concat sample_pool ++ firstn 34 (concat (key_pool s1))),
              s')
        /\ concat (key_pool s') = skipn 34 (concat (key_pool s1)))
  /\ (exists s1,
        generate_key_pool too_few_qubits 84 (set_key_pool [] sample_state)
        = (Ret false, s1)
        /\ get_key_from_pool too_few_qubits 300 sample_state
           = (Raise (Exception_ "Failed to generate enough keys"), s1)).
Proof.
  split; [|split].
  - destruct (proj1 (get_key_from_pool_conserves_bits small_chunks 50
                       sample_state)) as (s' & E & C & _);
      [vm_compute; lia|].
    exists s'. split; [exact E | exact C].
  - destruct (proj2 (get_key_from_pool_conserves_bits small_chunks 250
                       sample_state)) as (ok & s1 & E & _ & _ & _ & H);
      [vm_compute; lia|].
    assert (Hok : fst (generate_key_pool small_chunks 34
                         (set_key_pool [] sample_state)) = Ret true)
      by (vm_compute; reflexivity).
    change (250 - length (concat (key_pool sample_state)))%nat
      with 34%nat in E, H.
    rewrite E in Hok. cbn [fst] in Hok. injection Hok as ->.
    destruct H as (_ & s' & E' & C & _).
    exists s1, s'. split; [exact E|]. split; [exact E' | exact C].
  - destruct (proj2 (get_key_from_pool_conserves_bits too_few_qubits 300
                       sample_state)) as (ok & s1 & E & _ & _ & _ & H);
      [vm_compute; lia|].
    assert (Hok : fst (generate_key_pool too_few_qubits 84
                         (set_key_pool [] sample_state)) = Ret false)
      by (vm_compute; reflexivity).
    change (300 - length (concat (key_pool sample_state)))%nat
      with 84%nat in E, H.
    rewrite E in Hok. cbn [fst] in Hok. injection Hok as ->.
    exists s1. split; [exact E | exact H].
Defined.

(** X11, a run. *)
Lemma encrypt_and_share_returns_both_or_none_witness :
  exists r s',
    sealed_hello = (Ret r, s') /\ (fst r = None <-> snd r = None).
Proof.
  exact (encrypt_and_share_returns_both_or_none small_chunks hello_world
           sample_state).
Defined.

(** X12, a run: the user declines. *)
Lemma failed_sealing_writes_no_file_witness :
  fst (encrypt_and_share small_chunks hello_world declining_state)
  = Ret (None, None)
  /\ files (snd (encrypt_and_share small_chunks hello_world declining_state))
     = files declining_state.
Proof.
  assert (E : fst (encrypt_and_share small_chunks hello_world declining_state)
              = Ret (None, None)) by (vm_compute; reflexivity).
  split; [exact E|].
  exact (failed_sealing_writes_no_file small_chunks hello_world
           declining_state _ sample_pbkdf2_gives_bytes (run_eq _ _ E)).
Defined.


(** X14, a run: the sealed ["hello\nworld"]. *)
Lemma sealing_writes_one_file_witness :
  fst sealed_hello = Ret (Some hello_file, Some hello_code)
  /\ hello_file
     = lit "qkd_message_" ++ strftime (now sample_state) ++ lit ".qk"
  /\ files (snd sealed_hello) hello_file <> None.
Proof.
  split; [exact sealed_hello_result|].
  destruct (sealing_writes_one_file small_chunks hello_world hello_file
              hello_code sample_state (snd sealed_hello)
              (run_eq _ _ sealed_hello_result)) as (H1 & H2 & _).
  split; assumption.
Defined.

(** X15, a run: the sealed ["hello\nworld"]. *)
Lemma recovery_code_is_in_the_file_witness :
  fst sealed_hello = Ret (Some hello_file, Some hello_code)
  /\ exists export,
       files (snd sealed_hello) hello_file = Some export
       /\ check_code_of_container export = Some hello_code.
Proof.
  split; [exact sealed_hello_result|].
  exact (recovery_code_is_in_the_file small_chunks hello_world hello_file
           hello_code sample_state (snd sealed_hello)
           (run_eq _ _ sealed_hello_result)).
Defined.

(** X16, a run: the sealed ["hello\nworld"] takes the first 184 bits of
    the pool. *)
Lemma key_bits_are_used_once_witness :
  fst sealed_hello = Ret (Some hello_file, Some hello_code)
  /\ exists keys_used,
       concat keys_used = firstn 184 (concat (key_pool sample_state))
       /\ concat (key_pool (snd sealed_hello))
          = skipn 184 (concat (key_pool sample_state)).
Proof.
  split; [exact sealed_hello_result|].
  destruct (key_bits_are_used_once small_chunks hello_world hello_file
              hello_code sample_state (snd sealed_hello)
              (run_eq _ _ sealed_hello_result))
    as (msg & ecs & keys & export & ts & salt & all_keys & vh & tk
        & Em & Hm & _ & _ & _ & _ & H).
  injection Em as <-. apply masked_chunks_bits in Hm.
  assert (Hlen : length (concat keys) = 184%nat)
    by (rewrite Hm; vm_compute; reflexivity).
  rewrite Hlen in H. exists keys. apply H. vm_compute. lia.
Defined.

(** X18, a run: two lines and four empty ones. *)
Lemma typed_message_ends_at_four_blank_lines_witness :
  get_multiline_input typing_state
  = (Ret (Some (join LF ([lit "hi"; lit "there"] ++ [[]; []; []; []]))),
     set_stdin [lit "y"] typing_state).
Proof.
  apply typed_message_ends_at_four_blank_lines.
  - repeat (apply Forall_cons || apply Forall_nil);
      (split; [reflexivity | discriminate]).
  - repeat (apply Forall_cons || apply Forall_nil); reflexivity.
  - reflexivity.
  - reflexivity.
Defined.

(** X17, a run: the same lines, then sealed. *)
Lemma typed_message_is_sealed_as_given_witness :
  encrypt_and_share small_chunks [] typing_state
  = encrypt_and_share small_chunks
      (join LF ([lit "hi"; lit "there"] ++ [[]; []; []; []]))
      (set_stdin [lit "y"] typing_state).
Proof.
  apply typed_message_is_sealed_as_given.
  - reflexivity.
  - discriminate.
Defined.

(** X19, a run: a line, then [Cancel]. *)
Lemma cancel_drops_the_message_witness :
  get_multiline_input cancelling_state
  = (Ret None, set_stdin [lit "y"] cancelling_state).
Proof.
  apply (cancel_drops_the_message cancelling_state [lit "hi"] [lit "y"]
           (lit "Cancel")).
  - repeat (apply Forall_cons || apply Forall_nil);
      (split; [reflexivity | discriminate]).
  - reflexivity.
  - reflexivity.
Defined.


(** Sealing a message whose second chunk is white space. *)
Lemma sealed_spaced_result :
  fst sealed_spaced = Ret (Some hello_file, Some hello_code).
Proof. vm_compute. reflexivity. Qed.

(** X22, a run: ["hello     world"] in chunks of five characters. *)
Lemma blank_chunk_cannot_be_opened_witness :
  fst sealed_spaced = Ret (Some hello_file, Some hello_code)
  /\ fst (decrypt_shared_message hello_file hello_code (snd sealed_spaced))
     = Ret None.
Proof.
  split; [exact sealed_spaced_result|].
  apply (blank_chunk_cannot_be_opened sample_getrandbits_bit small_chunks
           spaced_message hello_file hello_code spaced_message sample_state
           (snd sealed_spaced) (snd sealed_spaced) sample_pool_of_bits).
  - vm_compute. reflexivity.
  - exact (run_eq _ _ sealed_spaced_result).
  - reflexivity.
  - reflexivity.
  - vm_compute. apply Exists_cons_tl. apply Exists_cons_hd. reflexivity.
Defined.


(** X24, a run: five passes at the end of the input. *)
Lemma run_spins_at_end_of_input_witness :
  exists s',
    run 5 EnhancedQKDSimulator_init end_of_input = (Raise OutOfFuel, s')
    /\ stdin s' = []
    /\ runtime_errors (stdout s')
       = (runtime_errors (stdout end_of_input) + 5)%nat.
Proof. apply run_spins_at_end_of_input. reflexivity. Defined.

End Examples.
